(** * Border stitching of halfedge polygon meshes

    A shallow embedding of
    [Polygon_mesh_processing/include/CGAL/Polygon_mesh_processing/stitch_borders.h]:
    the border pair collector ([fill_pairs],
    [collect_duplicated_stitchable_boundary_edges]), the manifold-safety
    filter ([stitch_borders_impl]), the surgery engine
    ([run_stitch_borders]) and the boundary cycle self-stitcher
    ([stitch_boundary_cycle], [stitch_boundary_cycles]), together with the
    two [stitch_borders] entry points. *)

From Stdlib Require Import ZArith Lia.
From stdpp Require Import base option list sorting gmap fin_maps fin_sets.

Set Default Proof Using "Type".

(** ** Descriptors and points *)

Definition vertex_descriptor := nat.
Definition halfedge_descriptor := nat.
Definition face_descriptor := nat.

(** Null descriptors of the graph traits.  The null face is the border
    sentinel and is modelled by [None] in [option face_descriptor]. *)
Definition null_vertex : vertex_descriptor := 0.
Definition null_halfedge : halfedge_descriptor := 0.

Definition halfedges_pair : Type := halfedge_descriptor * halfedge_descriptor.

(** Points carry exact coordinates, compared for equality and with the
    lexicographic strict order. *)
Definition Point : Type := Z * Z * Z.

Definition Point_ltb (p q : Point) : bool :=
  let '(px, py, pz) := p in
  let '(qx, qy, qz) := q in
  (px <? qx)%Z
  || ((px =? qx)%Z && ((py <? qy)%Z || ((py =? qy)%Z && (pz <? qz)%Z))).

Definition Point_eqb (p q : Point) : bool := bool_decide (p = q).

(** ** The mesh

    Modelled from the spec: the Mesh Adjacency Provider (the storage of the
    mesh and the graph primitives [target], [opposite], [next], [prev],
    [face], [halfedge], [set_target], [set_next], [set_face],
    [set_halfedge], [remove_edge], [remove_vertex], [is_border],
    [is_border_edge], the halfedges around a target and the boundary cycle
    extraction are not part of the stitching header).  A mesh is an arena
    of halfedge records indexed by descriptors, with a reference halfedge
    per vertex and per face. *)

Record Halfedge := mkHalfedge {
  hd_target : vertex_descriptor;
  hd_opposite : halfedge_descriptor;
  hd_next : halfedge_descriptor;
  hd_prev : halfedge_descriptor;
  hd_face : option face_descriptor
}.

Record PM := mkPM {
  pm_halfedges : gmap halfedge_descriptor Halfedge;
  pm_vertices : gmap vertex_descriptor halfedge_descriptor;
  pm_faces : gmap face_descriptor halfedge_descriptor
}.

Global Instance Halfedge_eq_dec : EqDecision Halfedge.
Proof. solve_decision. Defined.

Global Instance PM_eq_dec : EqDecision PM.
Proof. solve_decision. Defined.

Module Graph.

Definition target (h : halfedge_descriptor) (g : PM) : vertex_descriptor :=
  from_option hd_target null_vertex (pm_halfedges g !! h).

Definition opposite (h : halfedge_descriptor) (g : PM) : halfedge_descriptor :=
  from_option hd_opposite null_halfedge (pm_halfedges g !! h).

Definition next (h : halfedge_descriptor) (g : PM) : halfedge_descriptor :=
  from_option hd_next null_halfedge (pm_halfedges g !! h).

Definition prev (h : halfedge_descriptor) (g : PM) : halfedge_descriptor :=
  from_option hd_prev null_halfedge (pm_halfedges g !! h).

Definition face (h : halfedge_descriptor) (g : PM) : option face_descriptor :=
  from_option hd_face None (pm_halfedges g !! h).

Definition source (h : halfedge_descriptor) (g : PM) : vertex_descriptor :=
  target (opposite h g) g.

Definition halfedge (v : vertex_descriptor) (g : PM) : halfedge_descriptor :=
  default null_halfedge (pm_vertices g !! v).

Definition is_border (h : halfedge_descriptor) (g : PM) : bool :=
  bool_decide (face h g = None).

Definition is_border_edge (h : halfedge_descriptor) (g : PM) : bool :=
  is_border h g || is_border (opposite h g) g.

(** The edge of a halfedge: the halfedge and its opposite, smaller
    descriptor first. *)
Definition edge (h : halfedge_descriptor) (g : PM)
  : halfedge_descriptor * halfedge_descriptor :=
  (Nat.min h (opposite h g), Nat.max h (opposite h g)).

(** The sequence [halfedges(pmesh)], in increasing descriptor order of
    the arena. *)
Definition halfedges (g : PM) : list halfedge_descriptor :=
  merge_sort Nat.le ((map_to_list (pm_halfedges g)).*1).

Definition num_halfedges (g : PM) : nat := size (pm_halfedges g).
Definition num_vertices (g : PM) : nat := size (pm_vertices g).
Definition num_faces (g : PM) : nat := size (pm_faces g).

Definition upd_halfedges (f : gmap halfedge_descriptor Halfedge →
                              gmap halfedge_descriptor Halfedge) (g : PM) : PM :=
  mkPM (f (pm_halfedges g)) (pm_vertices g) (pm_faces g).

Definition set_target (h : halfedge_descriptor) (v : vertex_descriptor) (g : PM) : PM :=
  upd_halfedges
    (alter (λ r, mkHalfedge v (hd_opposite r) (hd_next r) (hd_prev r) (hd_face r)) h) g.

Definition set_face (h : halfedge_descriptor) (f : option face_descriptor) (g : PM) : PM :=
  upd_halfedges
    (alter (λ r, mkHalfedge (hd_target r) (hd_opposite r) (hd_next r) (hd_prev r) f) h) g.

(** [set_next(h1, h2, g)] makes [h2] the successor of [h1] and [h1] the
    predecessor of [h2]. *)
Definition set_next (h1 h2 : halfedge_descriptor) (g : PM) : PM :=
  upd_halfedges
    (λ hs,
       alter (λ r, mkHalfedge (hd_target r) (hd_opposite r) (hd_next r) h1 (hd_face r)) h2
         (alter (λ r, mkHalfedge (hd_target r) (hd_opposite r) h2 (hd_prev r) (hd_face r)) h1
            hs)) g.

(** [set_halfedge(v, h, g)] on a vertex. *)
Definition set_halfedge (v : vertex_descriptor) (h : halfedge_descriptor) (g : PM) : PM :=
  mkPM (pm_halfedges g) (alter (λ _, h) v (pm_vertices g)) (pm_faces g).

(** [set_halfedge(f, h, g)] on a face; nothing is stored for the null
    face. *)
Definition set_halfedge_face (f : option face_descriptor) (h : halfedge_descriptor)
    (g : PM) : PM :=
  match f with
  | Some f' => mkPM (pm_halfedges g) (pm_vertices g) (alter (λ _, h) f' (pm_faces g))
  | None => g
  end.

(** [remove_edge(e, g)] deletes the two halfedge records of [e]. *)
Definition remove_edge (e : halfedge_descriptor * halfedge_descriptor) (g : PM) : PM :=
  upd_halfedges (λ hs, delete e.2 (delete e.1 hs)) g.

Definition remove_vertex (v : vertex_descriptor) (g : PM) : PM :=
  mkPM (pm_halfedges g) (delete v (pm_vertices g)) (pm_faces g).

(** Bound on the number of steps of a walk that comes back to its start:
    a walk over the arena that has not closed after visiting every record,
    a dead record and the null descriptor never closes. *)
Definition walk_bound (g : PM) : nat := S (S (S (size (pm_halfedges g)))).

(** [halfedges_around_target(h, g)]: [h], then [opposite(next(.))]
    repeatedly until the walk is back on [h].  [None] stands for a walk
    that does not come back. *)
Fixpoint halfedges_around_target_from (fuel : nat) (anchor pos : halfedge_descriptor)
    (g : PM) : option (list halfedge_descriptor) :=
  match fuel with
  | O => None
  | S fuel' =>
      let pos' := opposite (next pos g) g in
      if decide (pos' = anchor) then Some [pos]
      else (pos ::.) <$> halfedges_around_target_from fuel' anchor pos' g
  end.

Definition halfedges_around_target (v : vertex_descriptor) (g : PM)
  : option (list halfedge_descriptor) :=
  halfedges_around_target_from (walk_bound g) (halfedge v g) (halfedge v g) g.

(** [halfedges_around_face(h, g)]: [h], then [next] repeatedly. *)
Fixpoint halfedges_around_face_from (fuel : nat) (anchor pos : halfedge_descriptor)
    (g : PM) : option (list halfedge_descriptor) :=
  match fuel with
  | O => None
  | S fuel' =>
      let pos' := next pos g in
      if decide (pos' = anchor) then Some [pos]
      else (pos ::.) <$> halfedges_around_face_from fuel' anchor pos' g
  end.

Definition halfedges_around_face (h : halfedge_descriptor) (g : PM)
  : option (list halfedge_descriptor) :=
  halfedges_around_face_from (walk_bound g) h h g.

(** [extract_boundary_cycles(g, out)]: one border halfedge per boundary
    cycle, the first one met in the halfedge sequence. *)
Fixpoint extract_boundary_cycles_loop (hs : list halfedge_descriptor)
    (hedge_handled : gset halfedge_descriptor) (g : PM)
  : option (list halfedge_descriptor) :=
  match hs with
  | [] => Some []
  | h :: hs' =>
      if is_border h g && bool_decide (h ∉ hedge_handled) then
        cyc ← halfedges_around_face h g;
        (h ::.) <$> extract_boundary_cycles_loop hs' (list_to_set cyc ∪ hedge_handled) g
      else extract_boundary_cycles_loop hs' hedge_handled g
  end.

Definition extract_boundary_cycles (g : PM) : option (list halfedge_descriptor) :=
  extract_boundary_cycles_loop (halfedges g) ∅ g.

End Graph.

Import Graph.

(** ** Union-find over vertices

    Modelled from the spec: the union-find structure [CGAL::Union_find]
    (a disjoint-set structure with merge and representative lookup, whose
    representative is arbitrary but stable within one pass; its header is
    not part of the stitching header).  A handle is identified with the
    vertex it was made for, and the structure maps every handle to the
    representative of its set. *)

Abbreviation Uf_vertices := (gmap vertex_descriptor vertex_descriptor).
Abbreviation Uf_handles := (gmap vertex_descriptor vertex_descriptor).

Module Union_find.

Definition make_set (v : vertex_descriptor) (uf : Uf_vertices)
  : vertex_descriptor * Uf_vertices :=
  (v, <[v := v]> uf).

Definition find (h : vertex_descriptor) (uf : Uf_vertices) : vertex_descriptor :=
  default h (uf !! h).

Definition unify_sets (h1 h2 : vertex_descriptor) (uf : Uf_vertices) : Uf_vertices :=
  let r1 := find h1 uf in
  let r2 := find h2 uf in
  if decide (r1 = r2) then uf
  else (λ r, if decide (r = r1) then r2 else r) <$> uf.

End Union_find.

(** ** [std::map] with a comparator

    A [std::map<K, V, Less>] used through [insert] and through the iterator
    that [insert] returns only: its entries are kept in insertion order and
    an iterator is the position of an entry.  Two keys are the same key
    when neither is less than the other. *)

Definition key_equiv {K} (less : K → K → bool) (k1 k2 : K) : bool :=
  negb (less k1 k2) && negb (less k2 k1).

Fixpoint map_position {K V} (less : K → K → bool) (k : K) (m : list (K * V))
  : option nat :=
  match m with
  | [] => None
  | (k', _) :: m' =>
      if key_equiv less k' k then Some 0
      else S <$> map_position less k m'
  end.

(** [m.insert(make_pair(k, v))]: the iterator, whether the insertion took
    place, and the map. *)
Definition map_insert {K V} (less : K → K → bool) (k : K) (v : V) (m : list (K * V))
  : nat * bool * list (K * V) :=
  match map_position less k m with
  | Some i => (i, false, m)
  | None => (length m, true, m ++ [(k, v)])
  end.

Definition make_sorted_pair (a b : nat) : nat * nat :=
  if a <? b then (a, b) else (b, a).

Module internal.

(** [std::pair]'s [operator<] on pairs of points. *)
Definition pair_ltb (a b : Point * Point) : bool :=
  Point_ltb a.1 b.1 || (negb (Point_ltb b.1 a.1) && Point_ltb a.2 b.2).

Definition Less_for_halfedge (pmesh : PM) (vpmap : vertex_descriptor → Point)
    (h1 h2 : halfedge_descriptor) : bool :=
  let s1 := vpmap (target (opposite h1 pmesh) pmesh) in
  let t1 := vpmap (target h1 pmesh) in
  let s2 := vpmap (target (opposite h2 pmesh) pmesh) in
  let t2 := vpmap (target h2 pmesh) in
  pair_ltb (if Point_ltb s1 t1 then (s1, t1) else (t1, s1))
           (if Point_ltb s2 t2 then (s2, t2) else (t2, s2)).

Abbreviation Border_halfedge_map := (list (halfedge_descriptor * (nat * nat))).

(** The three containers [fill_pairs] updates: [border_halfedge_map],
    [halfedge_pairs] and [manifold_halfedge_pairs]. *)
Definition Collected : Type :=
  Border_halfedge_map * list halfedges_pair * list bool.

Definition fill_pairs (he : halfedge_descriptor) (st : Collected)
    (less_hedge : halfedge_descriptor → halfedge_descriptor → bool)
    (vpmap : vertex_descriptor → Point) (pmesh : PM) : Collected :=
  let '(border_halfedge_map, halfedge_pairs, manifold_halfedge_pairs) := st in
  let '(set_it, insertion_ok, border_halfedge_map) :=
    map_insert less_hedge he (1, 0) border_halfedge_map in
  if negb insertion_ok then
    match border_halfedge_map !! set_it with
    | None => (border_halfedge_map, halfedge_pairs, manifold_halfedge_pairs)
    | Some (first_he, (mult, id)) =>
        let mult := S mult in
        if mult =? 2 then
          let id := length halfedge_pairs in
          (<[set_it := (first_he, (mult, id))]> border_halfedge_map,
           halfedge_pairs ++ [(first_he, he)],
           manifold_halfedge_pairs ++
             [Point_eqb (vpmap (source he pmesh)) (vpmap (target first_he pmesh))
              && Point_eqb (vpmap (target he pmesh)) (vpmap (source first_he pmesh))])
        else if 2 <? mult then
          (<[set_it := (first_he, (mult, id))]> border_halfedge_map,
           halfedge_pairs,
           <[id := false]> manifold_halfedge_pairs)
        else
          (<[set_it := (first_he, (mult, id))]> border_halfedge_map,
           halfedge_pairs, manifold_halfedge_pairs)
    end
  else (border_halfedge_map, halfedge_pairs, manifold_halfedge_pairs).

(** The output loop: [halfedge_pairs[k]] for every [k] with
    [manifold_halfedge_pairs[k]]. *)
Definition put_manifold_pairs (halfedge_pairs : list halfedges_pair)
    (manifold_halfedge_pairs : list bool) : list halfedges_pair :=
  omap (λ k, match manifold_halfedge_pairs !! k, halfedge_pairs !! k with
             | Some true, Some p => Some p
             | _, _ => None
             end)
       (seq 0 (length halfedge_pairs)).

(** The component of the face of [opposite(he)]; the null face has no
    component and indexes past the end of [border_edges_per_cc]. *)
Definition cc_of_border (num_component : nat) (cc : face_descriptor → nat)
    (he : halfedge_descriptor) (pmesh : PM) : nat :=
  match face (opposite he pmesh) pmesh with
  | Some f => cc f
  | None => num_component
  end.

(** [connected_components] is the connected-components collaborator: it
    yields the number of components and the component of every face. *)
Definition collect_duplicated_stitchable_boundary_edges (pmesh : PM)
    (vpmap : vertex_descriptor → Point) (per_cc : bool)
    (connected_components : PM → nat * (face_descriptor → nat))
  : list halfedges_pair :=
  let less_hedge := Less_for_halfedge pmesh vpmap in
  if per_cc then
    let '(num_component, cc) := connected_components pmesh in
    let border_edges_per_cc :=
      foldl (λ per he,
               if negb (is_border he pmesh) then per
               else alter (λ l, l ++ [he]) (cc_of_border num_component cc he pmesh) per)
            (replicate num_component []) (halfedges pmesh) in
    mjoin
      ((λ i,
          let '(_, halfedge_pairs, manifold_halfedge_pairs) :=
            foldl (λ st he, fill_pairs he st less_hedge vpmap pmesh)
                  ([], [], []) (default [] (border_edges_per_cc !! i)) in
          put_manifold_pairs halfedge_pairs manifold_halfedge_pairs)
         <$> seq 0 num_component)
  else
    let '(_, halfedge_pairs, manifold_halfedge_pairs) :=
      foldl (λ st he,
               if negb (is_border he pmesh) then st
               else fill_pairs he st less_hedge vpmap pmesh)
            ([], [], []) (halfedges pmesh) in
    put_manifold_pairs halfedge_pairs manifold_halfedge_pairs.

(** [update_target_vertex]: the [do ... while (h != start)] loop. *)
Fixpoint update_target_vertex_loop (fuel : nat) (start h : halfedge_descriptor)
    (v_kept : vertex_descriptor) (pmesh : PM) : option PM :=
  match fuel with
  | O => None
  | S fuel' =>
      let pmesh := set_target h v_kept pmesh in
      let h := opposite (next h pmesh) pmesh in
      if decide (h = start) then Some pmesh
      else update_target_vertex_loop fuel' start h v_kept pmesh
  end.

Definition update_target_vertex (h : halfedge_descriptor) (v_kept : vertex_descriptor)
    (pmesh : PM) : option PM :=
  update_target_vertex_loop (walk_bound pmesh) h h v_kept pmesh.

Definition uf_get_handle (v : vertex_descriptor) (uf_vertices : Uf_vertices)
    (handles : Uf_handles) : vertex_descriptor * Uf_vertices * Uf_handles :=
  match handles !! v with
  | Some h => (h, uf_vertices, handles)
  | None =>
      let '(h, uf_vertices) := Union_find.make_set v uf_vertices in
      (h, uf_vertices, <[v := h]> handles)
  end.

Definition uf_join_vertices (v1 v2 : vertex_descriptor) (uf_vertices : Uf_vertices)
    (handles : Uf_handles) : Uf_vertices * Uf_handles :=
  let '(h1, uf_vertices, handles) := uf_get_handle v1 uf_vertices handles in
  let '(h2, uf_vertices, handles) := uf_get_handle v2 uf_vertices handles in
  (Union_find.unify_sets h1 h2 uf_vertices, handles).


(** *** The surgery engine *)

(** The state of the first loop of [run_stitch_borders]: the mesh, the
    union-find with its handles (a lookup may make a handle), and
    [vertices_to_delete]. *)
Record Surgery := mkSurgery {
  sg_pmesh : PM;
  sg_uf_vertices : Uf_vertices;
  sg_uf_handles : Uf_handles;
  sg_vertices_to_delete : list vertex_descriptor
}.

(** First loop, one pair: the vertex kept at each end and the
    redirection of the fans of the other vertices. *)
Definition update_vertex_pointers (hk : halfedges_pair) (st : Surgery) : option Surgery :=
  let '(mkSurgery pmesh uf_vertices uf_handles vertices_to_delete) := st in
  let h1 := hk.1 in
  let h2 := hk.2 in
  let h1_tgt := target h1 pmesh in
  let h2_src := source h2 pmesh in
  let '(hdl, uf_vertices, uf_handles) := uf_get_handle h1_tgt uf_vertices uf_handles in
  let v_to_keep := Union_find.find hdl uf_vertices in
  '(pmesh, vertices_to_delete) ←
    (if decide (v_to_keep ≠ h1_tgt) then
       pmesh ← update_target_vertex h1 v_to_keep pmesh;
       Some (pmesh, vertices_to_delete ++ [h1_tgt])
     else Some (pmesh, vertices_to_delete));
  '(pmesh, vertices_to_delete) ←
    (if decide (v_to_keep ≠ h2_src ∧ h1_tgt ≠ h2_src) then
       pmesh ← update_target_vertex (opposite h2 pmesh) v_to_keep pmesh;
       Some (pmesh, vertices_to_delete ++ [h2_src])
     else Some (pmesh, vertices_to_delete));
  let pmesh := set_halfedge v_to_keep h1 pmesh in
  let h1_src := source h1 pmesh in
  let h2_tgt := target h2 pmesh in
  let '(hdl, uf_vertices, uf_handles) := uf_get_handle h2_tgt uf_vertices uf_handles in
  let v_to_keep := Union_find.find hdl uf_vertices in
  '(pmesh, vertices_to_delete) ←
    (if decide (v_to_keep ≠ h2_tgt) then
       pmesh ← update_target_vertex h2 v_to_keep pmesh;
       Some (pmesh, vertices_to_delete ++ [h2_tgt])
     else Some (pmesh, vertices_to_delete));
  '(pmesh, vertices_to_delete) ←
    (if decide (v_to_keep ≠ h1_src ∧ h1_src ≠ h2_tgt) then
       pmesh ← update_target_vertex (opposite h1 pmesh) v_to_keep pmesh;
       Some (pmesh, vertices_to_delete ++ [h1_src])
     else Some (pmesh, vertices_to_delete));
  let pmesh := set_halfedge v_to_keep (opposite h1 pmesh) pmesh in
  Some (mkSurgery pmesh uf_vertices uf_handles vertices_to_delete).

(** Second loop, one pair: next/prev of the neighbours of the seam. *)
Definition link_neighbors (pmesh : PM) (hk : halfedges_pair) : PM :=
  let h1 := hk.1 in
  let h2 := hk.2 in
  let pr := prev h2 pmesh in
  let nx := next h1 pmesh in
  let pmesh := set_next pr nx pmesh in
  let pr := prev h1 pmesh in
  let nx := next h2 pmesh in
  set_next pr nx pmesh.

(** Third loop, one pair: [h1] takes the face of [opposite(h2)] and the
    edge of [h2] is removed. *)
Definition remove_second_halfedge (pmesh : PM) (hk : halfedges_pair) : PM :=
  let h1 := hk.1 in
  let h2 := hk.2 in
  let pmesh := set_face h1 (face (opposite h2 pmesh) pmesh) pmesh in
  let pmesh := set_halfedge_face (face h1 pmesh) h1 pmesh in
  let tmp := prev (opposite h2 pmesh) pmesh in
  let pmesh := set_next tmp h1 pmesh in
  let tmp := next (opposite h2 pmesh) pmesh in
  let pmesh := set_next h1 tmp pmesh in
  remove_edge (edge h2 pmesh) pmesh.

Fixpoint update_vertex_pointers_loop (to_stitch : list halfedges_pair) (st : Surgery)
  : option Surgery :=
  match to_stitch with
  | [] => Some st
  | hk :: to_stitch' =>
      st ← update_vertex_pointers hk st;
      update_vertex_pointers_loop to_stitch' st
  end.

Definition run_stitch_borders (pmesh : PM) (to_stitch : list halfedges_pair)
    (uf_vertices : Uf_vertices) (uf_handles : Uf_handles) : option PM :=
  st ← update_vertex_pointers_loop to_stitch (mkSurgery pmesh uf_vertices uf_handles []);
  let pmesh := foldl link_neighbors (sg_pmesh st) to_stitch in
  let pmesh := foldl remove_second_halfedge pmesh to_stitch in
  Some (foldl (λ g vd, remove_vertex vd g) pmesh (sg_vertices_to_delete st)).

(** *** The manifold-safety filter *)

(** The unions of one pair. *)
Definition join_pair (pmesh : PM) (uf : Uf_vertices * Uf_handles) (hk : halfedges_pair)
  : Uf_vertices * Uf_handles :=
  let h1 := hk.1 in
  let h2 := hk.2 in
  let tgt1 := target h1 pmesh in
  let src1 := source h1 pmesh in
  let src2 := source h2 pmesh in
  let tgt2 := target h2 pmesh in
  let '(uf_vertices, uf_handles) := uf_join_vertices tgt1 src2 uf.1 uf.2 in
  uf_join_vertices src1 tgt2 uf_vertices uf_handles.

Definition merge_vertices (pmesh : PM) (to_stitch : list halfedges_pair)
  : Uf_vertices * Uf_handles :=
  foldl (join_pair pmesh) (∅, ∅) to_stitch.

(** The four assertions on a candidate in the first loop of
    [stitch_borders_impl]: its two halfedges are border halfedges and
    their opposites are not. *)
Definition candidate_assertions (pmesh : PM) (hk : halfedges_pair) : bool :=
  is_border hk.1 pmesh && is_border hk.2 pmesh
  && negb (is_border (opposite hk.1 pmesh) pmesh)
  && negb (is_border (opposite hk.2 pmesh) pmesh).

(** The first loop of [stitch_borders_impl]: for every candidate the
    assertions, then its unions.  [None] stands for an assertion that
    fails. *)
Definition merge_candidates (pmesh : PM) (to_stitch : list halfedges_pair)
  : option (Uf_vertices * Uf_handles) :=
  foldl (λ uf hk,
           uf ← uf;
           if candidate_assertions pmesh hk then Some (join_pair pmesh uf hk)
           else None)
        (Some (∅, ∅)) to_stitch.

Abbreviation Halfedges_after_stitching :=
  (gmap (vertex_descriptor * vertex_descriptor) (list halfedge_descriptor)).

(** [halfedges_after_stitching[key].push_back(hd)]. *)
Definition push_back_at (key : vertex_descriptor * vertex_descriptor)
    (hd : halfedge_descriptor) (m : Halfedges_after_stitching)
  : Halfedges_after_stitching :=
  <[key := default [] (m !! key) ++ [hd]]> m.

(** The body of the loop over the halfedges around [vd]. *)
Definition report_halfedge (pmesh : PM) (uf_vertices : Uf_vertices)
    (uf_handles : Uf_handles) (vd tgt_handle : vertex_descriptor)
    (acc : Halfedges_after_stitching) (hd : halfedge_descriptor)
  : Halfedges_after_stitching :=
  let other_vd := source hd pmesh in
  match uf_handles !! other_vd with
  | Some it_res =>
      if other_vd <? vd then acc
      else
        let src_handle := Union_find.find it_res uf_vertices in
        push_back_at (make_sorted_pair tgt_handle src_handle) hd acc
  | None => push_back_at (make_sorted_pair tgt_handle other_vd) hd acc
  end.

Fixpoint collect_halfedges_after_stitching (pmesh : PM) (uf_vertices : Uf_vertices)
    (uf_handles : Uf_handles) (handles : list (vertex_descriptor * vertex_descriptor))
    (acc : Halfedges_after_stitching) : option Halfedges_after_stitching :=
  match handles with
  | [] => Some acc
  | (vd, hdl) :: handles' =>
      let tgt_handle := Union_find.find hdl uf_vertices in
      hds ← halfedges_around_target vd pmesh;
      collect_halfedges_after_stitching pmesh uf_vertices uf_handles handles'
        (foldl (report_halfedge pmesh uf_vertices uf_handles vd tgt_handle) acc hds)
  end.

Definition mark_unstitchable (pmesh : PM) (hds : list halfedge_descriptor)
    (unstitchable_vertices : gset vertex_descriptor) : gset vertex_descriptor :=
  foldl (λ s hd, {[target hd pmesh]} ∪ ({[source hd pmesh]} ∪ s))
        unstitchable_vertices hds.

(** The [switch] on the number of halfedges of one key. *)
Definition check_key (pmesh : PM) (unstitchable_vertices : gset vertex_descriptor)
    (hds : list halfedge_descriptor) : gset vertex_descriptor :=
  match length hds with
  | 1 => unstitchable_vertices
  | 2 =>
      if is_border_edge (default null_halfedge (head hds)) pmesh
         && is_border_edge (default null_halfedge (last hds)) pmesh
      then unstitchable_vertices
      else mark_unstitchable pmesh hds unstitchable_vertices
  | _ => mark_unstitchable pmesh hds unstitchable_vertices
  end.

Definition find_unstitchable_vertices (pmesh : PM)
    (halfedges_after_stitching : Halfedges_after_stitching) : gset vertex_descriptor :=
  foldl (check_key pmesh) ∅ ((map_to_list halfedges_after_stitching).*2).

Definition keep_pair (pmesh : PM) (unstitchable_vertices : gset vertex_descriptor)
    (hk : halfedges_pair) : bool :=
  bool_decide (source hk.1 pmesh ∉ unstitchable_vertices)
  && bool_decide (target hk.1 pmesh ∉ unstitchable_vertices)
  && bool_decide (source hk.2 pmesh ∉ unstitchable_vertices)
  && bool_decide (target hk.2 pmesh ∉ unstitchable_vertices).

Definition stitch_borders_impl (pmesh : PM) (to_stitch : list halfedges_pair)
  : option PM :=
  '(uf_vertices, uf_handles) ← merge_candidates pmesh to_stitch;
  halfedges_after_stitching ←
    collect_halfedges_after_stitching pmesh uf_vertices uf_handles
      (map_to_list uf_handles) ∅;
  let unstitchable_vertices :=
    find_unstitchable_vertices pmesh halfedges_after_stitching in
  if negb (bool_decide (unstitchable_vertices = ∅)) then
    let to_stitch_filtered :=
      filter (λ hk, keep_pair pmesh unstitchable_vertices hk = true) to_stitch in
    let '(uf_vertices, uf_handles) := merge_vertices pmesh to_stitch_filtered in
    run_stitch_borders pmesh to_stitch_filtered uf_vertices uf_handles
  else run_stitch_borders pmesh to_stitch uf_vertices uf_handles.

End internal.

Import internal.

(** ** The public entry points

    A call yields the value it returns together with the mesh it leaves;
    [None] stands for a call that does not return: a walk that does not
    come back to its start, or an assertion that fails.  A [void] function
    returns [tt]. *)

(** The scan for the starting points: [hn] from [next(h)] until [h]. *)
Fixpoint stitching_starting_points (fuel : nat) (h hn : halfedge_descriptor) (pm : PM)
    (vpm : vertex_descriptor → Point) : option (list halfedge_descriptor) :=
  match fuel with
  | O => None
  | S fuel' =>
      if decide (hn = h) then Some []
      else
        rest ← stitching_starting_points fuel' h (next hn pm) pm vpm;
        Some (if Point_eqb (vpm (source hn pm)) (vpm (target (next hn pm) pm))
                 && negb (Point_eqb (vpm (source hn pm)) (vpm (target hn pm)))
              then hn :: rest else rest)
  end.

(** The [do ... while (do_stitching)] walk from one starting point: the
    pairs to stitch and the halfedges marked as stitched. *)
Fixpoint collect_hedges_to_stitch (fuel : nat) (h hn : halfedge_descriptor) (pm : PM)
    (vpm : vertex_descriptor → Point) (hedges_to_stitch : list halfedges_pair)
    (stitched_hedges : gset halfedge_descriptor)
  : option (list halfedges_pair * gset halfedge_descriptor) :=
  match fuel with
  | O => None
  | S fuel' =>
      if decide (face (opposite h pm) pm = face (opposite hn pm) pm)
      then Some (hedges_to_stitch, stitched_hedges)
      else
        let hedges_to_stitch := hedges_to_stitch ++ [(h, hn)] in
        let stitched_hedges := {[hn]} ∪ ({[h]} ∪ stitched_hedges) in
        if decide (next hn pm = h) then Some (hedges_to_stitch, stitched_hedges)
        else
          let h := prev h pm in
          let hn := next hn pm in
          if negb (Point_eqb (vpm (source h pm)) (vpm (target hn pm)))
             || Point_eqb (vpm (source hn pm)) (vpm (target hn pm))
          then Some (hedges_to_stitch, stitched_hedges)
          else collect_hedges_to_stitch fuel' h hn pm vpm hedges_to_stitch stitched_hedges
  end.

(** The loop over the starting points. *)
Fixpoint stitch_starting_points (starting_points : list halfedge_descriptor)
    (stitched_hedges : gset halfedge_descriptor) (pm : PM)
    (vpm : vertex_descriptor → Point) (stitched_boundary_cycles_n : nat)
  : option (nat * PM) :=
  match starting_points with
  | [] => Some (stitched_boundary_cycles_n, pm)
  | h :: starting_points' =>
      if decide (h ∈ stitched_hedges)
      then stitch_starting_points starting_points' stitched_hedges pm vpm
             stitched_boundary_cycles_n
      else
        '(hedges_to_stitch, stitched_hedges) ←
          collect_hedges_to_stitch (walk_bound pm) h (next h pm) pm vpm [] stitched_hedges;
        if negb (bool_decide (hedges_to_stitch = [])) then
          pm ← stitch_borders_impl pm hedges_to_stitch;
          stitch_starting_points starting_points' stitched_hedges pm vpm
            (stitched_boundary_cycles_n + length hedges_to_stitch)
        else
          stitch_starting_points starting_points' stitched_hedges pm vpm
            stitched_boundary_cycles_n
  end.

Definition stitch_boundary_cycle (h : halfedge_descriptor) (pm : PM)
    (vpm : vertex_descriptor → Point) : option (nat * PM) :=
  starting_points ← stitching_starting_points (walk_bound pm) h (next h pm) pm vpm;
  stitch_starting_points starting_points ∅ pm vpm 0.

Fixpoint stitch_boundary_cycles_loop (boundary_cycles : list halfedge_descriptor)
    (pm : PM) (vpm : vertex_descriptor → Point) (stitched_boundary_cycles_n : nat)
  : option (nat * PM) :=
  match boundary_cycles with
  | [] => Some (stitched_boundary_cycles_n, pm)
  | h :: boundary_cycles' =>
      '(n, pm) ← stitch_boundary_cycle h pm vpm;
      stitch_boundary_cycles_loop boundary_cycles' pm vpm (stitched_boundary_cycles_n + n)
  end.

Definition stitch_boundary_cycles (pm : PM) (vpm : vertex_descriptor → Point)
  : option (nat * PM) :=
  boundary_cycles ← extract_boundary_cycles pm;
  stitch_boundary_cycles_loop boundary_cycles pm vpm 0.

(** [stitch_borders(pmesh, hedge_pairs_to_stitch)]. *)
Definition stitch_borders_pairs (pmesh : PM) (hedge_pairs_to_stitch : list halfedges_pair)
  : option (unit * PM) :=
  pmesh ← stitch_borders_impl pmesh hedge_pairs_to_stitch;
  Some (tt, pmesh).

(** [stitch_borders(pmesh, np)]: [vpm] and [per_cc] are the named
    parameters [vertex_point_map] and [apply_per_connected_component]. *)
Definition stitch_borders (pmesh : PM) (vpm : vertex_descriptor → Point) (per_cc : bool)
    (connected_components : PM → nat * (face_descriptor → nat)) : option (unit * PM) :=
  '(_, pmesh) ← stitch_boundary_cycles pmesh vpm;
  let hedge_pairs_to_stitch :=
    collect_duplicated_stitchable_boundary_edges pmesh vpm per_cc connected_components in
  '(_, pmesh) ← stitch_borders_pairs pmesh hedge_pairs_to_stitch;
  '(_, pmesh) ← stitch_boundary_cycles pmesh vpm;
  Some (tt, pmesh).

(** ** Notions used to state the properties *)

(** The orientation-independent key of a halfedge: the points of its two
    ends, smaller first. *)
Definition edge_key (pmesh : PM) (vpmap : vertex_descriptor → Point)
    (h : halfedge_descriptor) : Point * Point :=
  let s := vpmap (source h pmesh) in
  let t := vpmap (target h pmesh) in
  if Point_ltb s t then (s, t) else (t, s).

(** The border halfedges, in the order the collector meets them. *)
Definition border_halfedges (pmesh : PM) : list halfedge_descriptor :=
  filter (λ h, is_border h pmesh = true) (halfedges pmesh).

Definition directions_match (pmesh : PM) (vpmap : vertex_descriptor → Point)
    (h1 h2 : halfedge_descriptor) : Prop :=
  vpmap (source h2 pmesh) = vpmap (target h1 pmesh)
  ∧ vpmap (target h2 pmesh) = vpmap (source h1 pmesh).

(** The halfedges of [hs] that have the key of [h], in the order of [hs]. *)
Definition same_key_halfedges (pmesh : PM) (vpmap : vertex_descriptor → Point)
    (h : halfedge_descriptor) (hs : list halfedge_descriptor) : list halfedge_descriptor :=
  filter (λ h', edge_key pmesh vpmap h' = edge_key pmesh vpmap h) hs.

Definition dir_ok (pmesh : PM) (vpmap : vertex_descriptor → Point)
    (first_he he : halfedge_descriptor) : bool :=
  Point_eqb (vpmap (source he pmesh)) (vpmap (target first_he pmesh))
  && Point_eqb (vpmap (target he pmesh)) (vpmap (source first_he pmesh)).

(** The state of the collector after the border halfedges [bs]: every entry
    of the map stands for one key, holds the first halfedge of that key and
    the number of halfedges met with it; from the second halfedge on, its
    pair is recorded, flagged manifold as long as the directions match and
    no third halfedge came. *)
Definition collector_inv (pmesh : PM) (vpmap : vertex_descriptor → Point)
    (bs : list halfedge_descriptor) (st : Collected) : Prop :=
  let '(bm, ps, fs) := st in
  length fs = length ps
  ∧ (∀ i k mult id, bm !! i = Some (k, (mult, id)) →
       ∃ tl, same_key_halfedges pmesh vpmap k bs = k :: tl
             ∧ mult = S (length tl)
             ∧ ∀ h2 tl', tl = h2 :: tl' →
                 ps !! id = Some (k, h2)
                 ∧ fs !! id = Some (dir_ok pmesh vpmap k h2 && bool_decide (tl' = [])))
  ∧ (∀ h, h ∈ bs → ∃ i k v, bm !! i = Some (k, v)
                             ∧ edge_key pmesh vpmap k = edge_key pmesh vpmap h)
  ∧ (∀ i j k k' v v', bm !! i = Some (k, v) → bm !! j = Some (k', v') →
       edge_key pmesh vpmap k = edge_key pmesh vpmap k' → i = j)
  ∧ (∀ id p, ps !! id = Some p →
       ∃ i k mult, bm !! i = Some (k, (mult, id)) ∧ 2 ≤ mult)
  ∧ (∀ i j k k' m m' id, bm !! i = Some (k, (m, id)) → bm !! j = Some (k', (m', id)) →
       2 ≤ m → 2 ≤ m' → i = j).

(** The opposite of every halfedge of the mesh. *)
Definition opposites (g : PM) : gmap halfedge_descriptor halfedge_descriptor :=
  hd_opposite <$> pm_halfedges g.

(** The halfedges come in pairs of opposites, and the null halfedge is not
    one of them. *)
Definition opp_closed (o : gmap halfedge_descriptor halfedge_descriptor) : Prop :=
  o !! null_halfedge = None
  ∧ ∀ h h', o !! h = Some h' → h' ≠ h ∧ o !! h' = Some h.

Definition opp_closedb (o : gmap halfedge_descriptor halfedge_descriptor) : bool :=
  bool_decide (o !! null_halfedge = None)
  && forallb (λ hh, negb (hh.2 =? hh.1) && bool_decide (o !! hh.2 = Some hh.1))
       (map_to_list o).

Definition valid_opposites (g : PM) : Prop := opp_closed (opposites g).

Definition is_halfedge (h : halfedge_descriptor) (g : PM) : Prop :=
  is_Some (pm_halfedges g !! h).



(** Two meshes with the same halfedges, the same opposites and the same
    vertices. *)
Definition same_skeleton (g g' : PM) : Prop :=
  opposites g' = opposites g ∧ dom (pm_vertices g') = dom (pm_vertices g).

Definition edge_opp (o : gmap halfedge_descriptor halfedge_descriptor)
    (h : halfedge_descriptor) : halfedge_descriptor * halfedge_descriptor :=
  (Nat.min h (default null_halfedge (o !! h)), Nat.max h (default null_halfedge (o !! h))).

Definition remove_edge_opp (o : gmap halfedge_descriptor halfedge_descriptor)
    (h : halfedge_descriptor) : gmap halfedge_descriptor halfedge_descriptor :=
  delete (edge_opp o h).2 (delete (edge_opp o h).1 o).

(** The vertices the filter finds unstitchable for the candidates
    [to_stitch]. *)
Definition unsafe_vertices (pmesh : PM) (to_stitch : list halfedges_pair)
  : option (gset vertex_descriptor) :=
  '(uf_vertices, uf_handles) ← merge_candidates pmesh to_stitch;
  find_unstitchable_vertices pmesh <$>
    collect_halfedges_after_stitching pmesh uf_vertices uf_handles
      (map_to_list uf_handles) ∅.

Definition touches_unsafe (pmesh : PM) (unsafe : gset vertex_descriptor)
    (hk : halfedges_pair) : Prop :=
  source hk.1 pmesh ∈ unsafe ∨ target hk.1 pmesh ∈ unsafe
  ∨ source hk.2 pmesh ∈ unsafe ∨ target hk.2 pmesh ∈ unsafe.

Global Instance touches_unsafe_dec pmesh unsafe hk :
  Decision (touches_unsafe pmesh unsafe hk).
Proof. unfold touches_unsafe. apply _. Defined.

(** The candidates with no end among the unstitchable vertices. *)
Definition surviving_pairs (pmesh : PM) (to_stitch : list halfedges_pair)
  : option (list halfedges_pair) :=
  unsafe ← unsafe_vertices pmesh to_stitch;
  Some (filter (λ hk, ¬ touches_unsafe pmesh unsafe hk) to_stitch).

Definition deleted_vertices (pmesh : PM) (vertices_to_delete : list vertex_descriptor)
  : gset vertex_descriptor :=
  list_to_set vertices_to_delete ∩ dom (pm_vertices pmesh).

(** The halfedges [hs] are halfedges of the mesh, on pairwise distinct
    edges. *)
Definition distinct_live_edges (pmesh : PM) (hs : list halfedge_descriptor) : Prop :=
  Forall (λ h, is_halfedge h pmesh) hs ∧ NoDup ((λ h, edge h pmesh) <$> hs).

(** A key vetoes its halfedges: it has neither one halfedge nor two
    halfedges that both lie on border edges. *)
Definition key_is_unsafe (pmesh : PM) (hds : list halfedge_descriptor) : Prop :=
  length hds ≠ 1
  ∧ ¬ (length hds = 2 ∧ Forall (λ hd, is_border_edge hd pmesh = true) hds).

Definition marked_by (pmesh : PM) (hds : list halfedge_descriptor)
    (v : vertex_descriptor) : Prop :=
  key_is_unsafe pmesh hds
  ∧ ∃ hd, hd ∈ hds ∧ (v = source hd pmesh ∨ v = target hd pmesh).

(** The same with "both halfedges are border halfedges" in the place of
    "both halfedges lie on border edges". *)
Definition key_is_unsafe_border_halfedges (pmesh : PM) (hds : list halfedge_descriptor)
  : Prop :=
  length hds ≠ 1
  ∧ ¬ (length hds = 2 ∧ Forall (λ hd, is_border hd pmesh = true) hds).

Definition marked_by_border_halfedges (pmesh : PM) (hds : list halfedge_descriptor)
    (v : vertex_descriptor) : Prop :=
  key_is_unsafe_border_halfedges pmesh hds
  ∧ ∃ hd, hd ∈ hds ∧ (v = source hd pmesh ∨ v = target hd pmesh).

(** The fold condition of the scan of [stitch_boundary_cycle]. *)
Definition is_fold_point (hn : halfedge_descriptor) (pm : PM)
    (vpm : vertex_descriptor → Point) : Prop :=
  vpm (source hn pm) = vpm (target (next hn pm) pm)
  ∧ vpm (source hn pm) ≠ vpm (target hn pm).

(** ** Example meshes *)

(** A triangle [(a, b, c)] alone: the halfedges [B], [B+2], [B+4] around the
    face [f] and their opposites [B+1], [B+3], [B+5] on the border. *)
Definition triangle (B f a b c : nat)
  : list (nat * Halfedge) * list (nat * nat) * list (nat * nat) :=
  ([ (B, mkHalfedge b (B+1) (B+2) (B+4) (Some f));
     (B+2, mkHalfedge c (B+3) (B+4) B (Some f));
     (B+4, mkHalfedge a (B+5) B (B+2) (Some f));
     (B+1, mkHalfedge a B (B+5) (B+3) None);
     (B+5, mkHalfedge c (B+4) (B+3) (B+1) None);
     (B+3, mkHalfedge b (B+2) (B+1) (B+5) None) ],
   [ (a, B+1); (b, B+3); (c, B+5) ],
   [ (f, B) ]).

Definition mesh_of
    (parts : list (list (nat * Halfedge) * list (nat * nat) * list (nat * nat))) : PM :=
  mkPM (list_to_map (mjoin (parts.*1.*1)))
       (list_to_map (mjoin (parts.*1.*2)))
       (list_to_map (mjoin (parts.*2))).

Definition no_components : PM → nat * (face_descriptor → nat) := λ _, (0, λ _, 0).

Definition one_triangle : PM := mesh_of [triangle 1 1 1 2 3].

(** Two triangles with one duplicated edge: the border halfedges [2]
    (from vertex 2 to vertex 1) and [8] (from vertex 4 to vertex 5) lie on
    the same two points, in opposite directions. *)
Definition two_triangles : PM := mesh_of [triangle 1 1 1 2 3; triangle 7 2 5 4 6].

Definition two_triangles_points (v : vertex_descriptor) : Point :=
  match v with
  | 1 | 4 => (0, 0, 0)%Z
  | 2 | 5 => (1, 0, 0)%Z
  | 3 => (0, 1, 0)%Z
  | _ => (0, -1, 0)%Z
  end.

(** Four triangles, each with one edge on the same two points: the
    triangles 1 and 2 lie on each other with opposite orientations. *)
Definition four_triangles : PM :=
  mesh_of [triangle 1 1 3 2 1; triangle 7 2 4 5 6;
           triangle 13 3 8 7 9; triangle 19 4 10 11 12].

Definition four_triangles_points (v : vertex_descriptor) : Point :=
  match v with
  | 1 | 4 | 7 | 10 => (0, 0, 0)%Z
  | 2 | 5 | 8 | 11 => (1, 0, 0)%Z
  | 3 | 6 => (0, 1, 0)%Z
  | 9 => (0, 0, 1)%Z
  | _ => (0, 0, 2)%Z
  end.

(** Three triangles around the vertex 2, open between the vertices 1 and 5,
    which lie on the same point: the boundary cycle is 2, 14, 12, 8, 4 and
    its only fold is at the halfedge 2. *)
Definition fan : PM :=
  mkPM
    (list_to_map
       [ (1, mkHalfedge 1 2 3 5 (Some 1));
         (2, mkHalfedge 2 1 14 4 None);
         (3, mkHalfedge 3 4 5 1 (Some 1));
         (4, mkHalfedge 1 3 2 8 None);
         (5, mkHalfedge 2 6 1 3 (Some 1));
         (6, mkHalfedge 3 5 7 9 (Some 3));
         (7, mkHalfedge 4 8 9 6 (Some 3));
         (8, mkHalfedge 3 7 4 12 None);
         (9, mkHalfedge 2 10 6 7 (Some 3));
         (10, mkHalfedge 4 9 11 13 (Some 2));
         (11, mkHalfedge 5 12 13 10 (Some 2));
         (12, mkHalfedge 4 11 8 14 None);
         (13, mkHalfedge 2 14 10 11 (Some 2));
         (14, mkHalfedge 5 13 12 2 None) ])
    (list_to_map [ (1, 4); (2, 2); (3, 8); (4, 12); (5, 14) ])
    (list_to_map [ (1, 1); (2, 10); (3, 6) ]).

Definition fan_points (v : vertex_descriptor) : Point :=
  match v with
  | 1 | 5 => (0, 0, 0)%Z
  | 2 => (0, 0, 1)%Z
  | 3 => (1, 0, 0)%Z
  | _ => (0, 1, 0)%Z
  end.

(** The mesh [stitch_borders] leaves of the two triangles: one pair
    stitched, no border halfedge left to stitch. *)
Definition two_triangles_stitched : PM :=
  Eval vm_compute in
    from_option snd two_triangles
      (stitch_borders two_triangles two_triangles_points false no_components).

(** The keys and their halfedges that the filter collects for the pair
    [(2, 8)] of the two triangles. *)
Definition two_triangles_keys : option Halfedges_after_stitching :=
  collect_halfedges_after_stitching two_triangles
    (merge_vertices two_triangles [(2, 8)]).1 (merge_vertices two_triangles [(2, 8)]).2
    (map_to_list (merge_vertices two_triangles [(2, 8)]).2) ∅.

(** ** Further notions *)

(** The border halfedges of the component [i], in the order they are met:
    the list [border_edges_per_cc[i]]. *)
Definition border_halfedges_of_cc (pmesh : PM) (num_component : nat)
    (cc : face_descriptor → nat) (i : nat) : list halfedge_descriptor :=
  filter (λ h, cc_of_border num_component cc h pmesh = i) (border_halfedges pmesh).

(** No edge has two border halfedges: the opposite of a border halfedge has
    a face. *)
Definition border_opposites_have_faces (pmesh : PM) : Prop :=
  Forall (λ h, is_border h pmesh && is_border (opposite h pmesh) pmesh = false)
         (halfedges pmesh).

(** One step of the walk around a target vertex. *)
Definition fan_step (x : halfedge_descriptor) (g : PM) : halfedge_descriptor :=
  opposite (next x g) g.

(** The step around the target permutes the halfedges of the mesh: it
    leads from a halfedge of the mesh to a halfedge of the mesh, and to
    different ones from different ones. *)
Definition fans_closed (g : PM) : Prop :=
  Forall (λ x, is_halfedge (fan_step x g) g) (halfedges g)
  ∧ NoDup ((λ x, fan_step x g) <$> halfedges g).

(** The record of a halfedge with the target [v]. *)
Definition with_target (v : vertex_descriptor) (r : Halfedge) : Halfedge :=
  mkHalfedge v (hd_opposite r) (hd_next r) (hd_prev r) (hd_face r).

(** The mesh [g'] has the faces of [g], and no halfedge and no vertex that
    [g] has not. *)
Definition shrinks (g g' : PM) : Prop :=
  dom (pm_faces g') = dom (pm_faces g)
  ∧ dom (pm_halfedges g') ⊆ dom (pm_halfedges g)
  ∧ dom (pm_vertices g') ⊆ dom (pm_vertices g).

(** Two triangles [(1, 2, 3)] and [(4, 1, 3)] that share the edge of the
    vertices 1 and 3, the vertices 2 and 4 on the same point: the boundary
    cycle 4, 2, 8, 10 folds onto itself, from the vertex 1 to the vertex
    3. *)
Definition open_book : PM :=
  mkPM
    (list_to_map
       [ (1, mkHalfedge 2 2 3 5 (Some 1));
         (2, mkHalfedge 1 1 8 4 None);
         (3, mkHalfedge 3 4 5 1 (Some 1));
         (4, mkHalfedge 2 3 2 10 None);
         (5, mkHalfedge 1 6 1 3 (Some 1));
         (6, mkHalfedge 3 5 9 7 (Some 2));
         (7, mkHalfedge 1 8 6 9 (Some 2));
         (8, mkHalfedge 4 7 10 2 None);
         (9, mkHalfedge 4 10 7 6 (Some 2));
         (10, mkHalfedge 3 9 4 8 None) ])
    (list_to_map [ (1, 2); (2, 4); (3, 10); (4, 8) ])
    (list_to_map [ (1, 1); (2, 6) ]).

Definition open_book_points (v : vertex_descriptor) : Point :=
  match v with
  | 1 => (0, 0, 0)%Z
  | 2 | 4 => (1, 0, 0)%Z
  | _ => (0, 1, 0)%Z
  end.

(** The union-find and its handles go together: the handle of a vertex is
    the vertex, every vertex with a handle is in the union-find, and the
    representative of a vertex is its own representative. *)
Definition uf_wf (uf_vertices : Uf_vertices) (uf_handles : Uf_handles) : Prop :=
  (∀ v hd, uf_handles !! v = Some hd → hd = v)
  ∧ dom uf_handles = dom uf_vertices
  ∧ ∀ x r, uf_vertices !! x = Some r → uf_vertices !! r = Some r.

(** Two vertices with handles and the same representative. *)
Definition uf_joined (uf_vertices : Uf_vertices) (a b : vertex_descriptor) : Prop :=
  a ∈ dom uf_vertices ∧ b ∈ dom uf_vertices
  ∧ Union_find.find a uf_vertices = Union_find.find b uf_vertices.

(** The four end vertices of the pairs. *)
Definition pair_vertices (pmesh : PM) (to_stitch : list halfedges_pair)
  : gset vertex_descriptor :=
  list_to_set (to_stitch ≫= λ hk, [target hk.1 pmesh; source hk.2 pmesh;
                                    source hk.1 pmesh; target hk.2 pmesh]).

(** The lexicographic order of the points, as a proposition. *)
Definition Point_lt (p q : Point) : Prop :=
  (p.1.1 < q.1.1
   ∨ (p.1.1 = q.1.1 ∧ (p.1.2 < q.1.2 ∨ (p.1.2 = q.1.2 ∧ p.2 < q.2))))%Z.

(** The step around the target, halfedge by halfedge: it keeps to the
    halfedges of the mesh and leads to different ones from different
    ones. *)
Definition fan_perm (g : PM) : Prop :=
  (∀ x, is_halfedge x g → is_halfedge (fan_step x g) g)
  ∧ ∀ x y, is_halfedge x g → is_halfedge y g → fan_step x g = fan_step y g → x = y.

(** Two meshes with the same halfedges, the same [next] and the same
    [opposite]. *)
Definition same_links (g g' : PM) : Prop :=
  dom (pm_halfedges g') = dom (pm_halfedges g)
  ∧ ∀ x, next x g' = next x g ∧ opposite x g' = opposite x g.

(** The two halfedges of the pair and their opposites are halfedges of the
    mesh. *)
Definition live_pair (g : PM) (hk : halfedges_pair) : Prop :=
  is_halfedge hk.1 g ∧ is_halfedge hk.2 g
  ∧ is_halfedge (opposite hk.1 g) g ∧ is_halfedge (opposite hk.2 g) g.

(** The index into [border_edges_per_cc] is in range: the opposite of every
    border halfedge has a face, and the component of that face is below
    the number of components. *)
Definition components_in_range (pmesh : PM) (num_component : nat)
    (cc : face_descriptor → nat) : Prop :=
  Forall (λ h, ∃ f, face (opposite h pmesh) pmesh = Some f ∧ cc f < num_component)
         (border_halfedges pmesh).

(** The face of every halfedge of the mesh. *)
Definition faces_of (g : PM) : gmap halfedge_descriptor (option face_descriptor) :=
  hd_face <$> pm_halfedges g.

(** The halfedges that the closing of the seams touches: the two halfedges
    of every pair and the opposite of the second one. *)
Definition seam_halfedges (g : PM) (to_stitch : list halfedges_pair)
  : list halfedge_descriptor :=
  to_stitch ≫= λ hk, [hk.1; hk.2; opposite hk.2 g].

(** ** The pairs stitched and the vertices deleted by a call

    What a stitching call has done, beside the mesh it leaves: the pairs
    that its calls of the engine have stitched, in order, and the vertices
    of the mesh that they have deleted. *)
Definition Stitch_log : Type := list halfedges_pair * gset vertex_descriptor.

Definition log_app (l1 l2 : Stitch_log) : Stitch_log := (l1.1 ++ l2.1, l1.2 ∪ l2.2).

(** One call of [stitch_borders_impl]: the candidates that pass the filter,
    and the vertices of the mesh among [vertices_to_delete]. *)
Definition stitch_borders_impl_log (pmesh : PM) (to_stitch : list halfedges_pair)
  : option Stitch_log :=
  stitched ← surviving_pairs pmesh to_stitch;
  st ← update_vertex_pointers_loop stitched
         (mkSurgery pmesh (merge_vertices pmesh stitched).1
            (merge_vertices pmesh stitched).2 []);
  Some (stitched, deleted_vertices pmesh (sg_vertices_to_delete st)).

(** The calls of the engine in the loop over the starting points of
    [stitch_boundary_cycle], each on the mesh the one before has left. *)
Fixpoint stitch_starting_points_log (starting_points : list halfedge_descriptor)
    (stitched_hedges : gset halfedge_descriptor) (pm : PM)
    (vpm : vertex_descriptor → Point) : option Stitch_log :=
  match starting_points with
  | [] => Some ([], ∅)
  | h :: starting_points' =>
      if decide (h ∈ stitched_hedges)
      then stitch_starting_points_log starting_points' stitched_hedges pm vpm
      else
        '(hedges_to_stitch, stitched_hedges) ←
          collect_hedges_to_stitch (walk_bound pm) h (next h pm) pm vpm [] stitched_hedges;
        if negb (bool_decide (hedges_to_stitch = [])) then
          l1 ← stitch_borders_impl_log pm hedges_to_stitch;
          pm ← stitch_borders_impl pm hedges_to_stitch;
          l2 ← stitch_starting_points_log starting_points' stitched_hedges pm vpm;
          Some (log_app l1 l2)
        else stitch_starting_points_log starting_points' stitched_hedges pm vpm
  end.

Definition stitch_boundary_cycle_log (h : halfedge_descriptor) (pm : PM)
    (vpm : vertex_descriptor → Point) : option Stitch_log :=
  starting_points ← stitching_starting_points (walk_bound pm) h (next h pm) pm vpm;
  stitch_starting_points_log starting_points ∅ pm vpm.

Fixpoint stitch_boundary_cycles_loop_log (boundary_cycles : list halfedge_descriptor)
    (pm : PM) (vpm : vertex_descriptor → Point) : option Stitch_log :=
  match boundary_cycles with
  | [] => Some ([], ∅)
  | h :: boundary_cycles' =>
      l1 ← stitch_boundary_cycle_log h pm vpm;
      '(_, pm) ← stitch_boundary_cycle h pm vpm;
      l2 ← stitch_boundary_cycles_loop_log boundary_cycles' pm vpm;
      Some (log_app l1 l2)
  end.

Definition stitch_boundary_cycles_log (pm : PM) (vpm : vertex_descriptor → Point)
  : option Stitch_log :=
  boundary_cycles ← extract_boundary_cycles pm;
  stitch_boundary_cycles_loop_log boundary_cycles pm vpm.

Definition stitch_borders_log (pmesh : PM) (vpm : vertex_descriptor → Point)
    (per_cc : bool) (connected_components : PM → nat * (face_descriptor → nat))
  : option Stitch_log :=
  l1 ← stitch_boundary_cycles_log pmesh vpm;
  '(_, pmesh) ← stitch_boundary_cycles pmesh vpm;
  let hedge_pairs_to_stitch :=
    collect_duplicated_stitchable_boundary_edges pmesh vpm per_cc connected_components in
  l2 ← stitch_borders_impl_log pmesh hedge_pairs_to_stitch;
  '(_, pmesh) ← stitch_borders_pairs pmesh hedge_pairs_to_stitch;
  l3 ← stitch_boundary_cycles_log pmesh vpm;
  Some (log_app l1 (log_app l2 l3)).

(** The mesh [g'] is the mesh [g] after the stitching of the pairs of
    [log] and the deletion of its vertices: the edges of the second
    halfedges are removed, which were halfedges of [g], no one the opposite
    of another; with no pair, nothing has changed. *)
Definition stitching_effect (g g' : PM) (log : Stitch_log) : Prop :=
  opposites g' = foldl remove_edge_opp (opposites g) log.1.*2
  ∧ dom (pm_vertices g') = dom (pm_vertices g) ∖ log.2
  ∧ log.2 ⊆ dom (pm_vertices g)
  ∧ Forall (λ hk, is_halfedge hk.2 g) log.1
  ∧ (∀ hk hk', hk ∈ log.1 → hk' ∈ log.1 → opposites g !! hk.2 ≠ Some hk'.2)
  ∧ (log.1 = [] → g' = g).

(** Count conservation for a call that leaves [g'] of [g], with the pairs
    stitched and the vertices deleted of [log]: the halfedges left are those
    of [g] but the second halfedge of every stitched pair and its opposite;
    the number of halfedges has dropped by two for every second halfedge of
    a stitched pair, that is by twice the number of stitched pairs when no
    second halfedge is listed twice; the number of vertices has dropped by
    the number of deleted vertices. *)
Definition conserved (g g' : PM) (log : Stitch_log) : Prop :=
  (∀ h, is_halfedge h g' ↔
        is_halfedge h g ∧ ∀ hk, hk ∈ log.1 → h ≠ hk.2 ∧ h ≠ opposite hk.2 g)
  ∧ num_halfedges g' + 2 * size (list_to_set log.1.*2 : gset halfedge_descriptor)
    = num_halfedges g
  ∧ (NoDup log.1.*2 → num_halfedges g' + 2 * length log.1 = num_halfedges g)
  ∧ num_vertices g' + size log.2 = num_vertices g.

(** ** Edges as pairs of vertices *)

(** The halfedges that join the vertices [a] and [b], in either
    direction. *)
Definition halfedges_between (g : PM) (a b : vertex_descriptor)
  : list halfedge_descriptor :=
  filter (λ x, (source x g = a ∧ target x g = b) ∨ (source x g = b ∧ target x g = a))
         (halfedges g).

(** No two vertices are joined by more than two halfedges: no edge is there
    more than once. *)
Definition vertex_pair_manifold (g : PM) : Prop :=
  ∀ h, is_halfedge h g →
       length (halfedges_between g (source h g) (target h g)) ≤ 2.

(** The walk around the target from any halfedge [x] of the mesh, when it
    comes back, has met the halfedges of the mesh that have the target of
    [x], and no other one. *)
Definition target_fans (g : PM) : Prop :=
  ∀ x fan, is_halfedge x g →
    halfedges_around_target_from (walk_bound g) x x g = Some fan →
    ∀ y, y ∈ fan ↔ is_halfedge y g ∧ target y g = target x g.

(** The reference halfedge of the target of a halfedge of the mesh is a
    halfedge of the mesh with this target. *)
Definition vertex_refs (g : PM) : Prop :=
  ∀ x, is_halfedge x g →
    is_halfedge (halfedge (target x g) g) g
    ∧ target (halfedge (target x g) g) g = target x g.

(** * Properties *)

(** ** The border pair collector *)

Lemma Point_ltb_irrefl p : Point_ltb p p = false.
Proof. destruct p as [[x y] z]. unfold Point_ltb. 
  rewrite !Z.ltb_irrefl, !Z.eqb_refl. reflexivity. Qed.

Lemma Point_ltb_total p q : Point_ltb p q = false → Point_ltb q p = false → p = q.
Proof.
  destruct p as [[x y] z], q as [[x' y'] z']. unfold Point_ltb.
  intros H1 H2.
  destruct (Z.ltb_spec x x'), (Z.ltb_spec x' x), (Z.eqb_spec x x'), (Z.eqb_spec x' x),
    (Z.ltb_spec y y'), (Z.ltb_spec y' y), (Z.eqb_spec y y'), (Z.eqb_spec y' y),
    (Z.ltb_spec z z'), (Z.ltb_spec z' z); simpl in *; try discriminate; try lia.
  f_equal; [f_equal|]; lia.
Qed.

Lemma pair_ltb_equiv a b :
  key_equiv pair_ltb a b = true ↔ a = b.
Proof.
  unfold key_equiv, pair_ltb. destruct a as [a1 a2], b as [b1 b2]. simpl. split.
  - intros [H1 H2]%andb_true_iff.
    apply negb_true_iff in H1, H2.
    apply orb_false_iff in H1 as [H1 H1'], H2 as [H2 H2'].
    assert (a1 = b1) as -> by (by apply Point_ltb_total).
    rewrite Point_ltb_irrefl in H1', H2'. simpl in *.
    f_equal. by apply Point_ltb_total.
  - intros [= -> ->]. rewrite !Point_ltb_irrefl. reflexivity.
Qed.

Lemma Less_for_halfedge_equiv pmesh vpmap h1 h2 :
  key_equiv (Less_for_halfedge pmesh vpmap) h1 h2 = true ↔
  edge_key pmesh vpmap h1 = edge_key pmesh vpmap h2.
Proof. apply (pair_ltb_equiv (edge_key pmesh vpmap h1) (edge_key pmesh vpmap h2)). Qed.

Section collector.
Context (pmesh : PM) (vpmap : vertex_descriptor → Point).
Local Abbreviation key := (edge_key pmesh vpmap).
Local Abbreviation less := (Less_for_halfedge pmesh vpmap).
Local Abbreviation occ := (same_key_halfedges pmesh vpmap).

Lemma map_position_Some {V} (bm : list (halfedge_descriptor * V)) he i :
  map_position less he bm = Some i →
  ∃ k v, bm !! i = Some (k, v) ∧ key k = key he.
Proof.
  revert i. induction bm as [|[k v] bm IH]; intros i; simpl; [done|].
  destruct (key_equiv less k he) eqn:E.
  - intros [= <-]. exists k, v. split; [done|]. by apply Less_for_halfedge_equiv.
  - destruct (map_position less he bm) as [j|]; [|done].
    intros [= <-]. simpl. by apply IH.
Qed.

Lemma map_position_None {V} (bm : list (halfedge_descriptor * V)) he :
  map_position less he bm = None →
  ∀ i k v, bm !! i = Some (k, v) → key k ≠ key he.
Proof.
  induction bm as [|[k v] bm IH]; simpl; [intros _ i ??; by rewrite lookup_nil|].
  destruct (key_equiv less k he) eqn:E; [done|].
  destruct (map_position less he bm) as [j|] eqn:Ej; [done|].
  intros _ [|i] k' v'; simpl.
  - intros [= <- <-] Hk. apply Less_for_halfedge_equiv in Hk. congruence.
  - by apply IH.
Qed.

Lemma occ_app k bs he :
  occ k (bs ++ [he]) = occ k bs ++ (if decide (key he = key k) then [he] else []).
Proof.
  unfold same_key_halfedges. rewrite filter_app. f_equal.
Qed.

Lemma occ_same_key k k' bs : key k = key k' → occ k bs = occ k' bs.
Proof. unfold same_key_halfedges. by intros ->. Qed.

Lemma collector_inv_nil : collector_inv pmesh vpmap [] ([], [], []).
Proof.
  repeat split; try (intros; exfalso; simplify_list_eq; done).
  intros h Hh. by apply elem_of_nil in Hh.
Qed.

Lemma collector_inv_step bs st he :
  collector_inv pmesh vpmap bs st →
  collector_inv pmesh vpmap (bs ++ [he]) (fill_pairs he st less vpmap pmesh).
Proof.
  destruct st as [[bm ps] fs]. intros (Hlen & Hent & Hcov & Hinj & Hps & Hid).
  unfold fill_pairs, map_insert.
  destruct (map_position less he bm) as [i|] eqn:Hpos; simpl.
  - destruct (map_position_Some _ _ _ Hpos) as (k & [mult id] & Hi & Hk).
    rewrite Hi.
    destruct (Hent _ _ _ _ Hi) as (tl & Hocc & Hmult & Htl).
    assert (Hilt : i < length bm) by (by eapply lookup_lt_Some).
    assert (Hother : ∀ j k' v', j ≠ i → bm !! j = Some (k', v') → key he ≠ key k').
    { intros j k' v' Hji Hj Hkk. apply Hji. eapply Hinj; [done..|congruence]. }
    destruct (mult =? 1) eqn:E2; [|destruct (2 <? S mult) eqn:E3].
    + (* the second halfedge of the key *)
      apply Nat.eqb_eq in E2. destruct tl as [|? ?]; simpl in Hmult; [|lia].
      repeat split.
      * rewrite !length_app. simpl. lia.
      * intros j k' m' id' Hj.
        apply list_lookup_insert_Some in Hj as [(<- & [= <- <- <-] & _)|[Hji Hj]].
        -- exists [he]. rewrite occ_app, Hocc, decide_True by done.
           split; [done|]. split; [simpl; lia|]. intros h2 tl' [= <- <-]. split.
           ++ by apply list_lookup_middle.
           ++ rewrite list_lookup_middle by done.
              by rewrite bool_decide_eq_true_2, andb_true_r.
        -- destruct (Hent _ _ _ _ Hj) as (tl2 & Hocc2 & Hm2 & Htl2).
           exists tl2. rewrite occ_app, decide_False, app_nil_r by eauto.
           split; [done|]. split; [done|]. intros h2 tl' ->.
           destruct (Htl2 _ _ eq_refl) as [Hp Hf].
           split; by apply lookup_app_l_Some.
      * intros h [Hh| ->%list_elem_of_singleton]%elem_of_app.
        -- destruct (Hcov _ Hh) as (j & k' & v' & Hj & Hkk).
           destruct (decide (j = i)) as [->|Hji].
           ++ exists i, k, (S mult, length ps). split; [by apply list_lookup_insert_eq|].
              congruence.
           ++ exists j, k', v'. by rewrite list_lookup_insert_ne.
        -- exists i, k, (S mult, length ps). split; [by apply list_lookup_insert_eq|done].
      * intros j1 j2 k1 k2 v1 v2 H1 H2 Hkk.
        apply list_lookup_insert_Some in H1 as [(<- & Eq1 & _)|[Hj1 H1]];
        apply list_lookup_insert_Some in H2 as [(<- & Eq2 & _)|[Hj2 H2]];
          simplify_eq; try done.
        -- eapply Hinj; eauto.
        -- eapply Hinj; eauto.
        -- eapply Hinj; eauto.
      * intros id' p [[Hlt Hp]|[-> <-]]%lookup_snoc_Some.
        -- destruct (Hps _ _ Hp) as (j & k' & m' & Hj & Hm').
           destruct (decide (j = i)) as [->|Hji]; [simplify_eq; lia|].
           exists j, k', m'. by rewrite list_lookup_insert_ne.
        -- exists i, k, (S mult). split; [by apply list_lookup_insert_eq|lia].
      * intros j1 j2 k1 k2 m1 m2 id' H1 H2 Hm1 Hm2.
        assert (Hfresh : ∀ j k' m', bm !! j = Some (k', (m', length ps)) → 2 ≤ m' → False).
        { intros j k' m' Hj Hm'. destruct (Hent _ _ _ _ Hj) as (tl2 & _ & Hm2' & Htl2).
          destruct tl2 as [|h2 tl2]; simpl in *; [lia|].
          destruct (Htl2 _ _ eq_refl) as [Hp _]. apply lookup_lt_Some in Hp.
          by apply Nat.lt_irrefl in Hp. }
        apply list_lookup_insert_Some in H1 as [(<- & Eq1 & _)|[Hj1 H1]];
        apply list_lookup_insert_Some in H2 as [(<- & Eq2 & _)|[Hj2 H2]];
          simplify_eq; try done.
        -- exfalso; eauto.
        -- exfalso; eauto.
        -- eapply Hid; eauto.
    + (* a third or later halfedge of the key *)
      apply Nat.ltb_lt in E3. destruct tl as [|h2 tl]; simpl in Hmult; [lia|].
      destruct (Htl _ _ eq_refl) as [Hp Hf].
      repeat split.
      * by rewrite length_insert.
      * intros j k' m' id' Hj.
        apply list_lookup_insert_Some in Hj as [(<- & [= <- <- <-] & _)|[Hji Hj]].
        -- exists (h2 :: tl ++ [he]). rewrite occ_app, Hocc, decide_True by done.
           split; [done|]. split; [simpl; rewrite length_app; simpl; lia|].
           intros h2' tl' [= <- <-]. split; [done|].
           rewrite list_lookup_insert_eq by (by eapply lookup_lt_Some).
           rewrite (bool_decide_eq_false_2 (tl ++ [he] = [])), andb_false_r; [done|].
           by destruct tl.
        -- destruct (Hent _ _ _ _ Hj) as (tl2 & Hocc2 & Hm2 & Htl2).
           exists tl2. rewrite occ_app, decide_False, app_nil_r by eauto.
           split; [done|]. split; [done|]. intros h2' tl' ->.
           destruct (Htl2 _ _ eq_refl) as [Hp' Hf'].
           split; [done|]. rewrite list_lookup_insert_ne; [done|].
           intros <-. apply Hji. eapply (Hid i j); eauto; simpl in *; lia.
      * intros h [Hh| ->%list_elem_of_singleton]%elem_of_app.
        -- destruct (Hcov _ Hh) as (j & k' & v' & Hj & Hkk).
           destruct (decide (j = i)) as [->|Hji].
           ++ exists i, k, (S mult, id). split; [by apply list_lookup_insert_eq|].
              congruence.
           ++ exists j, k', v'. by rewrite list_lookup_insert_ne.
        -- exists i, k, (S mult, id). split; [by apply list_lookup_insert_eq|done].
      * intros j1 j2 k1 k2 v1 v2 H1 H2 Hkk.
        apply list_lookup_insert_Some in H1 as [(<- & Eq1 & _)|[Hj1 H1]];
        apply list_lookup_insert_Some in H2 as [(<- & Eq2 & _)|[Hj2 H2]];
          simplify_eq; try done.
        -- eapply Hinj; eauto.
        -- eapply Hinj; eauto.
        -- eapply Hinj; eauto.
      * intros id' p Hp'.
        destruct (Hps _ _ Hp') as (j & k' & m' & Hj & Hm').
        destruct (decide (j = i)) as [->|Hji].
        -- simplify_eq. exists i, k, (S (S (S (length tl)))).
           split; [by apply list_lookup_insert_eq|lia].
        -- exists j, k', m'. by rewrite list_lookup_insert_ne.
      * intros j1 j2 k1 k2 m1 m2 id' H1 H2 Hm1 Hm2.
        apply list_lookup_insert_Some in H1 as [(<- & Eq1 & _)|[Hj1 H1]];
        apply list_lookup_insert_Some in H2 as [(<- & Eq2 & _)|[Hj2 H2]];
          simplify_eq; try done.
        -- eapply (Hid i j2); eauto; simpl in *; lia.
        -- eapply (Hid j1 i); eauto; simpl in *; lia.
        -- eapply Hid; eauto.
    + apply Nat.eqb_neq in E2. apply Nat.ltb_ge in E3. lia.
  - (* the first halfedge of the key *)
    pose proof (map_position_None _ _ Hpos) as Hnone.
    repeat split.
    * done.
    * intros j k' m' id' [[Hlt Hj]|[-> [= <- <- <-]]]%lookup_snoc_Some.
      -- destruct (Hent _ _ _ _ Hj) as (tl2 & Hocc2 & Hm2 & Htl2).
         exists tl2. rewrite occ_app, decide_False, app_nil_r; [done|].
         intros Hkk. by eapply Hnone.
      -- exists []. rewrite occ_app, decide_True by done.
         assert (same_key_halfedges pmesh vpmap he bs = []) as ->.
         { unfold same_key_halfedges.
           destruct (filter _ bs) as [|h l] eqn:Hfl; [done|].
           assert (Hh : h ∈ filter (λ h', key h' = key he) bs)
             by (rewrite Hfl; left).
           apply list_elem_of_filter in Hh as [Hkk Hh].
           destruct (Hcov _ Hh) as (j & k' & v' & Hj & Hkk').
           exfalso. eapply Hnone; [done|]. congruence. }
         split; [done|]. split; [done|]. intros ?? [=].
    * intros h [Hh| ->%list_elem_of_singleton]%elem_of_app.
      -- destruct (Hcov _ Hh) as (j & k' & v' & Hj & Hkk).
         exists j, k', v'. split; [by apply lookup_app_l_Some|done].
      -- exists (length bm), he, (1, 0). split; [by apply list_lookup_middle|done].
    * intros j1 j2 k1 k2 v1 v2
        [[Hl1 H1]|[-> [= <- <-]]]%lookup_snoc_Some
        [[Hl2 H2]|[-> [= <- <-]]]%lookup_snoc_Some Hkk; try done.
      -- eapply Hinj; eauto.
      -- exfalso. by eapply Hnone.
      -- exfalso. by eapply Hnone.
    * intros id' p Hp'. destruct (Hps _ _ Hp') as (j & k' & m' & Hj & Hm').
      exists j, k', m'. split; [by apply lookup_app_l_Some|done].
    * intros j1 j2 k1 k2 m1 m2 id'
        [[Hl1 H1]|[-> Eq1]]%lookup_snoc_Some
        [[Hl2 H2]|[-> Eq2]]%lookup_snoc_Some Hm1 Hm2; simplify_eq; try lia.
      eapply Hid; eauto.
Qed.
End collector.

Section collector_result.
Context (pmesh : PM) (vpmap : vertex_descriptor → Point).
Local Abbreviation less := (Less_for_halfedge pmesh vpmap).

Lemma collector_inv_foldl bs st bs0 :
  collector_inv pmesh vpmap bs0 st →
  collector_inv pmesh vpmap (bs0 ++ bs)
    (foldl (λ st he, fill_pairs he st less vpmap pmesh) st bs).
Proof.
  revert st bs0. induction bs as [|he bs IH]; intros st bs0 Hinv; simpl.
  - by rewrite app_nil_r.
  - replace (bs0 ++ he :: bs) with ((bs0 ++ [he]) ++ bs)
      by (by rewrite <-app_assoc).
    apply IH.
    by apply collector_inv_step.
Qed.

Lemma foldl_skip_non_border {A} (f : A → halfedge_descriptor → A) st hs :
  foldl (λ st he, if negb (is_border he pmesh) then st else f st he) st hs
  = foldl f st (filter (λ h, is_border h pmesh = true) hs).
Proof.
  revert st. induction hs as [|h hs IH]; intros st; simpl; [done|].
  rewrite filter_cons. destruct (is_border h pmesh) eqn:E; simpl; apply IH.
Qed.

Lemma elem_of_put_manifold_pairs ps fs p :
  p ∈ put_manifold_pairs ps fs ↔ ∃ id, ps !! id = Some p ∧ fs !! id = Some true.
Proof.
  unfold put_manifold_pairs. rewrite list_elem_of_omap. split.
  - intros (id & _ & Hid). exists id.
    destruct (fs !! id) as [[]|], (ps !! id) as [p'|]; by simplify_eq.
  - intros (id & Hp & Hf). exists id. rewrite Hp, Hf. split; [|done].
    apply elem_of_seq. apply lookup_lt_Some in Hp. lia.
Qed.

Lemma dir_ok_true h1 h2 :
  dir_ok pmesh vpmap h1 h2 = true ↔ directions_match pmesh vpmap h1 h2.
Proof.
  unfold dir_ok, directions_match, Point_eqb.
  by rewrite andb_true_iff, !bool_decide_eq_true.
Qed.
End collector_result.

(** ** The surgery engine and the halfedge structure *)

Section skeleton.
Implicit Types (g : PM) (h : halfedge_descriptor) (v : vertex_descriptor).

Lemma opposite_opposites h g : opposite h g = default null_halfedge (opposites g !! h).
Proof. unfold opposite, opposites. rewrite lookup_fmap. by destruct (_ !! h). Qed.

Lemma edge_edge_opp h g : edge h g = edge_opp (opposites g) h.
Proof. unfold edge, edge_opp. by rewrite opposite_opposites. Qed.

Lemma same_skeleton_refl g : same_skeleton g g.
Proof. done. Qed.

Lemma same_skeleton_trans g1 g2 g3 :
  same_skeleton g1 g2 → same_skeleton g2 g3 → same_skeleton g1 g3.
Proof. intros [??] [??]. split; congruence. Qed.

Lemma opposites_alter (f : Halfedge → Halfedge) h (hs : gmap halfedge_descriptor Halfedge) :
  (∀ r, hd_opposite (f r) = hd_opposite r) →
  hd_opposite <$> alter f h hs = hd_opposite <$> hs.
Proof.
  intros Hf. apply map_eq. intros i. rewrite !lookup_fmap, lookup_alter.
  case_decide; [subst i|done]. destruct (hs !! h); simpl; by rewrite ?Hf.
Qed.

Lemma same_skeleton_set_target h v g : same_skeleton g (set_target h v g).
Proof. split; [|done]. by apply opposites_alter. Qed.

Lemma same_skeleton_set_face h f g : same_skeleton g (set_face h f g).
Proof. split; [|done]. by apply opposites_alter. Qed.

Lemma same_skeleton_set_next h1 h2 g : same_skeleton g (set_next h1 h2 g).
Proof.
  split; [|done]. unfold opposites, set_next, upd_halfedges; simpl.
  by rewrite !opposites_alter.
Qed.

Lemma same_skeleton_set_halfedge v h g : same_skeleton g (set_halfedge v h g).
Proof.
  split; [done|]. unfold set_halfedge; simpl. apply dom_alter_L.
Qed.

Lemma same_skeleton_set_halfedge_face f h g : same_skeleton g (set_halfedge_face f h g).
Proof. by destruct f. Qed.

Lemma same_skeleton_update_target_vertex_loop fuel start h v g g' :
  update_target_vertex_loop fuel start h v g = Some g' → same_skeleton g g'.
Proof.
  revert h g. induction fuel as [|fuel IH]; intros h g; simpl; [done|].
  case_decide.
  - intros [= <-]. apply same_skeleton_set_target.
  - intros Hg'. eapply same_skeleton_trans; [apply same_skeleton_set_target|].
    by eapply IH.
Qed.

Lemma same_skeleton_update_target_vertex h v g g' :
  update_target_vertex h v g = Some g' → same_skeleton g g'.
Proof. apply same_skeleton_update_target_vertex_loop. Qed.

Lemma same_skeleton_guarded (P : Prop) `{!Decision P} h v g
    (vtd : list vertex_descriptor) x g' vtd' :
  (if decide P then pmesh ← update_target_vertex h v g; Some (pmesh, vtd ++ [x])
   else Some (g, vtd)) = Some (g', vtd') →
  same_skeleton g g'.
Proof.
  destruct (decide P); [|by intros [= <- <-]].
  intros (g1 & Hu & [= <- <-])%bind_Some.
  by eapply same_skeleton_update_target_vertex.
Qed.

Lemma same_skeleton_update_vertex_pointers hk st st' :
  update_vertex_pointers hk st = Some st' →
  same_skeleton (sg_pmesh st) (sg_pmesh st').
Proof.
  destruct st as [g uf hs vtd]. unfold update_vertex_pointers.
  destruct (uf_get_handle (target hk.1 g) uf hs) as [[hdl1 uf1] hs1].
  set (k1 := Union_find.find hdl1 uf1).
  intros H.
  apply bind_Some in H as ([g1 vtd1] & H1 & H).
  apply bind_Some in H as ([g2 vtd2] & H2 & H).
  destruct (uf_get_handle _ uf1 hs1) as [[hdl2 uf2] hs2].
  apply bind_Some in H as ([g3 vtd3] & H3 & H).
  apply bind_Some in H as ([g4 vtd4] & H4 & H).
  injection H as <-. simpl.
  apply same_skeleton_guarded in H1, H2, H3, H4.
  eauto 10 using same_skeleton_trans, same_skeleton_set_halfedge.
Qed.

Lemma same_skeleton_update_vertex_pointers_loop to_stitch st st' :
  update_vertex_pointers_loop to_stitch st = Some st' →
  same_skeleton (sg_pmesh st) (sg_pmesh st').
Proof.
  revert st. induction to_stitch as [|hk l IH]; intros st; simpl.
  - by intros [= <-].
  - intros (st1 & H1 & H2)%bind_Some.
    eapply same_skeleton_trans; [by eapply same_skeleton_update_vertex_pointers|].
    by apply IH.
Qed.

Lemma same_skeleton_link_neighbors g hk : same_skeleton g (link_neighbors g hk).
Proof.
  unfold link_neighbors.
  eapply same_skeleton_trans; apply same_skeleton_set_next.
Qed.

Lemma same_skeleton_foldl_link_neighbors to_stitch g :
  same_skeleton g (foldl link_neighbors g to_stitch).
Proof.
  revert g. induction to_stitch as [|hk l IH]; intros g; simpl; [done|].
  eauto using same_skeleton_trans, same_skeleton_link_neighbors.
Qed.
End skeleton.

Section removal.
Implicit Types (g : PM) (h : halfedge_descriptor) (v : vertex_descriptor).
Implicit Types (o : gmap halfedge_descriptor halfedge_descriptor).

Lemma opposites_remove_edge e g :
  opposites (remove_edge e g) = delete e.2 (delete e.1 (opposites g)).
Proof. unfold opposites, remove_edge, upd_halfedges; simpl. by rewrite !fmap_delete. Qed.

Lemma opposites_remove_edge_of g g4 h :
  same_skeleton g g4 →
  opposites (remove_edge (edge h g4) g4) = remove_edge_opp (opposites g) h
  ∧ dom (pm_vertices (remove_edge (edge h g4) g4)) = dom (pm_vertices g).
Proof.
  intros [So Sv]. split; [|done].
  by rewrite opposites_remove_edge, edge_edge_opp, So.
Qed.

Lemma opposites_remove_second_halfedge g hk :
  opposites (remove_second_halfedge g hk) = remove_edge_opp (opposites g) hk.2
  ∧ dom (pm_vertices (remove_second_halfedge g hk)) = dom (pm_vertices g).
Proof.
  unfold remove_second_halfedge. cbv zeta. apply opposites_remove_edge_of.
  eapply same_skeleton_trans; [|apply same_skeleton_set_next].
  eapply same_skeleton_trans; [|apply same_skeleton_set_next].
  eapply same_skeleton_trans; [|apply same_skeleton_set_halfedge_face].
  apply same_skeleton_set_face.
Qed.

Lemma edge_opp_eq o h1 h2 h1' h2' :
  o !! h1 = Some h1' → o !! h2 = Some h2' →
  edge_opp o h1 = edge_opp o h2 ↔ (h1 = h2 ∧ h1' = h2') ∨ (h1 = h2' ∧ h1' = h2).
Proof.
  intros H1 H2. unfold edge_opp. rewrite H1, H2. simpl. split.
  - intros [= Hmin Hmax]. lia.
  - intros [[-> ->]|[-> ->]]; f_equal; lia.
Qed.

Lemma remove_edge_opp_dead o h :
  opp_closed o → o !! h = None → remove_edge_opp o h = o.
Proof.
  intros [H0 _] Hh. unfold remove_edge_opp, edge_opp. rewrite Hh. simpl.
  unfold null_halfedge in *. rewrite Nat.max_0_r, Nat.min_0_r.
  rewrite (delete_id o 0) by done. by apply delete_id.
Qed.

Lemma remove_edge_opp_live o h h' :
  opp_closed o → o !! h = Some h' →
  remove_edge_opp o h = delete h' (delete h o).
Proof.
  intros _ Hh. unfold remove_edge_opp, edge_opp. rewrite Hh. simpl.
  destruct (Nat.min_spec h h') as [[? ->]|[? ->]],
           (Nat.max_spec h h') as [[? ->]|[? ->]]; try lia; try done;
    apply delete_delete.
Qed.

Lemma opp_closed_remove_edge_opp o h :
  opp_closed o → opp_closed (remove_edge_opp o h).
Proof.
  intros Hc. destruct (o !! h) as [h'|] eqn:Hh.
  - rewrite (remove_edge_opp_live _ _ _ Hc Hh). destruct Hc as [H0 Hc]. split.
    + rewrite !lookup_delete_None. auto.
    + intros x y Hx.
      apply lookup_delete_Some in Hx as [Hxh' Hx].
      apply lookup_delete_Some in Hx as [Hxh Hx].
      destruct (Hc _ _ Hx) as [Hyx Hy]. split; [done|].
      destruct (Hc _ _ Hh) as [_ Hh'].
      rewrite !lookup_delete_Some. repeat split; [| |done]; intros <-; congruence.
  - by rewrite remove_edge_opp_dead.
Qed.

Lemma remove_edge_opp_lookup o h x :
  opp_closed o →
  remove_edge_opp o h !! x =
    if decide (x = h ∨ o !! h = Some x) then None else o !! x.
Proof.
  intros Hc. destruct (o !! h) as [h'|] eqn:Hh.
  - rewrite (remove_edge_opp_live _ _ _ Hc Hh).
    case_decide as Hx.
    + apply lookup_delete_None. destruct Hx as [->|[= ->]]; [right|left]; [|done].
      apply lookup_delete_eq.
    + rewrite !lookup_delete_ne; [done|..]; intros <-; apply Hx; auto.
  - rewrite remove_edge_opp_dead by done.
    case_decide as Hx; [|done]. by destruct Hx as [->|?].
Qed.

(** Removing the edges of live halfedges with distinct edges removes two
    halfedges each. *)
Lemma size_foldl_remove_edge_opp hs o :
  opp_closed o →
  Forall (λ h, is_Some (o !! h)) hs →
  NoDup (edge_opp o <$> hs) →
  size (foldl remove_edge_opp o hs) + 2 * length hs = size o.
Proof.
  revert o. induction hs as [|h hs IH]; intros o Hc Hlive Hnd; simpl; [lia|].
  apply Forall_cons in Hlive as [[h' Hh] Hlive].
  rewrite fmap_cons in Hnd. apply NoDup_cons in Hnd as [Hnotin Hnd].
  pose proof Hc as [H0 Hcl]. destruct (Hcl _ _ Hh) as [Hne Hh'].
  assert (Hkeep : ∀ x, x ∈ hs → remove_edge_opp o h !! x = o !! x).
  { intros x Hx. rewrite remove_edge_opp_lookup by done.
    rewrite decide_False; [done|].
    apply Forall_forall with (x := x) in Hlive as [x' Hx']; [|done].
    intros Hor. apply Hnotin. apply list_elem_of_fmap. exists x. split; [|done].
    symmetry. eapply edge_opp_eq; [done..|].
    destruct Hor as [->|Hor]; [left; by simplify_eq|right].
    rewrite Hh in Hor. injection Hor as ->. split; [done|]. congruence. }
  assert (Hsz : size (remove_edge_opp o h) + 2 = size o).
  { rewrite (remove_edge_opp_live _ _ _ Hc Hh).
    rewrite <-(insert_delete_id o h h') at 2 by done.
    rewrite map_size_insert_None by apply lookup_delete_eq.
    rewrite <-(insert_delete_id (delete h o) h' h) at 2
      by (by rewrite lookup_delete_ne).
    rewrite map_size_insert_None by apply lookup_delete_eq. lia. }
  assert (IH' : size (foldl remove_edge_opp (remove_edge_opp o h) hs) + 2 * length hs
                = size (remove_edge_opp o h)); [|lia].
  apply IH.
  - by apply opp_closed_remove_edge_opp.
  - apply Forall_forall. intros x Hx. rewrite Hkeep by done.
    by apply Forall_forall with (x := x) in Hlive.
  - erewrite list_fmap_ext; [exact Hnd|].
    intros i x Hx%list_elem_of_lookup_2. unfold edge_opp. by rewrite Hkeep.
Qed.

(** The halfedges that survive the removal of the edges of [hs]. *)
Lemma dom_foldl_remove_edge_opp hs o x :
  opp_closed o →
  is_Some (foldl remove_edge_opp o hs !! x) ↔
  is_Some (o !! x) ∧ ∀ h, h ∈ hs → x ≠ h ∧ o !! h ≠ Some x.
Proof.
  revert o. induction hs as [|h hs IH]; intros o Hc; simpl.
  - split; [intros ?; split; [done|]; intros ? []%elem_of_nil|by intros [? _]].
  - rewrite IH by (by apply opp_closed_remove_edge_opp).
    rewrite remove_edge_opp_lookup by done.
    split.
    + intros [Hx Hrest]. case_decide as Hd; [by destruct Hx|].
      split; [done|]. intros h0 [->|Hh0]%elem_of_cons; [tauto|].
      destruct (Hrest _ Hh0) as [Hne Hop]. split; [done|].
      rewrite remove_edge_opp_lookup in Hop by done.
      case_decide as Hd'; [|done].
      (* [h0] was removed together with [h]: its opposite is [h] or it is [h] *)
      intros Hh0x. destruct Hc as [_ Hcl]. destruct (Hcl _ _ Hh0x) as [_ Hx0].
      destruct Hd' as [->|Hd']; [tauto|].
      destruct (Hcl _ _ Hd') as [_ Hh0h]. apply Hd. left. congruence.
    + intros [Hx Hall]. destruct (Hall h) as [Hxh Hhx]; [left|].
      rewrite decide_False by tauto. split; [done|].
      intros h0 Hh0. destruct (Hall h0) as [Hne Hop]; [by right|].
      split; [done|]. rewrite remove_edge_opp_lookup by done.
      case_decide; done.
Qed.
End removal.

Section engine.
Implicit Types (g : PM) (h : halfedge_descriptor) (v : vertex_descriptor).
Implicit Types (to_stitch : list halfedges_pair) (unsafe : gset vertex_descriptor).

Lemma foldl_remove_second_halfedge to_stitch g :
  opposites (foldl remove_second_halfedge g to_stitch)
    = foldl remove_edge_opp (opposites g) to_stitch.*2
  ∧ dom (pm_vertices (foldl remove_second_halfedge g to_stitch)) = dom (pm_vertices g).
Proof.
  revert g. induction to_stitch as [|hk l IH]; intros g; simpl; [done|].
  destruct (IH (remove_second_halfedge g hk)) as [-> ->].
  destruct (opposites_remove_second_halfedge g hk) as [-> ->]. done.
Qed.

Lemma foldl_remove_vertex vs g :
  opposites (foldl (λ g vd, remove_vertex vd g) g vs) = opposites g
  ∧ dom (pm_vertices (foldl (λ g vd, remove_vertex vd g) g vs))
    = dom (pm_vertices g) ∖ list_to_set vs.
Proof.
  revert g. induction vs as [|v vs IH]; intros g; simpl.
  - split; [done|]. set_solver.
  - destruct (IH (remove_vertex v g)) as [-> ->]. split; [done|].
    unfold remove_vertex; simpl. rewrite dom_delete_L. set_solver.
Qed.

Lemma run_stitch_borders_effect g to_stitch uf hs g' :
  run_stitch_borders g to_stitch uf hs = Some g' →
  ∃ st, update_vertex_pointers_loop to_stitch (mkSurgery g uf hs []) = Some st
    ∧ opposites g' = foldl remove_edge_opp (opposites g) to_stitch.*2
    ∧ dom (pm_vertices g') = dom (pm_vertices g) ∖ list_to_set (sg_vertices_to_delete st).
Proof.
  unfold run_stitch_borders. intros (st & Hst & [= <-])%bind_Some.
  exists st. split; [done|].
  destruct (same_skeleton_update_vertex_pointers_loop _ _ _ Hst) as [So Sv].
  simpl in So, Sv.
  destruct (same_skeleton_foldl_link_neighbors to_stitch (sg_pmesh st)) as [So2 Sv2].
  destruct (foldl_remove_vertex (sg_vertices_to_delete st)
              (foldl remove_second_halfedge (foldl link_neighbors (sg_pmesh st) to_stitch)
                 to_stitch)) as [-> ->].
  destruct (foldl_remove_second_halfedge to_stitch
              (foldl link_neighbors (sg_pmesh st) to_stitch)) as [-> ->].
  by rewrite So2, So, Sv2, Sv.
Qed.

Lemma keep_pair_true g unsafe hk :
  keep_pair g unsafe hk = true ↔ ¬ touches_unsafe g unsafe hk.
Proof.
  unfold keep_pair, touches_unsafe.
  rewrite !andb_true_iff, !bool_decide_eq_true. tauto.
Qed.

Lemma filter_keep_pair g unsafe to_stitch :
  filter (λ hk, keep_pair g unsafe hk = true) to_stitch
  = filter (λ hk, ¬ touches_unsafe g unsafe hk) to_stitch.
Proof. apply list_filter_iff. intros hk. apply keep_pair_true. Qed.

Lemma filter_unsafe_empty g to_stitch :
  filter (λ hk, ¬ touches_unsafe g ∅ hk) to_stitch = to_stitch.
Proof.
  induction to_stitch as [|hk l IH]; [done|].
  rewrite filter_cons_True; [by rewrite IH|].
  unfold touches_unsafe. set_solver.
Qed.

(** The first loop of [stitch_borders_impl] yields the union-find of the
    candidates when every candidate passes the assertions. *)
Lemma merge_candidates_spec g to_stitch :
  merge_candidates g to_stitch
  = if forallb (candidate_assertions g) to_stitch
    then Some (merge_vertices g to_stitch) else None.
Proof.
  unfold merge_candidates, merge_vertices. generalize (∅ : Uf_vertices, ∅ : Uf_handles).
  induction to_stitch as [|hk l IH]; intros acc; simpl; [done|].
  destruct (candidate_assertions g hk); simpl; [apply IH|].
  clear IH. induction l as [|hk' l IH]; simpl; done.
Qed.

(** The engine runs on the pairs that pass the filter, with the union-find
    of these pairs. *)
Lemma stitch_borders_impl_filtered g to_stitch :
  stitch_borders_impl g to_stitch =
  (stitched ← surviving_pairs g to_stitch;
   let '(uf_vertices, uf_handles) := merge_vertices g stitched in
   run_stitch_borders g stitched uf_vertices uf_handles).
Proof.
  unfold stitch_borders_impl, surviving_pairs, unsafe_vertices.
  rewrite merge_candidates_spec.
  destruct (forallb (candidate_assertions g) to_stitch); simpl; [|done].
  destruct (merge_vertices g to_stitch) as [uf hs] eqn:Hm. simpl.
  destruct (collect_halfedges_after_stitching g uf hs (map_to_list hs) ∅) as [has|];
    simpl; [|done].
  rewrite filter_keep_pair.
  case_bool_decide as Hempty; simpl; [|done].
  rewrite Hempty, filter_unsafe_empty, Hm. done.
Qed.
End engine.

Section invariant.
Implicit Types (g : PM) (h : halfedge_descriptor) (v : vertex_descriptor).
Implicit Types (to_stitch : list halfedges_pair).

Lemma opp_closed_foldl_remove_edge_opp hs o :
  opp_closed o → opp_closed (foldl remove_edge_opp o hs).
Proof.
  revert o. induction hs as [|h hs IH]; intros o Hc; simpl; [done|].
  by apply IH, opp_closed_remove_edge_opp.
Qed.

Lemma stitch_borders_impl_effect g to_stitch g' :
  stitch_borders_impl g to_stitch = Some g' →
  ∃ stitched st,
    surviving_pairs g to_stitch = Some stitched
    ∧ update_vertex_pointers_loop stitched
        (mkSurgery g (merge_vertices g stitched).1 (merge_vertices g stitched).2 [])
      = Some st
    ∧ opposites g' = foldl remove_edge_opp (opposites g) stitched.*2
    ∧ dom (pm_vertices g')
      = dom (pm_vertices g) ∖ list_to_set (sg_vertices_to_delete st).
Proof.
  rewrite stitch_borders_impl_filtered.
  intros (stitched & Hs & Hrun)%bind_Some.
  destruct (merge_vertices g stitched) as [uf hs] eqn:Hm.
  apply run_stitch_borders_effect in Hrun as (st & ? & ? & ?).
  exists stitched, st. by rewrite Hm.
Qed.








Lemma elem_of_halfedges h g : h ∈ halfedges g ↔ is_halfedge h g.
Proof.
  unfold halfedges, is_halfedge. rewrite merge_sort_Permutation.
  rewrite list_elem_of_fmap. split.
  - intros ([h' r] & -> & Hin). apply elem_of_map_to_list in Hin. by exists r.
  - intros [r Hr]. exists (h, r). split; [done|]. by apply elem_of_map_to_list.
Qed.

Lemma NoDup_halfedges g : NoDup (halfedges g).
Proof.
  unfold halfedges. rewrite merge_sort_Permutation. apply NoDup_fst_map_to_list.
Qed.

Lemma is_halfedge_opposites h g : is_halfedge h g ↔ is_Some (opposites g !! h).
Proof. unfold is_halfedge, opposites. by rewrite lookup_fmap, fmap_is_Some. Qed.

End invariant.

Section counts.
Implicit Types (g : PM) (h : halfedge_descriptor) (v : vertex_descriptor).
Implicit Types (to_stitch : list halfedges_pair).

Lemma num_halfedges_opposites g : num_halfedges g = size (opposites g).
Proof. unfold num_halfedges, opposites. by rewrite map_size_fmap. Qed.

Lemma distinct_live_edges_sublist g hs hs' :
  hs' `sublist_of` hs → distinct_live_edges g hs → distinct_live_edges g hs'.
Proof.
  intros Hsub [Hlive Hnd]. split.
  - apply Forall_forall. intros x Hx.
    apply Forall_forall with (x := x) in Hlive; [done|].
    by eapply sublist_subseteq.
  - eapply sublist_NoDup; [exact Hnd|]. by apply fmap_sublist.
Qed.

Lemma surviving_pairs_sublist g to_stitch stitched :
  surviving_pairs g to_stitch = Some stitched → stitched `sublist_of` to_stitch.
Proof.
  intros (unsafe & _ & [= <-])%bind_Some. apply sublist_filter.
Qed.
End counts.

(** ** The manifold-safety filter *)

Section marking.
Implicit Types (g : PM) (hds : list halfedge_descriptor) (v : vertex_descriptor).
Implicit Types (s : gset vertex_descriptor).

Lemma elem_of_mark_unstitchable g hds s v :
  v ∈ mark_unstitchable g hds s ↔
  v ∈ s ∨ ∃ hd, hd ∈ hds ∧ (v = source hd g ∨ v = target hd g).
Proof.
  unfold mark_unstitchable. revert s.
  induction hds as [|hd hds IH]; intros s; simpl.
  - split; [by left|]. intros [?|(hd & []%elem_of_nil & _)]. done.
  - rewrite IH, !elem_of_union, !elem_of_singleton. split.
    + intros [[->|[->|?]]|(hd' & Hin & Hv)]; eauto.
      * right. exists hd. split; [left|]; auto.
      * right. exists hd. split; [left|]; auto.
      * right. exists hd'. split; [by right|done].
    + intros [?|(hd' & [->|Hin]%elem_of_cons & Hv)]; [tauto| |eauto].
      destruct Hv as [->| ->]; tauto.
Qed.

Lemma elem_of_check_key g s hds v :
  v ∈ check_key g s hds ↔ v ∈ s ∨ marked_by g hds v.
Proof.
  unfold check_key, marked_by, key_is_unsafe.
  destruct hds as [|a [|b [|c hds]]]; cbn -[mark_unstitchable is_border_edge].
  - rewrite elem_of_mark_unstitchable. split; [|intros [?|[_ ?]]; auto].
    intros [?|Hex]; [by left|]. right. split; [|done]. split; [done|]. by intros [? _].
  - split; [by left|]. intros [?|[[? _] _]]; done.
  - destruct (is_border_edge a g) eqn:Ea, (is_border_edge b g) eqn:Eb;
      cbn -[mark_unstitchable]; rewrite ?elem_of_mark_unstitchable.
    + split; [by left|]. intros [?|[[_ Hn] _]]; [done|].
      exfalso. apply Hn. split; [done|]. by repeat constructor.
    + split; [|intros [?|[_ ?]]; auto].
      intros [?|Hex]; [by left|]. right. split; [|done]. split; [done|].
      intros [_ Hall]. apply Forall_cons in Hall as [_ Hall].
      apply Forall_cons in Hall as [Hb _]. congruence.
    + split; [|intros [?|[_ ?]]; auto].
      intros [?|Hex]; [by left|]. right. split; [|done]. split; [done|].
      intros [_ Hall]. apply Forall_cons in Hall as [Ha _]. congruence.
    + split; [|intros [?|[_ ?]]; auto].
      intros [?|Hex]; [by left|]. right. split; [|done]. split; [done|].
      intros [_ Hall]. apply Forall_cons in Hall as [Ha _]. congruence.
  - rewrite elem_of_mark_unstitchable. split; [|intros [?|[_ ?]]; auto].
    intros [?|Hex]; [by left|]. right. split; [|done]. split; [done|]. by intros [? _].
Qed.

Lemma elem_of_foldl_check_key g (l : list (list halfedge_descriptor)) s v :
  v ∈ foldl (check_key g) s l ↔ v ∈ s ∨ ∃ hds, hds ∈ l ∧ marked_by g hds v.
Proof.
  revert s. induction l as [|hds l IH]; intros s; simpl.
  - split; [by left|]. intros [?|(? & []%elem_of_nil & _)]. done.
  - rewrite IH, elem_of_check_key. split.
    + intros [[?|?]|(hds' & ? & ?)]; [by left|right..].
      * exists hds. split; [left|done].
      * exists hds'. split; [by right|done].
    + intros [?|(hds' & [->|?]%elem_of_cons & ?)]; eauto.
Qed.

Lemma elem_of_find_unstitchable_vertices g (has : Halfedges_after_stitching) v :
  v ∈ find_unstitchable_vertices g has ↔
  ∃ key hds, has !! key = Some hds ∧ marked_by g hds v.
Proof.
  unfold find_unstitchable_vertices. rewrite elem_of_foldl_check_key. split.
  - intros [[]%elem_of_empty|(hds & Hin & Hm)].
    apply list_elem_of_fmap in Hin as ([key hds'] & -> & Hin).
    apply elem_of_map_to_list in Hin. by exists key, hds'.
  - intros (key & hds & Hk & Hm). right. exists hds. split; [|done].
    apply list_elem_of_fmap. exists (key, hds). split; [done|].
    by apply elem_of_map_to_list.
Qed.
End marking.

(** ** The assertions on the candidates *)

Section assertions.
Implicit Types (g : PM) (h : halfedge_descriptor) (hk : halfedges_pair).

Lemma candidate_assertions_spec g hk :
  candidate_assertions g hk = true ↔
  is_border hk.1 g = true ∧ is_border hk.2 g = true
  ∧ is_border (opposite hk.1 g) g = false ∧ is_border (opposite hk.2 g) g = false.
Proof.
  unfold candidate_assertions.
  rewrite !andb_true_iff, !negb_true_iff. tauto.
Qed.

(** A halfedge whose opposite has a face is a halfedge of the mesh, and
    so is its opposite. *)
Lemma not_border_opposite_live g h :
  valid_opposites g → is_border (opposite h g) g = false →
  is_halfedge h g ∧ is_halfedge (opposite h g) g.
Proof.
  intros [H0 _] Hb.
  assert (Ho : is_halfedge (opposite h g) g).
  { unfold is_border, face in Hb. apply bool_decide_eq_false in Hb.
    unfold is_halfedge. destruct (pm_halfedges g !! opposite h g); [by eexists|done]. }
  split; [|done]. apply is_halfedge_opposites.
  apply is_halfedge_opposites in Ho. rewrite opposite_opposites in Ho.
  destruct (opposites g !! h) as [o|]; [by eexists|].
  simpl in Ho. rewrite H0 in Ho. by destruct Ho.
Qed.

Lemma candidate_assertions_live g hk :
  valid_opposites g → candidate_assertions g hk = true → live_pair g hk.
Proof.
  intros Hv (_ & _ & H1 & H2)%candidate_assertions_spec.
  destruct (not_border_opposite_live g hk.1 Hv H1).
  destruct (not_border_opposite_live g hk.2 Hv H2). done.
Qed.

(** A call of [stitch_borders_impl] that returns has passed the assertions
    on every candidate. *)
Lemma stitch_borders_impl_asserted g (to_stitch : list halfedges_pair) g' :
  stitch_borders_impl g to_stitch = Some g' →
  Forall (λ hk, candidate_assertions g hk = true) to_stitch.
Proof.
  unfold stitch_borders_impl. rewrite merge_candidates_spec.
  destruct (forallb (candidate_assertions g) to_stitch) eqn:Ha; simpl; [|done].
  intros _. apply Forall_forall. intros hk Hin.
  rewrite forallb_forall in Ha. apply Ha. by apply list_elem_of_In.
Qed.
End assertions.

(** ** The effect of the calls of the engine *)

Section runs.
Implicit Types (g : PM) (h x : halfedge_descriptor) (v : vertex_descriptor).
Implicit Types (o : gmap halfedge_descriptor halfedge_descriptor).
Implicit Types (vpm : vertex_descriptor → Point) (log : Stitch_log).

Lemma run_stitch_borders_nil g uf hs : run_stitch_borders g [] uf hs = Some g.
Proof. done. Qed.

Lemma lookup_foldl_remove_edge_opp (hs : list halfedge_descriptor) o x :
  opp_closed o →
  is_Some (foldl remove_edge_opp o hs !! x) →
  foldl remove_edge_opp o hs !! x = o !! x.
Proof.
  revert o. induction hs as [|h hs IH]; intros o Hc; simpl; [done|].
  intros Hx. rewrite IH by (by apply opp_closed_remove_edge_opp || done).
  rewrite IH in Hx by (by apply opp_closed_remove_edge_opp || done).
  rewrite remove_edge_opp_lookup in Hx |- * by done.
  case_decide; [by destruct Hx|done].
Qed.

Lemma size_remove_edge_opp_live o h h' :
  opp_closed o → o !! h = Some h' → size (remove_edge_opp o h) + 2 = size o.
Proof.
  intros Hc Hh. pose proof Hc as [_ Hcl]. destruct (Hcl _ _ Hh) as [Hne Hh'].
  rewrite (remove_edge_opp_live _ _ _ Hc Hh).
  rewrite <-(insert_delete_id o h h') at 2 by done.
  rewrite map_size_insert_None by apply lookup_delete_eq.
  rewrite <-(insert_delete_id (delete h o) h' h) at 2
    by (by rewrite lookup_delete_ne).
  rewrite map_size_insert_None by apply lookup_delete_eq. lia.
Qed.

(** The removal of the edges of halfedges none of which is the opposite
    of another takes two halfedges for each one that is a halfedge of the
    mesh, however often it is listed. *)
Lemma size_foldl_remove_edge_opp_set (hs : list halfedge_descriptor) o :
  opp_closed o →
  (∀ a b, a ∈ hs → b ∈ hs → o !! a ≠ Some b) →
  size (foldl remove_edge_opp o hs)
  + 2 * size (filter (λ h, is_Some (o !! h)) (list_to_set hs : gset halfedge_descriptor))
  = size o.
Proof.
  revert o. induction hs as [|h hs IH]; intros o Hc Hsep.
  { assert (Hf : filter (λ h, is_Some (o !! h))
                   (list_to_set [] : gset halfedge_descriptor) = ∅) by set_solver.
    rewrite Hf, size_empty. simpl. lia. }
  rewrite list_to_set_cons. cbn [foldl].
  destruct (o !! h) as [h'|] eqn:Hh.
  - pose proof (size_remove_edge_opp_live o h h' Hc Hh) as Hsz.
    assert (Hlive : ∀ x, x ∈ hs →
              is_Some (remove_edge_opp o h !! x) ↔ is_Some (o !! x) ∧ x ≠ h).
    { intros x Hx. rewrite remove_edge_opp_lookup by done. rewrite Hh.
      case_decide as Hd.
      - split; [by intros []|]. intros [_ Hne]. destruct Hd as [->|[= ->]]; [done|].
        destruct (Hsep h x); [left|by right|done].
      - split; [intros ?; split; [done|]; intros ->; apply Hd; by left|by intros [? _]]. }
    assert (Hset : filter (λ x, is_Some (o !! x))
                     ({[h]} ∪ list_to_set hs : gset halfedge_descriptor)
                   = {[h]} ∪ filter (λ x, is_Some (remove_edge_opp o h !! x))
                              (list_to_set hs : gset halfedge_descriptor)).
    { apply set_eq. intros x.
      rewrite elem_of_filter, !elem_of_union, elem_of_filter, elem_of_singleton,
        elem_of_list_to_set.
      split.
      - intros [Hx [->|Hin]]; [by left|].
        destruct (decide (x = h)) as [->|Hne]; [by left|].
        right. split; [|done]. by apply Hlive.
      - intros [->|[Hx Hin]]; [split; [by eexists|by left]|].
        apply Hlive in Hx as [Hx _]; [|done]. split; [done|by right]. }
    rewrite Hset, size_union, size_singleton.
    + assert (IH' : size (foldl remove_edge_opp (remove_edge_opp o h) hs)
                    + 2 * size (filter (λ x, is_Some (remove_edge_opp o h !! x))
                                  (list_to_set hs : gset halfedge_descriptor))
                    = size (remove_edge_opp o h)); [|lia].
      apply IH; [by apply opp_closed_remove_edge_opp|].
      intros a b Ha Hb Hab. apply (Hsep a b); [by right|by right|].
      rewrite remove_edge_opp_lookup in Hab by done. by case_decide.
    + intros x ->%elem_of_singleton [Hx _]%elem_of_filter.
      rewrite remove_edge_opp_lookup in Hx by done.
      rewrite decide_True in Hx by (by left). by destruct Hx.
  - rewrite remove_edge_opp_dead by done.
    assert (Hset : filter (λ x, is_Some (o !! x))
                     ({[h]} ∪ list_to_set hs : gset halfedge_descriptor)
                   = filter (λ x, is_Some (o !! x))
                       (list_to_set hs : gset halfedge_descriptor)).
    { apply set_eq. intros x.
      rewrite !elem_of_filter, elem_of_union, elem_of_singleton. split.
      - intros [Hx [->|Hin]]; [|done]. rewrite Hh in Hx. by destruct Hx.
      - intros [Hx Hin]. split; [done|by right]. }
    rewrite Hset. apply IH; [done|].
    intros a b Ha Hb. apply Hsep; by right.
Qed.

Lemma stitching_effect_refl g : stitching_effect g g ([], ∅).
Proof.
  unfold stitching_effect. simpl. split; [done|]. split; [set_solver|].
  split; [set_solver|]. split; [done|]. split; [|done].
  intros hk hk' []%elem_of_nil.
Qed.

Lemma stitching_effect_valid g g' log :
  valid_opposites g → stitching_effect g g' log → valid_opposites g'.
Proof.
  intros Hv (Ho & _). unfold valid_opposites. rewrite Ho.
  by apply opp_closed_foldl_remove_edge_opp.
Qed.

Lemma stitching_effect_impl g (to_stitch : list halfedges_pair) g' :
  valid_opposites g →
  stitch_borders_impl g to_stitch = Some g' →
  ∃ log, stitch_borders_impl_log g to_stitch = Some log ∧ stitching_effect g g' log.
Proof.
  intros Hv Himpl.
  pose proof (stitch_borders_impl_asserted _ _ _ Himpl) as Hassert.
  pose proof Himpl as (stitched & st & Hs & Hst & Ho & Hd)%stitch_borders_impl_effect.
  exists (stitched, deleted_vertices g (sg_vertices_to_delete st)).
  split; [unfold stitch_borders_impl_log; rewrite Hs; simpl; by rewrite Hst|].
  assert (Hsub : ∀ hk, hk ∈ stitched → candidate_assertions g hk = true).
  { intros hk Hin. apply (proj1 (Forall_forall _ _) Hassert).
    eapply sublist_subseteq; [by eapply surviving_pairs_sublist|done]. }
  unfold stitching_effect. simpl. split; [done|]. split; [|split; [|split; [|split]]].
  - rewrite Hd. unfold deleted_vertices. set_solver.
  - unfold deleted_vertices. set_solver.
  - apply Forall_forall. intros hk Hin.
    by destruct (candidate_assertions_live g hk Hv (Hsub _ Hin)) as (_ & ? & _).
  - intros hk hk' Hin Hin' Hopp.
    apply Hsub, candidate_assertions_spec in Hin as (_ & _ & _ & Hnb).
    apply Hsub, candidate_assertions_spec in Hin' as (_ & Hb & _).
    rewrite opposite_opposites, Hopp in Hnb. simpl in Hnb. congruence.
  - intros ->. rewrite stitch_borders_impl_filtered, Hs in Himpl. simpl in Himpl.
    destruct (merge_vertices g []). by injection Himpl as <-.
Qed.

Lemma stitching_effect_app g g1 g2 log1 log2 :
  valid_opposites g →
  stitching_effect g g1 log1 → stitching_effect g1 g2 log2 →
  stitching_effect g g2 (log_app log1 log2).
Proof.
  intros Hv (Ho1 & Hd1 & HD1 & Hl1 & Hs1 & He1) (Ho2 & Hd2 & HD2 & Hl2 & Hs2 & He2).
  assert (Hlive2 : ∀ hk, hk ∈ log2.1 →
            opposites g1 !! hk.2 = opposites g !! hk.2
            ∧ is_Some (opposites g1 !! hk.2)).
  { intros hk Hin. apply (proj1 (Forall_forall _ _) Hl2) in Hin.
    apply is_halfedge_opposites in Hin. split; [|done].
    rewrite Ho1 in Hin |- *. by apply lookup_foldl_remove_edge_opp. }
  unfold stitching_effect, log_app. simpl.
  split; [|split; [|split; [|split; [|split]]]].
  - by rewrite fmap_app, foldl_app, <-Ho1.
  - rewrite Hd2, Hd1. set_solver.
  - rewrite Hd1 in HD2. set_solver.
  - apply Forall_app. split; [done|]. apply Forall_forall. intros hk Hin.
    destruct (Hlive2 _ Hin) as [Heq Hsome]. apply is_halfedge_opposites.
    by rewrite <-Heq.
  - intros hk hk' [Hin|Hin]%elem_of_app [Hin'|Hin']%elem_of_app Hopp.
    + by apply (Hs1 hk hk').
    + destruct (Hlive2 _ Hin') as [_ Hsome]. rewrite Ho1 in Hsome.
      apply dom_foldl_remove_edge_opp in Hsome as [_ Hall]; [|done].
      destruct (Hall hk.2) as [_ Hne]; [|done].
      apply list_elem_of_fmap. by exists hk.
    + destruct (Hlive2 _ Hin) as [_ Hsome]. rewrite Ho1 in Hsome.
      apply dom_foldl_remove_edge_opp in Hsome as [_ Hall]; [|done].
      destruct (Hall hk'.2) as [_ Hne]; [apply list_elem_of_fmap; by exists hk'|].
      destruct Hv as [_ Hcl]. by destruct (Hcl _ _ Hopp) as [_ ?].
    + apply (Hs2 hk hk'); [done..|]. destruct (Hlive2 _ Hin) as [-> _]. done.
  - intros [Hn1 Hn2]%app_eq_nil. rewrite He2, He1; done.
Qed.

Lemma stitching_effect_starting_points sps (stitched : gset halfedge_descriptor)
    g vpm n n' g' :
  valid_opposites g →
  stitch_starting_points sps stitched g vpm n = Some (n', g') →
  ∃ log, stitch_starting_points_log sps stitched g vpm = Some log
         ∧ stitching_effect g g' log.
Proof.
  revert stitched g n. induction sps as [|h sps IH]; intros stitched g n Hv;
    cbn [stitch_starting_points stitch_starting_points_log].
  - intros [= _ <-]. eexists. split; [done|]. apply stitching_effect_refl.
  - case_decide; [by apply IH|].
    intros ([ps stitched'] & Hwalk & Hrest)%bind_Some. rewrite Hwalk.
    simpl in Hrest. simpl.
    destruct (negb _); [|by eapply IH].
    apply bind_Some in Hrest as (g1 & Himpl & Hrest).
    destruct (stitching_effect_impl _ _ _ Hv Himpl) as (log1 & -> & Heff1).
    rewrite Himpl. simpl.
    destruct (IH _ _ _ (stitching_effect_valid _ _ _ Hv Heff1) Hrest)
      as (log2 & -> & Heff2).
    simpl. eexists. split; [done|]. by eapply stitching_effect_app.
Qed.

Lemma stitching_effect_boundary_cycle h g vpm n' g' :
  valid_opposites g →
  stitch_boundary_cycle h g vpm = Some (n', g') →
  ∃ log, stitch_boundary_cycle_log h g vpm = Some log ∧ stitching_effect g g' log.
Proof.
  unfold stitch_boundary_cycle, stitch_boundary_cycle_log.
  intros Hv (sps & -> & Hrest)%bind_Some. simpl.
  by eapply stitching_effect_starting_points.
Qed.

Lemma stitching_effect_boundary_cycles_loop cycles g vpm n n' g' :
  valid_opposites g →
  stitch_boundary_cycles_loop cycles g vpm n = Some (n', g') →
  ∃ log, stitch_boundary_cycles_loop_log cycles g vpm = Some log
         ∧ stitching_effect g g' log.
Proof.
  revert g n. induction cycles as [|h cycles IH]; intros g n Hv; simpl.
  - intros [= _ <-]. eexists. split; [done|]. apply stitching_effect_refl.
  - intros ([k g1] & Hc & Hrest)%bind_Some. simpl in Hrest.
    destruct (stitching_effect_boundary_cycle _ _ _ _ _ Hv Hc) as (log1 & -> & Heff1).
    rewrite Hc. simpl.
    destruct (IH _ _ (stitching_effect_valid _ _ _ Hv Heff1) Hrest)
      as (log2 & -> & Heff2).
    simpl. eexists. split; [done|]. by eapply stitching_effect_app.
Qed.

Lemma stitching_effect_boundary_cycles g vpm n' g' :
  valid_opposites g →
  stitch_boundary_cycles g vpm = Some (n', g') →
  ∃ log, stitch_boundary_cycles_log g vpm = Some log ∧ stitching_effect g g' log.
Proof.
  unfold stitch_boundary_cycles, stitch_boundary_cycles_log.
  intros Hv (cycles & -> & Hrest)%bind_Some. simpl.
  by eapply stitching_effect_boundary_cycles_loop.
Qed.

Lemma stitching_effect_pairs g (to_stitch : list halfedges_pair) r g' :
  valid_opposites g →
  stitch_borders_pairs g to_stitch = Some (r, g') →
  ∃ log, stitch_borders_impl_log g to_stitch = Some log ∧ stitching_effect g g' log.
Proof.
  intros Hv (g1 & Himpl & [= _ <-])%bind_Some. by apply stitching_effect_impl.
Qed.

Lemma stitching_effect_stitch_borders g vpm per_cc cc r g' :
  valid_opposites g →
  stitch_borders g vpm per_cc cc = Some (r, g') →
  ∃ log, stitch_borders_log g vpm per_cc cc = Some log ∧ stitching_effect g g' log.
Proof.
  unfold stitch_borders, stitch_borders_log.
  intros Hv ([n1 g1] & H1 & Hrest)%bind_Some. simpl in Hrest.
  apply bind_Some in Hrest as ([r2 g2] & H2 & Hrest). simpl in Hrest.
  apply bind_Some in Hrest as ([n3 g3] & H3 & [= _ <-]).
  destruct (stitching_effect_boundary_cycles _ _ _ _ Hv H1) as (log1 & -> & Heff1).
  rewrite H1. simpl.
  pose proof (stitching_effect_valid _ _ _ Hv Heff1) as Hv1.
  destruct (stitching_effect_pairs _ _ _ _ Hv1 H2) as (log2 & -> & Heff2).
  rewrite H2. simpl.
  pose proof (stitching_effect_valid _ _ _ Hv1 Heff2) as Hv2.
  destruct (stitching_effect_boundary_cycles _ _ _ _ Hv2 H3) as (log3 & -> & Heff3).
  simpl. eexists. split; [done|].
  eapply stitching_effect_app; [done|exact Heff1|].
  by eapply stitching_effect_app.
Qed.

(** What the effect says in numbers. *)
Lemma stitching_effect_counts g g' log :
  valid_opposites g → stitching_effect g g' log →
  (∀ h, is_halfedge h g' ↔
        is_halfedge h g ∧ ∀ hk, hk ∈ log.1 → h ≠ hk.2 ∧ h ≠ opposite hk.2 g)
  ∧ num_halfedges g'
    + 2 * size (list_to_set log.1.*2 : gset halfedge_descriptor)
    = num_halfedges g
  ∧ num_vertices g' + size log.2 = num_vertices g.
Proof.
  intros Hv (Ho & Hd & HD & Hl & Hs & _). split; [|split].
  - intros h. rewrite !is_halfedge_opposites, Ho.
    rewrite dom_foldl_remove_edge_opp by done.
    split; intros [Hh Hall]; (split; [done|]).
    + intros hk Hhk. destruct (Hall hk.2) as [Hne Hop].
      { apply list_elem_of_fmap. by exists hk. }
      split; [done|]. rewrite opposite_opposites.
      destruct (opposites g !! hk.2) as [y|] eqn:Hy; simpl; [congruence|].
      intros ->. destruct Hv as [H0 _]. rewrite H0 in Hh. by destruct Hh.
    + intros h2 (hk & -> & Hhk)%list_elem_of_fmap.
      destruct (Hall _ Hhk) as [Hne Hop]. split; [done|].
      intros Hy. apply Hop. by rewrite opposite_opposites, Hy.
  - rewrite !num_halfedges_opposites, Ho.
    rewrite <-(size_foldl_remove_edge_opp_set log.1.*2 (opposites g)); [|done|].
    + do 2 f_equal. f_equal. apply set_eq. intros x.
      rewrite elem_of_filter, elem_of_list_to_set. split; [|by intros [_ ?]].
      intros Hx. split; [|done].
      apply list_elem_of_fmap in Hx as (hk & -> & Hin).
      apply is_halfedge_opposites. by apply (proj1 (Forall_forall _ _) Hl).
    + intros a b (hk & -> & Hin)%list_elem_of_fmap (hk' & -> & Hin')%list_elem_of_fmap.
      by apply Hs.
  - unfold num_vertices. rewrite <-!size_dom, Hd.
    rewrite size_difference by done.
    assert (size log.2 ≤ size (dom (pm_vertices g))) by (by apply subseteq_size).
    lia.
Qed.

Lemma stitching_effect_conserved g g' log :
  valid_opposites g → stitching_effect g g' log → conserved g g' log.
Proof.
  intros Hv Heff.
  destruct (stitching_effect_counts g g' log Hv Heff) as (Hiff & Hn & Hvn).
  split; [done|]. split; [done|]. split; [|done].
  intros Hnd. rewrite <-Hn.
  rewrite (size_list_to_set (C := gset halfedge_descriptor)) by done.
  by rewrite length_fmap.
Qed.


End runs.

(** ** The entry points *)

Section entry_points.
Implicit Types (g : PM) (h : halfedge_descriptor) (v : vertex_descriptor).
Implicit Types (vpm : vertex_descriptor → Point).

Lemma opp_closedb_sound (o : gmap halfedge_descriptor halfedge_descriptor) :
  opp_closedb o = true → opp_closed o.
Proof.
  unfold opp_closedb. intros [H0 Hall]%andb_true_iff.
  apply bool_decide_eq_true in H0. split; [done|].
  intros h h' Hh. rewrite forallb_forall in Hall.
  assert (Hin : In (h, h') (map_to_list o)).
  { apply list_elem_of_In. by apply elem_of_map_to_list. }
  apply Hall in Hin. simpl in Hin.
  apply andb_true_iff in Hin as [Hne Hback].
  apply negb_true_iff, Nat.eqb_neq in Hne.
  by apply bool_decide_eq_true in Hback.
Qed.

Lemma stitch_borders_impl_nil g : stitch_borders_impl g [] = Some g.
Proof.
  unfold stitch_borders_impl, merge_vertices. simpl.
  rewrite map_to_list_empty. simpl.
  unfold find_unstitchable_vertices. rewrite map_to_list_empty. simpl.
  reflexivity.
Qed.

Lemma collect_hedges_to_stitch_faces fuel h hn g vpm acc stitched acc' stitched' :
  collect_hedges_to_stitch fuel h hn g vpm acc stitched = Some (acc', stitched') →
  (∀ hk, hk ∈ acc → face (opposite hk.1 g) g ≠ face (opposite hk.2 g) g) →
  ∀ hk, hk ∈ acc' → face (opposite hk.1 g) g ≠ face (opposite hk.2 g) g.
Proof.
  revert h hn acc stitched.
  induction fuel as [|fuel IH]; intros h hn acc stitched Hw Hacc; [done|].
  simpl in Hw.
  destruct (decide (face (opposite h g) g = face (opposite hn g) g)) as [Heq|Hne].
  { by simplify_eq. }
  assert (Hacc2 : ∀ hk, hk ∈ acc ++ [(h, hn)] →
            face (opposite hk.1 g) g ≠ face (opposite hk.2 g) g).
  { intros hk [Hin | ->%list_elem_of_singleton]%elem_of_app; [by apply Hacc | done]. }
  destruct (decide (next hn g = h)); [by simplify_eq|].
  destruct (negb _ || _); [by simplify_eq|].
  by eapply IH.
Qed.

(** The pairs of the walk are its successive candidates, and the walk has
    stopped at the latest before the first candidates whose opposites share
    their face. *)
Lemma collect_hedges_to_stitch_stops fuel h hn g vpm acc stitched acc' stitched' :
  collect_hedges_to_stitch fuel h hn g vpm acc stitched = Some (acc', stitched') →
  ∃ new,
    acc' = acc ++ new
    ∧ (∀ i hk, new !! i = Some hk →
         hk = (Nat.iter i (λ y, prev y g) h, Nat.iter i (λ y, next y g) hn))
    ∧ ∀ i, face (opposite (Nat.iter i (λ y, prev y g) h) g) g
           = face (opposite (Nat.iter i (λ y, next y g) hn) g) g →
           length new ≤ i.
Proof.
  revert h hn acc stitched.
  induction fuel as [|fuel IH]; intros h hn acc stitched; simpl; [done|].
  case_decide as Hface.
  { intros [= <- <-]. exists []. rewrite app_nil_r. split; [done|]. split.
    - intros i hk. by rewrite lookup_nil.
    - intros i _. simpl. lia. }
  assert (Hone : ∃ new : list halfedges_pair,
            acc ++ [(h, hn)] = acc ++ new
            ∧ (∀ i hk, new !! i = Some hk →
                 hk = (Nat.iter i (λ y, prev y g) h, Nat.iter i (λ y, next y g) hn))
            ∧ ∀ i, face (opposite (Nat.iter i (λ y, prev y g) h) g) g
                   = face (opposite (Nat.iter i (λ y, next y g) hn) g) g →
                   length new ≤ i).
  { exists [(h, hn)]. split; [done|]. split.
    - intros [|i] hk; [|done]. by intros [= <-].
    - intros [|i] Hi; [done|]. simpl. lia. }
  case_decide as Hclosed; [by intros [= <- <-]|].
  destruct (negb _ || _); [by intros [= <- <-]|].
  intros (new & -> & Hnew & Hstop)%IH.
  exists ((h, hn) :: new). split; [by rewrite <-app_assoc|]. split.
  - intros [|i] hk Hhk.
    + by injection Hhk as <-.
    + change (new !! i = Some hk) in Hhk. rewrite !Nat.iter_succ_r. by apply Hnew.
  - intros [|i] Hi; [done|]. rewrite !Nat.iter_succ_r in Hi.
    apply Hstop in Hi. simpl. lia.
Qed.

End entry_points.

(** ** The properties of the specification *)

(** C2.  Without the per-component mode the collector outputs the pair
    [(h1, h2)] exactly when the border halfedges that have the key of [h1]
    are, in the order the collector meets them, [h1] then [h2] and no other
    one, and the points of the source and target of [h2] are the points of
    the target and source of [h1]. *)
Theorem collector_outputs_exactly (pmesh : PM) (vpmap : vertex_descriptor → Point)
    (connected_components : PM → nat * (face_descriptor → nat))
    (h1 h2 : halfedge_descriptor) :
  (h1, h2) ∈ collect_duplicated_stitchable_boundary_edges pmesh vpmap false
               connected_components ↔
  same_key_halfedges pmesh vpmap h1 (border_halfedges pmesh) = [h1; h2]
  ∧ directions_match pmesh vpmap h1 h2.
Proof.
  unfold collect_duplicated_stitchable_boundary_edges.
  rewrite foldl_skip_non_border. fold (border_halfedges pmesh).
  pose proof (collector_inv_foldl pmesh vpmap (border_halfedges pmesh) _ []
                (collector_inv_nil pmesh vpmap)) as Hinv.
  simpl in Hinv.
  destruct (foldl _ _ (border_halfedges pmesh)) as [[bm ps] fs].
  destruct Hinv as (Hlen & Hent & Hcov & Hinj & Hps & Hid).
  rewrite elem_of_put_manifold_pairs. split.
  - intros (id & Hp & Hf).
    destruct (Hps _ _ Hp) as (i & k & mult & Hi & Hmult).
    destruct (Hent _ _ _ _ Hi) as (tl & Hocc & -> & Htl).
    destruct tl as [|h2' tl']; simpl in Hmult; [lia|].
    destruct (Htl _ _ eq_refl) as [Hp' Hf'].
    pose proof (eq_trans (eq_sym Hp') Hp) as [= -> ->].
    pose proof (eq_trans (eq_sym Hf') Hf) as [= Hf''].
    apply andb_true_iff in Hf'' as [Hdir Hnil].
    apply bool_decide_eq_true in Hnil as ->.
    split; [done|]. by apply dir_ok_true.
  - intros [Hocc Hdir].
    assert (Hin : h1 ∈ border_halfedges pmesh).
    { assert (Hh : h1 ∈ same_key_halfedges pmesh vpmap h1 (border_halfedges pmesh))
        by (rewrite Hocc; left).
      by apply list_elem_of_filter in Hh as [_ Hh]. }
    destruct (Hcov _ Hin) as (i & k & [mult id] & Hi & Hk).
    destruct (Hent _ _ _ _ Hi) as (tl & Hocc' & -> & Htl).
    rewrite (occ_same_key _ _ _ _ _ Hk), Hocc in Hocc'. simplify_eq.
    destruct (Htl _ _ eq_refl) as [Hp Hf]. exists id. split; [done|].
    rewrite Hf. apply dir_ok_true in Hdir. by rewrite Hdir.
Qed.

(** C3, as the code has it.  A vertex is marked unstitchable exactly when
    it is the source or the target of a halfedge of a key that has neither
    one halfedge nor two halfedges that both lie on border edges (the
    halfedge or its opposite is a border halfedge); the engine then runs on
    the candidates with no end among the marked vertices, with the
    union-find built from these candidates alone. *)
Theorem manifold_safety_filter (pmesh : PM) (to_stitch : list halfedges_pair) :
  (∀ (halfedges_after_stitching : Halfedges_after_stitching) v,
     v ∈ find_unstitchable_vertices pmesh halfedges_after_stitching ↔
     ∃ key hds, halfedges_after_stitching !! key = Some hds ∧ marked_by pmesh hds v)
  ∧ stitch_borders_impl pmesh to_stitch =
    (unsafe ← unsafe_vertices pmesh to_stitch;
     let stitched := filter (λ hk, ¬ touches_unsafe pmesh unsafe hk) to_stitch in
     run_stitch_borders pmesh stitched
       (merge_vertices pmesh stitched).1 (merge_vertices pmesh stitched).2).
Proof.
  split; [apply elem_of_find_unstitchable_vertices|].
  rewrite stitch_borders_impl_filtered. unfold surviving_pairs.
  destruct (unsafe_vertices pmesh to_stitch) as [unsafe|]; simpl; [|done].
  by destruct (merge_vertices pmesh _).
Qed.

(** C3, as the specification words it, fails on the two triangles: the key
    of the vertices 4 and 5 has the two halfedges 7 and 2, the halfedge 7
    has a face, and yet no vertex is marked. *)
Lemma filter_accepts_face_halfedge_of_border_edge :
  ∃ halfedges_after_stitching,
    two_triangles_keys = Some halfedges_after_stitching
    ∧ halfedges_after_stitching !! (4, 5) = Some [7; 2]
    ∧ is_border 7 two_triangles = false
    ∧ ¬ (∀ v, v ∈ find_unstitchable_vertices two_triangles halfedges_after_stitching ↔
              ∃ key hds, halfedges_after_stitching !! key = Some hds
                         ∧ marked_by_border_halfedges two_triangles hds v).
Proof.
  eexists. split; [vm_compute; reflexivity|].
  split; [vm_compute; reflexivity|]. split; [vm_compute; reflexivity|].
  intros Hall. specialize (Hall 4).
  assert (Hin : 4 ∈ find_unstitchable_vertices two_triangles
                  (default ∅ two_triangles_keys)).
  { apply Hall. exists (4, 5), [7; 2]. split; [vm_compute; reflexivity|].
    split.
    - split; [simpl; lia|]. intros [_ Hb]. apply Forall_cons in Hb as [Hb _].
      vm_compute in Hb. discriminate.
    - exists 7. split; [left|]. right. vm_compute. reflexivity. }
  vm_compute in Hin. discriminate Hin.
Qed.

(** C4.  The mesh that [stitch_borders(pmesh, np)] leaves is the mesh of
    three passes in a row: the stitching of all boundary cycles, the
    stitching of the pairs collected on the mesh of the first pass, and the
    stitching of all boundary cycles once more. *)
Theorem stitch_borders_passes (pmesh : PM) (vpm : vertex_descriptor → Point)
    (per_cc : bool) (connected_components : PM → nat * (face_descriptor → nat)) :
  snd <$> stitch_borders pmesh vpm per_cc connected_components =
  (pmesh1 ← snd <$> stitch_boundary_cycles pmesh vpm;
   pmesh2 ← snd <$> stitch_borders_pairs pmesh1
               (collect_duplicated_stitchable_boundary_edges pmesh1 vpm per_cc
                  connected_components);
   snd <$> stitch_boundary_cycles pmesh2 vpm).
Proof.
  unfold stitch_borders.
  destruct (stitch_boundary_cycles pmesh vpm) as [[n1 pmesh1]|]; simpl; [|done].
  destruct (stitch_borders_pairs pmesh1 _) as [[r2 pmesh2]|]; simpl; [|done].
  by destruct (stitch_boundary_cycles pmesh2 vpm) as [[n3 pmesh3]|].
Qed.

(** C5.  For every stitching call, on a mesh whose halfedges come in pairs
    of opposites, with [log] the pairs that the engine has stitched during
    the call and the vertices of the mesh that it has deleted: every
    stitched pair [(h1, h2)] has taken [h2] and its opposite from the mesh
    and nothing else has left it, the number of halfedges has dropped by
    two for every second halfedge of a stitched pair, which is twice the
    number of stitched pairs when no second halfedge is listed twice, and
    the number of vertices has dropped by the number of deleted
    vertices. *)
Theorem stitch_count_conservation (pmesh : PM) (vpm : vertex_descriptor → Point) :
  valid_opposites pmesh →
  (∀ hedge_pairs_to_stitch r pmesh',
     stitch_borders_pairs pmesh hedge_pairs_to_stitch = Some (r, pmesh') →
     ∃ log, stitch_borders_impl_log pmesh hedge_pairs_to_stitch = Some log
            ∧ conserved pmesh pmesh' log)
  ∧ (∀ per_cc connected_components r pmesh',
       stitch_borders pmesh vpm per_cc connected_components = Some (r, pmesh') →
       ∃ log, stitch_borders_log pmesh vpm per_cc connected_components = Some log
              ∧ conserved pmesh pmesh' log)
  ∧ (∀ h n pmesh',
       stitch_boundary_cycle h pmesh vpm = Some (n, pmesh') →
       ∃ log, stitch_boundary_cycle_log h pmesh vpm = Some log
              ∧ conserved pmesh pmesh' log)
  ∧ (∀ n pmesh',
       stitch_boundary_cycles pmesh vpm = Some (n, pmesh') →
       ∃ log, stitch_boundary_cycles_log pmesh vpm = Some log
              ∧ conserved pmesh pmesh' log).
Proof.
  intros Hv. split; [|split; [|split]].
  - intros to_stitch r pmesh' Hcall.
    destruct (stitching_effect_pairs _ _ _ _ Hv Hcall) as (log & Hlog & Heff).
    exists log. split; [done|]. by apply stitching_effect_conserved.
  - intros per_cc cc r pmesh' Hcall.
    destruct (stitching_effect_stitch_borders _ _ _ _ _ _ Hv Hcall) as (log & Hlog & Heff).
    exists log. split; [done|]. by apply stitching_effect_conserved.
  - intros h n pmesh' Hcall.
    destruct (stitching_effect_boundary_cycle _ _ _ _ _ Hv Hcall) as (log & Hlog & Heff).
    exists log. split; [done|]. by apply stitching_effect_conserved.
  - intros n pmesh' Hcall.
    destruct (stitching_effect_boundary_cycles _ _ _ _ Hv Hcall) as (log & Hlog & Heff).
    exists log. split; [done|]. by apply stitching_effect_conserved.
Qed.

(** On the four triangles [stitch_borders(pmesh, np)] stitches three pairs,
    two in its pass over the candidates of the collector and one in its
    last pass over the boundary cycles, and deletes three vertices. *)
Lemma stitch_count_conservation_witness :
  valid_opposites four_triangles
  ∧ ∃ pmesh' log,
      stitch_borders four_triangles four_triangles_points false no_components
        = Some (tt, pmesh')
      ∧ stitch_borders_log four_triangles four_triangles_points false no_components
        = Some log
      ∧ length log.1 = 3 ∧ size log.2 = 3
      ∧ conserved four_triangles pmesh' log.
Proof.
  assert (Hv : valid_opposites four_triangles)
    by (apply opp_closedb_sound; vm_compute; reflexivity).
  split; [exact Hv|].
  destruct (stitch_borders four_triangles four_triangles_points false no_components)
    as [[[] pmesh']|] eqn:Hcall; [|vm_compute in Hcall; discriminate].
  destruct (proj1 (proj2 (stitch_count_conservation four_triangles four_triangles_points
                            Hv)) false no_components tt pmesh' Hcall)
    as (log & Hlog & Hcons).
  exists pmesh', log. split; [done|]. split; [done|].
  split; [|split; [|done]].
  - vm_compute in Hlog. injection Hlog as <-. reflexivity.
  - vm_compute in Hlog. injection Hlog as <-. vm_compute. reflexivity.
Defined.

(** C6, at the input on which the code misses it.  On the fan, the
    halfedge 2 fulfils the fold condition; [stitch_boundary_cycle] called
    with the halfedge 2 does not scan it, finds no starting point and
    stitches nothing, and called with the next halfedge 14 of the same
    cycle it finds the starting point 2 and stitches one pair. *)
Lemma stitch_boundary_cycle_skips_fold_at_h :
  is_fold_point 2 fan fan_points
  ∧ stitching_starting_points (walk_bound fan) 2 (next 2 fan) fan fan_points = Some []
  ∧ stitch_boundary_cycle 2 fan fan_points = Some (0, fan)
  ∧ stitching_starting_points (walk_bound fan) 14 (next 14 fan) fan fan_points = Some [2]
  ∧ ∃ pm', stitch_boundary_cycle 14 fan fan_points = Some (1, pm').
Proof.
  split; [split; vm_compute; [reflexivity|discriminate]|].
  split; [vm_compute; reflexivity|]. split; [vm_compute; reflexivity|].
  split; [vm_compute; reflexivity|]. eexists. vm_compute. reflexivity.
Qed.

(** C7.  The walk of [stitch_boundary_cycle] from [h] and [hn] pairs its
    successive candidates, the [i]-th predecessor of [h] with the [i]-th
    successor of [hn], and it terminates before it pairs two candidates
    whose opposites share their face: when the opposites of the [i]-th
    candidates have the same face, the walk has collected at most the [i]
    pairs before them.  So every pair it collects, and hands to
    [stitch_borders_impl], has the opposites of its two halfedges on
    different faces. *)
Theorem walk_never_pairs_same_face (fuel : nat) (h hn : halfedge_descriptor) (pm : PM)
    (vpm : vertex_descriptor → Point) (stitched_hedges : gset halfedge_descriptor)
    (hedges_to_stitch : list halfedges_pair) (stitched_hedges' : gset halfedge_descriptor) :
  collect_hedges_to_stitch fuel h hn pm vpm [] stitched_hedges
    = Some (hedges_to_stitch, stitched_hedges') →
  (∀ hk, hk ∈ hedges_to_stitch →
         face (opposite hk.1 pm) pm ≠ face (opposite hk.2 pm) pm)
  ∧ (∀ i hk, hedges_to_stitch !! i = Some hk →
             hk = (Nat.iter i (λ y, prev y pm) h, Nat.iter i (λ y, next y pm) hn))
  ∧ ∀ i, face (opposite (Nat.iter i (λ y, prev y pm) h) pm) pm
         = face (opposite (Nat.iter i (λ y, next y pm) hn) pm) pm →
         length hedges_to_stitch ≤ i.
Proof.
  intros Hw. split.
  - eapply collect_hedges_to_stitch_faces; [exact Hw|]. intros hk []%elem_of_nil.
  - apply collect_hedges_to_stitch_stops in Hw as (new & -> & Hnew & Hstop). done.
Qed.

(** On the one triangle the opposites of the border halfedges 2 and 6 lie on
    the one face: the walk stops at once, with no pair.  On the fan the walk
    from 2 and 14 collects this pair, whose opposites lie on two faces. *)
Lemma walk_never_pairs_same_face_witness :
  (collect_hedges_to_stitch (walk_bound one_triangle) 2 6 one_triangle
     two_triangles_points [] ∅ = Some ([], ∅)
   ∧ face (opposite 2 one_triangle) one_triangle
     = face (opposite 6 one_triangle) one_triangle)
  ∧ collect_hedges_to_stitch (walk_bound fan) 2 14 fan fan_points [] ∅
    = Some ([(2, 14)], {[14; 2]})
  ∧ (∀ hk, hk ∈ [(2, 14)] → face (opposite hk.1 fan) fan ≠ face (opposite hk.2 fan) fan)
  ∧ (∀ i hk, [(2, 14)] !! i = Some hk →
             hk = (Nat.iter i (λ y, prev y fan) 2, Nat.iter i (λ y, next y fan) 14))
  ∧ ∀ i, face (opposite (Nat.iter i (λ y, prev y fan) 2) fan) fan
         = face (opposite (Nat.iter i (λ y, next y fan) 14) fan) fan →
         length [(2, 14)] ≤ i.
Proof.
  assert (Hw : collect_hedges_to_stitch (walk_bound fan) 2 14 fan fan_points [] ∅
               = Some ([(2, 14)], {[14; 2]})) by (vm_compute; reflexivity).
  split; [split; vm_compute; reflexivity|].
  split; [exact Hw|].
  exact (walk_never_pairs_same_face _ _ _ _ _ _ _ _ Hw).
Defined.

(** C8, as the code has it.  [stitch_borders(pmesh, np)] is a [void]
    function: what it returns is [tt], and the numbers of pairs that its two
    passes over the boundary cycles return are dropped. *)
Theorem stitch_borders_returns_void (pmesh : PM) (vpm : vertex_descriptor → Point)
    (per_cc : bool) (connected_components : PM → nat * (face_descriptor → nat))
    (r : unit) (pmesh' : PM) :
  stitch_borders pmesh vpm per_cc connected_components = Some (r, pmesh') →
  r = tt
  ∧ ∃ n1 pmesh1 pmesh2 n3,
      stitch_boundary_cycles pmesh vpm = Some (n1, pmesh1)
      ∧ stitch_borders_pairs pmesh1
          (collect_duplicated_stitchable_boundary_edges pmesh1 vpm per_cc
             connected_components) = Some (tt, pmesh2)
      ∧ stitch_boundary_cycles pmesh2 vpm = Some (n3, pmesh').
Proof.
  intros ([n1 pmesh1] & H1 & Hrest)%bind_Some.
  apply bind_Some in Hrest as ([[] pmesh2] & H2 & Hrest).
  apply bind_Some in Hrest as ([n3 pmesh3] & H3 & [= ? <-]).
  split; [by destruct r|]. by exists n1, pmesh1, pmesh2, n3.
Qed.

Lemma stitch_borders_returns_void_witness :
  stitch_borders two_triangles two_triangles_points false no_components
    = Some (tt, two_triangles_stitched)
  ∧ ∃ n1 pmesh1 pmesh2 n3,
      stitch_boundary_cycles two_triangles two_triangles_points = Some (n1, pmesh1)
      ∧ stitch_borders_pairs pmesh1
          (collect_duplicated_stitchable_boundary_edges pmesh1 two_triangles_points false
             no_components) = Some (tt, pmesh2)
      ∧ stitch_boundary_cycles pmesh2 two_triangles_points
        = Some (n3, two_triangles_stitched).
Proof.
  assert (H : stitch_borders two_triangles two_triangles_points false no_components
              = Some (tt, two_triangles_stitched)) by (vm_compute; reflexivity).
  split; [exact H|].
  exact (proj2 (stitch_borders_returns_void _ _ _ _ _ _ H)).
Defined.

(** C8, as the specification words it, fails: [stitch_borders] returns the
    same value on the two triangles, where one pair is stitched and two
    halfedges go, and on one triangle, where nothing is stitched; no
    reading of the returned value gives the number of stitched pairs. *)
Lemma stitch_borders_result_is_no_count :
  stitch_borders two_triangles two_triangles_points false no_components
    = Some (tt, two_triangles_stitched)
  ∧ num_halfedges two_triangles_stitched + 2 * 1 = num_halfedges two_triangles
  ∧ stitch_borders one_triangle two_triangles_points false no_components
    = Some (tt, one_triangle)
  ∧ ¬ ∃ count : unit → nat,
        ∀ pmesh r pmesh',
          stitch_borders pmesh two_triangles_points false no_components
            = Some (r, pmesh') →
          num_halfedges pmesh' + 2 * count r = num_halfedges pmesh.
Proof.
  assert (H2 : stitch_borders two_triangles two_triangles_points false no_components
               = Some (tt, two_triangles_stitched)) by (vm_compute; reflexivity).
  assert (H1 : stitch_borders one_triangle two_triangles_points false no_components
               = Some (tt, one_triangle)) by (vm_compute; reflexivity).
  split; [exact H2|]. split; [vm_compute; reflexivity|]. split; [exact H1|].
  intros [count Hcount].
  pose proof (Hcount _ _ _ H2) as Ha. pose proof (Hcount _ _ _ H1) as Hb.
  vm_compute in Ha, Hb. lia.
Qed.




(** C10.  [stitch_borders(pmesh, hedge_pairs_to_stitch)] with no pair to
    stitch returns and leaves the mesh as it is. *)
Theorem stitch_borders_no_pair (pmesh : PM) :
  stitch_borders_pairs pmesh [] = Some (tt, pmesh).
Proof. unfold stitch_borders_pairs. by rewrite stitch_borders_impl_nil. Qed.

(** * Further properties of the code *)

(** ** The collector on any sequence of halfedges *)

Section collector_general.
Context (pmesh : PM) (vpmap : vertex_descriptor → Point).
Implicit Types (bs : list halfedge_descriptor) (h : halfedge_descriptor).

Lemma fill_pairs_fold_outputs bs h1 h2 :
  (h1, h2) ∈
    (let '(_, halfedge_pairs, manifold_halfedge_pairs) :=
       foldl (λ st he, fill_pairs he st (Less_for_halfedge pmesh vpmap) vpmap pmesh)
             ([], [], []) bs in
     put_manifold_pairs halfedge_pairs manifold_halfedge_pairs) ↔
  same_key_halfedges pmesh vpmap h1 bs = [h1; h2]
  ∧ directions_match pmesh vpmap h1 h2.
Proof.
  pose proof (collector_inv_foldl pmesh vpmap bs _ []
                (collector_inv_nil pmesh vpmap)) as Hinv.
  simpl in Hinv.
  destruct (foldl _ _ bs) as [[bm ps] fs].
  destruct Hinv as (Hlen & Hent & Hcov & Hinj & Hps & Hid).
  rewrite elem_of_put_manifold_pairs. split.
  - intros (id & Hp & Hf).
    destruct (Hps _ _ Hp) as (i & k & mult & Hi & Hmult).
    destruct (Hent _ _ _ _ Hi) as (tl & Hocc & -> & Htl).
    destruct tl as [|h2' tl']; simpl in Hmult; [lia|].
    destruct (Htl _ _ eq_refl) as [Hp' Hf'].
    pose proof (eq_trans (eq_sym Hp') Hp) as [= -> ->].
    pose proof (eq_trans (eq_sym Hf') Hf) as [= Hf''].
    apply andb_true_iff in Hf'' as [Hdir Hnil].
    apply bool_decide_eq_true in Hnil as ->.
    split; [done|]. by apply dir_ok_true.
  - intros [Hocc Hdir].
    assert (Hin : h1 ∈ bs).
    { assert (Hh : h1 ∈ same_key_halfedges pmesh vpmap h1 bs) by (rewrite Hocc; left).
      by apply list_elem_of_filter in Hh as [_ Hh]. }
    destruct (Hcov _ Hin) as (i & k & [mult id] & Hi & Hk).
    destruct (Hent _ _ _ _ Hi) as (tl & Hocc' & -> & Htl).
    rewrite (occ_same_key _ _ _ _ _ Hk), Hocc in Hocc'. simplify_eq.
    destruct (Htl _ _ eq_refl) as [Hp Hf]. exists id. split; [done|].
    rewrite Hf. apply dir_ok_true in Hdir. by rewrite Hdir.
Qed.

(** The lists of the components. *)
Lemma border_edges_per_cc_lookup num_component cc hs per i :
  length per = num_component →
  i < num_component →
  foldl (λ per he,
           if negb (is_border he pmesh) then per
           else alter (λ l, l ++ [he]) (cc_of_border num_component cc he pmesh) per)
        per hs !! i
  = (λ l, l ++ filter (λ h, cc_of_border num_component cc h pmesh = i)
                 (filter (λ h, is_border h pmesh = true) hs)) <$> per !! i.
Proof.
  intros Hlen Hi. revert per Hlen.
  induction hs as [|h hs IH]; intros per Hlen; simpl.
  - destruct (per !! i); simpl; [|done]. by rewrite app_nil_r.
  - rewrite (filter_cons (λ h, is_border h pmesh = true)).
    destruct (is_border h pmesh) eqn:Hb; simpl; [|by apply IH].
    rewrite IH by (by rewrite length_alter).
    rewrite filter_cons. rewrite list_lookup_alter.
    destruct (decide (cc_of_border num_component cc h pmesh = i)) as [->|Hne].
    + destruct (per !! _); simpl; [|done]. by rewrite <-app_assoc.
    + done.
Qed.
End collector_general.

Lemma collector_per_component_classes (pmesh : PM) (vpmap : vertex_descriptor → Point)
    (connected_components : PM → nat * (face_descriptor → nat))
    (h1 h2 : halfedge_descriptor) :
  (h1, h2) ∈ collect_duplicated_stitchable_boundary_edges pmesh vpmap true
               connected_components ↔
  ∃ i, i < (connected_components pmesh).1
       ∧ same_key_halfedges pmesh vpmap h1
           (border_halfedges_of_cc pmesh (connected_components pmesh).1
              (connected_components pmesh).2 i) = [h1; h2]
       ∧ directions_match pmesh vpmap h1 h2.
Proof.
  unfold collect_duplicated_stitchable_boundary_edges.
  destruct (connected_components pmesh) as [num_component cc]. simpl.
  rewrite list_elem_of_join. split.
  - intros (out & Hin & Hout).
    apply list_elem_of_fmap in Hout as (i & -> & Hi%elem_of_seq).
    exists i. split; [lia|].
    rewrite border_edges_per_cc_lookup in Hin by (rewrite ?length_replicate; lia).
    rewrite lookup_replicate_2 in Hin by lia. simpl in Hin.
    by apply fill_pairs_fold_outputs in Hin.
  - intros (i & Hi & Hspec). eexists. split; [|apply list_elem_of_fmap; exists i; split;
      [reflexivity|apply elem_of_seq; lia]].
    rewrite border_edges_per_cc_lookup by (rewrite ?length_replicate; lia).
    rewrite lookup_replicate_2 by lia. simpl.
    by apply fill_pairs_fold_outputs.
Qed.

(** X1.  In the per-component mode, on a mesh where the opposite of every
    border halfedge has a face and the component of that face is below the
    number of components (the index into [border_edges_per_cc] is in
    range), the collector outputs the pair [(h1, h2)] exactly when, for
    some component, the border halfedges of that component that have the
    key of [h1] are [h1] then [h2] and no other one, and the directions
    match: both halfedges of a pair lie in one component, and halfedges of
    other components with the same key do not count. *)
Theorem collector_per_component (pmesh : PM) (vpmap : vertex_descriptor → Point)
    (connected_components : PM → nat * (face_descriptor → nat))
    (h1 h2 : halfedge_descriptor) :
  components_in_range pmesh (connected_components pmesh).1 (connected_components pmesh).2 →
  (h1, h2) ∈ collect_duplicated_stitchable_boundary_edges pmesh vpmap true
               connected_components ↔
  ∃ i, same_key_halfedges pmesh vpmap h1
         (border_halfedges_of_cc pmesh (connected_components pmesh).1
            (connected_components pmesh).2 i) = [h1; h2]
       ∧ directions_match pmesh vpmap h1 h2.
Proof.
  intros Hrange. rewrite collector_per_component_classes. split.
  - intros (i & _ & Hspec). by exists i.
  - intros (i & Hsame & Hdir). exists i. split; [|done].
    assert (Hin : h1 ∈ same_key_halfedges pmesh vpmap h1
                    (border_halfedges_of_cc pmesh (connected_components pmesh).1
                       (connected_components pmesh).2 i))
      by (rewrite Hsame; left).
    apply list_elem_of_filter in Hin as [_ Hin].
    apply list_elem_of_filter in Hin as [Hcc Hin].
    apply (proj1 (Forall_forall _ _) Hrange) in Hin as (f & Hf & Hlt).
    unfold cc_of_border in Hcc. rewrite Hf in Hcc. by subst i.
Qed.

Lemma collector_per_component_witness :
  (2, 8) ∈ collect_duplicated_stitchable_boundary_edges two_triangles
             two_triangles_points true (λ _, (1, λ _, 0)) ↔
  ∃ i, same_key_halfedges two_triangles two_triangles_points 2
         (border_halfedges_of_cc two_triangles 1 (λ _, 0) i) = [2; 8]
       ∧ directions_match two_triangles two_triangles_points 2 8.
Proof.
  apply (collector_per_component two_triangles two_triangles_points (λ _, (1, λ _, 0))).
  unfold components_in_range.
  replace (border_halfedges two_triangles) with [2; 4; 6; 8; 10; 12]
    by (vm_compute; reflexivity).
  repeat constructor; eexists; (split; [vm_compute; reflexivity|simpl; lia]).
Defined.

(** X13.  With one component that holds every border halfedge, the
    per-component mode outputs the pairs of the global mode, in the same
    order. *)
Theorem collector_single_component (pmesh : PM) (vpmap : vertex_descriptor → Point)
    (connected_components : PM → nat * (face_descriptor → nat)) :
  (connected_components pmesh).1 = 1 →
  components_in_range pmesh 1 (connected_components pmesh).2 →
  collect_duplicated_stitchable_boundary_edges pmesh vpmap true connected_components
  = collect_duplicated_stitchable_boundary_edges pmesh vpmap false connected_components.
Proof.
  unfold collect_duplicated_stitchable_boundary_edges.
  destruct (connected_components pmesh) as [num_component cc]. simpl.
  intros -> Hrange. simpl. rewrite app_nil_r.
  rewrite (border_edges_per_cc_lookup pmesh 1 cc (halfedges pmesh) [[]] 0) by (simpl; lia).
  simpl. rewrite foldl_skip_non_border.
  fold (border_halfedges pmesh).
  assert (Hall : filter (λ h, cc_of_border 1 cc h pmesh = 0) (border_halfedges pmesh)
                 = border_halfedges pmesh); [|by rewrite Hall].
  unfold components_in_range in Hrange.
  induction Hrange as [|h hs (f & Hf & Hlt) _ IH]; [done|].
  rewrite filter_cons, IH. rewrite decide_True; [done|].
  unfold cc_of_border. rewrite Hf. lia.
Qed.

Lemma collector_single_component_witness :
  collect_duplicated_stitchable_boundary_edges two_triangles two_triangles_points true
    (λ _, (1, λ _, 0))
  = collect_duplicated_stitchable_boundary_edges two_triangles two_triangles_points false
      (λ _, (1, λ _, 0)).
Proof.
  apply (collector_single_component two_triangles two_triangles_points (λ _, (1, λ _, 0)));
    [reflexivity|].
  unfold components_in_range.
  replace (border_halfedges two_triangles) with [2; 4; 6; 8; 10; 12]
    by (vm_compute; reflexivity).
  repeat constructor; eexists; (split; [vm_compute; reflexivity|simpl; lia]).
Defined.

Lemma filter_eq_two {A} (P : A → Prop) `{!∀ x, Decision (P x)} (l : list A) a b :
  filter P l = [a; b] →
  ∃ l1 l2 l3, l = l1 ++ a :: l2 ++ b :: l3
              ∧ Forall (λ x, ¬ P x) (l1 ++ l2 ++ l3).
Proof.
  assert (Hone : ∀ l c, filter P l = [c] →
            ∃ l2 l3, l = l2 ++ c :: l3 ∧ Forall (λ x, ¬ P x) (l2 ++ l3)).
  { clear l a b. intros l c. induction l as [|x l IH]; [done|].
    rewrite filter_cons. destruct (decide (P x)) as [Hx|Hx].
    - intros [= -> Hnil]. exists [], l. split; [done|]. simpl.
      apply Forall_forall. intros y Hy HPy.
      eapply filter_nil_not_elem_of; [exact Hnil|exact HPy|exact Hy].
    - intros (l2 & l3 & -> & Hall)%IH. exists (x :: l2), l3. split; [done|].
      simpl. by constructor. }
  induction l as [|x l IH]; [done|].
  rewrite filter_cons. destruct (decide (P x)) as [Hx|Hx].
  - intros [= -> (l2 & l3 & -> & Hall)%Hone]. by exists [], l2, l3.
  - intros (l1 & l2 & l3 & -> & Hall)%IH. exists (x :: l1), l2, l3. split; [done|].
    simpl. by constructor.
Qed.

Section collector_pairs.
Context (pmesh : PM) (vpmap : vertex_descriptor → Point).
Implicit Types (bs : list halfedge_descriptor) (h : halfedge_descriptor).
Implicit Types (st : Collected).

Lemma fill_pairs_seconds he st :
  (fill_pairs he st (Less_for_halfedge pmesh vpmap) vpmap pmesh).1.2.*2 = st.1.2.*2
  ∨ (fill_pairs he st (Less_for_halfedge pmesh vpmap) vpmap pmesh).1.2.*2
    = st.1.2.*2 ++ [he].
Proof.
  destruct st as [[bm ps] fs]. unfold fill_pairs, map_insert.
  destruct (map_position _ he bm) as [i|]; simpl; [|by left].
  destruct (bm !! i) as [[k [mult id]]|]; simpl; [|by left].
  destruct (mult =? 1); simpl.
  - right. by rewrite fmap_app.
  - destruct (2 <? S mult); by left.
Qed.

Lemma foldl_fill_pairs_seconds bs st :
  ∃ l, (foldl (λ st he, fill_pairs he st (Less_for_halfedge pmesh vpmap) vpmap pmesh)
              st bs).1.2.*2 = st.1.2.*2 ++ l
       ∧ l `sublist_of` bs.
Proof.
  revert st. induction bs as [|he bs IH]; intros st; simpl.
  - exists []. by rewrite app_nil_r.
  - destruct (IH (fill_pairs he st (Less_for_halfedge pmesh vpmap) vpmap pmesh))
      as (l & -> & Hsub).
    destruct (fill_pairs_seconds he st) as [-> | ->].
    + exists l. split; [done|]. by apply sublist_cons.
    + exists (he :: l). split; [by rewrite <-app_assoc|]. by apply sublist_skip.
Qed.

Lemma put_manifold_pairs_sublist_aux (pre ps : list halfedges_pair) (fs : list bool) :
  omap (λ k, match fs !! k, (pre ++ ps) !! k with
             | Some true, Some p => Some p
             | _, _ => None
             end) (seq (length pre) (length ps)) `sublist_of` ps.
Proof.
  revert pre. induction ps as [|p ps IH]; intros pre; simpl; [done|].
  rewrite list_lookup_middle by done.
  specialize (IH (pre ++ [p])). rewrite length_app, Nat.add_1_r in IH.
  rewrite <-app_assoc in IH. simpl in IH.
  destruct (fs !! length pre) as [[]|].
  - by apply sublist_skip.
  - by apply sublist_cons.
  - by apply sublist_cons.
Qed.

Lemma put_manifold_pairs_sublist (ps : list halfedges_pair) (fs : list bool) :
  put_manifold_pairs ps fs `sublist_of` ps.
Proof. apply (put_manifold_pairs_sublist_aux [] ps fs). Qed.

Lemma NoDup_border_halfedges : NoDup (border_halfedges pmesh).
Proof. apply NoDup_filter, NoDup_halfedges. Qed.

Lemma collector_seconds_sublist cc :
  (collect_duplicated_stitchable_boundary_edges pmesh vpmap false cc).*2
    `sublist_of` border_halfedges pmesh.
Proof.
  unfold collect_duplicated_stitchable_boundary_edges.
  rewrite foldl_skip_non_border. fold (border_halfedges pmesh).
  destruct (foldl_fill_pairs_seconds (border_halfedges pmesh) ([], [], []))
    as (l & Hl & Hsub).
  destruct (foldl _ _ (border_halfedges pmesh)) as [[bm ps] fs]. simpl in Hl.
  subst l. etrans; [|exact Hsub].
  apply fmap_sublist, put_manifold_pairs_sublist.
Qed.

Lemma same_key_pair_distinct bs h1 h2 :
  NoDup bs → same_key_halfedges pmesh vpmap h1 bs = [h1; h2] → h1 ≠ h2.
Proof.
  intros Hnd Hocc ->.
  assert (Hnd' : NoDup (same_key_halfedges pmesh vpmap h2 bs)) by by apply NoDup_filter.
  rewrite Hocc in Hnd'. apply NoDup_cons in Hnd' as [Hnotin _]. apply Hnotin. left.
Qed.

Lemma same_key_of_second bs h1 h2 :
  same_key_halfedges pmesh vpmap h1 bs = [h1; h2] →
  same_key_halfedges pmesh vpmap h2 bs = [h1; h2].
Proof.
  intros Hocc. rewrite <-Hocc. apply occ_same_key.
  assert (Hin : h2 ∈ same_key_halfedges pmesh vpmap h1 bs)
    by (rewrite Hocc; right; left).
  by apply list_elem_of_filter in Hin as [? _].
Qed.
End collector_pairs.

(** X2.  Without the per-component mode, no halfedge occurs in two pairs of
    the collector's output or twice in one pair, and every pair is made of
    two border halfedges of the mesh, the first met before the second. *)
Theorem collector_pairs_disjoint (pmesh : PM) (vpmap : vertex_descriptor → Point)
    (connected_components : PM → nat * (face_descriptor → nat)) :
  let out := collect_duplicated_stitchable_boundary_edges pmesh vpmap false
               connected_components in
  NoDup (out.*1 ++ out.*2)
  ∧ ∀ h1 h2, (h1, h2) ∈ out →
      is_halfedge h1 pmesh ∧ is_halfedge h2 pmesh
      ∧ is_border h1 pmesh = true ∧ is_border h2 pmesh = true
      ∧ ∃ l1 l2 l3, border_halfedges pmesh = l1 ++ h1 :: l2 ++ h2 :: l3.
Proof.
  intros out.
  assert (Hspec : ∀ h1 h2, (h1, h2) ∈ out →
            same_key_halfedges pmesh vpmap h1 (border_halfedges pmesh) = [h1; h2]).
  { intros h1 h2 Hin. unfold out, collect_duplicated_stitchable_boundary_edges in Hin.
    rewrite foldl_skip_non_border in Hin.
    by apply fill_pairs_fold_outputs in Hin as [? _]. }
  assert (Hnd2 : NoDup out.*2).
  { eapply sublist_NoDup; [apply (NoDup_border_halfedges pmesh)|].
    apply collector_seconds_sublist. }
  assert (Hnd : NoDup out) by (by eapply NoDup_fmap_1).
  split.
  - apply NoDup_app. split; [|split; [|done]].
    + apply NoDup_fmap_2_strong; [|done].
      intros [h1 h2] [h1' h2'] Hin Hin' Heq. simpl in Heq. subst h1'.
      pose proof (Hspec _ _ Hin) as Ha. pose proof (Hspec _ _ Hin') as Hb.
      rewrite Ha in Hb. by injection Hb as ->.
    + intros x ([h1 h2] & -> & Hin)%list_elem_of_fmap
               ([h1' h2'] & Hx & Hin')%list_elem_of_fmap.
      simpl in Hx. subst h2'.
      pose proof (Hspec _ _ Hin) as Ha.
      pose proof (same_key_of_second _ _ _ _ _ (Hspec _ _ Hin')) as Hb.
      rewrite Ha in Hb. injection Hb as Hb1 Hb2. subst h1' h2.
      exact (same_key_pair_distinct pmesh vpmap _ _ _ (NoDup_border_halfedges pmesh)
               Ha eq_refl).
  - intros h1 h2 Hin. pose proof (Hspec _ _ Hin) as Hocc.
    assert (H1 : h1 ∈ border_halfedges pmesh).
    { assert (Hh : h1 ∈ same_key_halfedges pmesh vpmap h1 (border_halfedges pmesh))
        by (rewrite Hocc; left).
      by apply list_elem_of_filter in Hh as [_ ?]. }
    assert (H2 : h2 ∈ border_halfedges pmesh).
    { assert (Hh : h2 ∈ same_key_halfedges pmesh vpmap h1 (border_halfedges pmesh))
        by (rewrite Hocc; right; left).
      by apply list_elem_of_filter in Hh as [_ ?]. }
    apply list_elem_of_filter in H1 as [Hb1 Hl1]. apply list_elem_of_filter in H2 as [Hb2 Hl2].
    apply elem_of_halfedges in Hl1, Hl2.
    repeat (split; [done|]).
    unfold same_key_halfedges in Hocc.
    apply filter_eq_two in Hocc as (l1 & l2 & l3 & ? & _). by exists l1, l2, l3.
Qed.

(** X3.  On a mesh whose halfedges come in pairs of opposites and whose
    border halfedges have opposites with a face, the second halfedges of
    the pairs the collector outputs are halfedges of the mesh on pairwise
    distinct edges: the pairs can be stitched with two halfedges removed
    per stitched pair. *)
Theorem collector_pairs_distinct_edges (pmesh : PM) (vpmap : vertex_descriptor → Point)
    (connected_components : PM → nat * (face_descriptor → nat)) :
  valid_opposites pmesh →
  border_opposites_have_faces pmesh →
  distinct_live_edges pmesh
    (collect_duplicated_stitchable_boundary_edges pmesh vpmap false
       connected_components).*2.
Proof.
  intros Hv Hb.
  pose proof (collector_seconds_sublist pmesh vpmap connected_components) as Hsub.
  assert (Hin : ∀ x, x ∈ (collect_duplicated_stitchable_boundary_edges pmesh vpmap false
                            connected_components).*2 →
                     is_halfedge x pmesh ∧ is_border x pmesh = true).
  { intros x Hx. apply (sublist_subseteq _ _ Hsub) in Hx.
    apply list_elem_of_filter in Hx as [? Hx]. by apply elem_of_halfedges in Hx. }
  split.
  - apply Forall_forall. intros x Hx. by apply Hin.
  - apply NoDup_fmap_2_strong.
    + intros x y Hx Hy Heq.
      destruct (Hin _ Hx) as [Hlx Hbx]. destruct (Hin _ Hy) as [Hly Hby].
      apply is_halfedge_opposites in Hlx as [x' Hx'].
      pose proof Hly as Hly'. apply is_halfedge_opposites in Hly' as [y' Hy'].
      rewrite !edge_edge_opp in Heq.
      destruct (proj1 (edge_opp_eq _ _ _ _ _ Hx' Hy') Heq) as [[? _]|[Hxy _]]; [done|].
      exfalso. unfold border_opposites_have_faces in Hb.
      apply Forall_forall with (x := y) in Hb; [|by apply elem_of_halfedges].
      rewrite Hby in Hb. simpl in Hb.
      rewrite opposite_opposites, Hy' in Hb. simpl in Hb. congruence.
    + eapply sublist_NoDup; [apply NoDup_border_halfedges|exact Hsub].
Qed.

Lemma collector_pairs_distinct_edges_witness :
  valid_opposites two_triangles
  ∧ border_opposites_have_faces two_triangles
  ∧ collect_duplicated_stitchable_boundary_edges two_triangles two_triangles_points false
      no_components = [(2, 8)]
  ∧ distinct_live_edges two_triangles [8].
Proof.
  assert (Hv : valid_opposites two_triangles)
    by (apply opp_closedb_sound; vm_compute; reflexivity).
  assert (Hb : border_opposites_have_faces two_triangles).
  { unfold border_opposites_have_faces.
    replace (halfedges two_triangles) with [1; 2; 3; 4; 5; 6; 7; 8; 9; 10; 11; 12]
      by (vm_compute; reflexivity).
    repeat constructor. }
  split; [exact Hv|]. split; [exact Hb|]. split; [vm_compute; reflexivity|].
  exact (collector_pairs_distinct_edges two_triangles two_triangles_points no_components
           Hv Hb).
Defined.

(** ** The walk around a target vertex *)

Section fans.
Implicit Types (g : PM) (h x : halfedge_descriptor) (v : vertex_descriptor).
Implicit Types (fan : list halfedge_descriptor).

Lemma set_target_links h v g x :
  next x (set_target h v g) = next x g ∧ opposite x (set_target h v g) = opposite x g.
Proof.
  unfold next, opposite, set_target, upd_halfedges; simpl.
  rewrite lookup_alter. case_decide; [subst|done].
  by destruct (pm_halfedges g !! x).
Qed.


Lemma update_target_vertex_loop_fan fuel start pos v g g1 :
  (∀ x, next x g1 = next x g ∧ opposite x g1 = opposite x g) →
  update_target_vertex_loop fuel start pos v g1
  = (fan ← halfedges_around_target_from fuel start pos g;
     Some (foldl (λ g x, set_target x v g) g1 fan)).
Proof.
  revert pos g1. induction fuel as [|fuel IH]; intros pos g1 Hl; simpl; [done|].
  destruct (set_target_links pos v g1 pos) as [-> _].
  destruct (set_target_links pos v g1 (next pos g1)) as [_ ->].
  destruct (Hl pos) as [-> _]. destruct (Hl (next pos g)) as [_ ->].
  case_decide; [done|].
  rewrite (IH _ (set_target pos v g1)).
  - by destruct (halfedges_around_target_from fuel start _ g).
  - intros x. destruct (set_target_links pos v g1 x) as [-> ->]. apply Hl.
Qed.

Lemma update_target_vertex_fan h v g :
  update_target_vertex h v g
  = (fan ← halfedges_around_target_from (walk_bound g) h h g;
     Some (foldl (λ g x, set_target x v g) g fan)).
Proof. unfold update_target_vertex. by apply update_target_vertex_loop_fan. Qed.

Lemma with_target_idemp v r : with_target v (with_target v r) = with_target v r.
Proof. done. Qed.

Lemma foldl_set_target fan v g :
  pm_vertices (foldl (λ g x, set_target x v g) g fan) = pm_vertices g
  ∧ pm_faces (foldl (λ g x, set_target x v g) g fan) = pm_faces g
  ∧ ∀ x, pm_halfedges (foldl (λ g x, set_target x v g) g fan) !! x
         = (λ r, if decide (x ∈ fan) then with_target v r else r)
             <$> pm_halfedges g !! x.
Proof.
  revert g. induction fan as [|a fan IH]; intros g; simpl.
  - repeat split; try done. intros x. by destruct (pm_halfedges g !! x).
  - destruct (IH (set_target a v g)) as (-> & -> & Hh). repeat split; try done.
    intros x. rewrite Hh. unfold set_target, upd_halfedges; simpl.
    rewrite lookup_alter.
    destruct (decide (a = x)) as [->|Hne].
    + destruct (pm_halfedges g !! x) as [r|]; simpl; [|done].
      rewrite (decide_True (P := x ∈ x :: fan)) by left.
      by destruct (decide (x ∈ fan)).
    + destruct (pm_halfedges g !! x) as [r|]; simpl; [|done].
      destruct (decide (x ∈ fan)) as [Hin|Hnin].
      * by rewrite decide_True by by right.
      * rewrite decide_False; [done|]. by intros [->|?]%elem_of_cons.
Qed.

Lemma halfedges_around_target_from_head fuel anchor pos g fan :
  halfedges_around_target_from fuel anchor pos g = Some fan → pos ∈ fan.
Proof.
  destruct fuel as [|fuel]; simpl; [done|].
  case_decide; [intros [= <-]; left|].
  destruct (halfedges_around_target_from fuel anchor _ g); simpl; [|done].
  intros [= <-]. left.
Qed.
End fans.

(** X4.  [update_target_vertex(h, v_kept, pmesh)] returns exactly when the
    walk around the target of [h] comes back to [h]; it then has set the
    target of the halfedges of this walk ([h] among them) to [v_kept] and
    has changed nothing else: no next, previous or opposite halfedge, no
    face, no vertex record. *)
Theorem update_target_vertex_effect (h : halfedge_descriptor) (v_kept : vertex_descriptor)
    (pmesh pmesh' : PM) :
  update_target_vertex h v_kept pmesh = Some pmesh' ↔
  ∃ fan, halfedges_around_target_from (walk_bound pmesh) h h pmesh = Some fan
         ∧ h ∈ fan
         ∧ pm_vertices pmesh' = pm_vertices pmesh
         ∧ pm_faces pmesh' = pm_faces pmesh
         ∧ ∀ x, pm_halfedges pmesh' !! x
                = (λ r, if decide (x ∈ fan) then with_target v_kept r else r)
                    <$> pm_halfedges pmesh !! x.
Proof.
  rewrite update_target_vertex_fan. split.
  - intros (fan & Hfan & [= <-])%bind_Some. exists fan. split; [done|].
    split; [by eapply halfedges_around_target_from_head|].
    apply foldl_set_target.
  - intros (fan & Hfan & _ & Hv & Hf & Hh). rewrite Hfan. simpl. f_equal.
    destruct (foldl_set_target fan v_kept pmesh) as (Hv' & Hf' & Hh').
    destruct (foldl _ pmesh fan) as [hs vs fs], pmesh' as [hs' vs' fs']. simpl in *.
    f_equal; [|congruence..].
    apply map_eq. intros x. by rewrite Hh, Hh'.
Qed.

Section fan_termination.
Implicit Types (g : PM) (h x : halfedge_descriptor) (v : vertex_descriptor).
Implicit Types (seen : list halfedge_descriptor).

Lemma length_halfedges g : length (halfedges g) = size (pm_halfedges g).
Proof.
  unfold halfedges. rewrite merge_sort_Permutation, length_fmap.
  apply length_map_to_list.
Qed.

Lemma NoDup_halfedges_length g (l : list halfedge_descriptor) :
  NoDup l → (∀ x, x ∈ l → is_halfedge x g) → length l ≤ size (pm_halfedges g).
Proof.
  intros Hnd Hall. rewrite <-length_halfedges.
  apply submseteq_length, NoDup_submseteq; [done|].
  intros x Hx. by apply elem_of_halfedges, Hall.
Qed.

Lemma fan_step_inj g x y :
  fans_closed g → is_halfedge x g → is_halfedge y g →
  fan_step x g = fan_step y g → x = y.
Proof.
  intros [_ Hnd] Hx%elem_of_halfedges Hy%elem_of_halfedges Heq.
  apply list_elem_of_lookup in Hx as [i Hi]. apply list_elem_of_lookup in Hy as [j Hj].
  assert (i = j) as ->; [|congruence].
  eapply (NoDup_lookup _ i j (fan_step x g)); [exact Hnd|..];
    rewrite list_lookup_fmap; [by rewrite Hi|by rewrite Hj, Heq].
Qed.

Lemma fan_step_live g x : fans_closed g → is_halfedge x g → is_halfedge (fan_step x g) g.
Proof.
  intros [Hall _] Hx%elem_of_halfedges.
  by apply Forall_forall with (x := x) in Hall.
Qed.

(** The halfedges visited so far, [pos] last, are distinct halfedges of
    the mesh, each the step of the one before, the anchor first. *)
Lemma fans_closed_perm g : fans_closed g → fan_perm g.
Proof.
  intros Hc. split; [intros x; by apply fan_step_live|intros x y; by apply fan_step_inj].
Qed.

Lemma halfedges_around_target_from_closes g fuel anchor seen pos :
  fan_perm g →
  NoDup (seen ++ [pos]) →
  (∀ x, x ∈ seen ++ [pos] → is_halfedge x g) →
  head (seen ++ [pos]) = Some anchor →
  (∀ i x y, (seen ++ [pos]) !! i = Some x → (seen ++ [pos]) !! S i = Some y →
            y = fan_step x g) →
  size (pm_halfedges g) < fuel + length (seen ++ [pos]) →
  is_Some (halfedges_around_target_from fuel anchor pos g).
Proof.
  intros Hc. revert seen pos.
  induction fuel as [|fuel IH]; intros seen pos Hnd Hlive Hhead Hchain Hfuel.
  - pose proof (NoDup_halfedges_length g _ Hnd Hlive). simpl in Hfuel. lia.
  - simpl. fold (fan_step pos g). case_decide as Hback; [by eexists|].
    apply fmap_is_Some.
    assert (Hlen : length (seen ++ [pos]) = S (length seen))
      by (rewrite length_app; simpl; lia).
    assert (Hlast : (seen ++ [pos]) !! length seen = Some pos)
      by (by apply list_lookup_middle).
    apply (IH (seen ++ [pos])).
    + apply NoDup_app. split; [done|]. split; [|apply NoDup_singleton].
      intros y Hy ->%list_elem_of_singleton.
      apply list_elem_of_lookup in Hy as [j Hj].
      destruct j as [|i].
      { rewrite <-head_lookup, Hhead in Hj. by injection Hj as ->. }
      assert (Hi : is_Some ((seen ++ [pos]) !! i)).
      { apply lookup_lt_is_Some. apply lookup_lt_Some in Hj. lia. }
      destruct Hi as [x Hx].
      assert (x = pos) as ->.
      { apply (proj2 Hc).
        - apply Hlive. by eapply list_elem_of_lookup_2.
        - apply Hlive. by eapply list_elem_of_lookup_2.
        - symmetry. by eapply Hchain. }
      assert (i = length seen) as -> by (by eapply NoDup_lookup).
      apply lookup_lt_Some in Hj. lia.
    + intros x [Hx| ->%list_elem_of_singleton]%elem_of_app; [by apply Hlive|].
      apply (proj1 Hc). apply Hlive. by eapply list_elem_of_lookup_2.
    + rewrite head_app, Hhead. done.
    + intros i x y Hx Hy.
      destruct (decide (S i < length (seen ++ [pos]))) as [Hlt|Hge].
      * rewrite lookup_app_l in Hx by lia. rewrite lookup_app_l in Hy by lia.
        by eapply Hchain.
      * assert (S i = length (seen ++ [pos])) as Hi.
        { apply lookup_lt_Some in Hy. rewrite length_app in Hy. simpl in Hy. lia. }
        rewrite Hi, list_lookup_middle in Hy by done. injection Hy as <-.
        rewrite lookup_app_l in Hx by lia.
        assert (i = length seen) as -> by lia.
        rewrite Hlast in Hx. by injection Hx as <-.
    + rewrite length_app. simpl in *. lia.
Qed.

Lemma fan_walk_returns g h :
  fan_perm g → is_halfedge h g →
  is_Some (halfedges_around_target_from (walk_bound g) h h g).
Proof.
  intros Hc Hh.
  apply (halfedges_around_target_from_closes g (walk_bound g) h [] h); simpl.
  - done.
  - apply NoDup_singleton.
  - by intros x ->%list_elem_of_singleton.
  - done.
  - intros [|i] x y; [|done]. intros _ [=].
  - unfold walk_bound. lia.
Qed.
End fan_termination.

(** X5.  On a mesh in which the step around a target leads from halfedges
    of the mesh to halfedges of the mesh, and from different ones to
    different ones, [update_target_vertex] returns for every halfedge [h]
    of the mesh: its loop comes back to [h]. *)
Theorem update_target_vertex_returns (h : halfedge_descriptor) (v_kept : vertex_descriptor)
    (pmesh : PM) :
  fans_closed pmesh → is_halfedge h pmesh →
  is_Some (update_target_vertex h v_kept pmesh).
Proof.
  intros Hc Hh. rewrite update_target_vertex_fan.
  destruct (fan_walk_returns pmesh h) as [fan ->]; [by apply fans_closed_perm|done|].
  by eexists.
Qed.

Lemma update_target_vertex_returns_witness :
  fans_closed fan ∧ is_halfedge 2 fan ∧ is_Some (update_target_vertex 2 7 fan).
Proof.
  assert (Hc : fans_closed fan).
  { unfold fans_closed.
    replace (halfedges fan) with [1; 2; 3; 4; 5; 6; 7; 8; 9; 10; 11; 12; 13; 14]
      by (vm_compute; reflexivity).
    split.
    - repeat constructor; vm_compute; eexists; reflexivity.
    - replace ((λ x, fan_step x fan) <$> [1; 2; 3; 4; 5; 6; 7; 8; 9; 10; 11; 12; 13; 14])
        with [4; 13; 6; 1; 2; 8; 10; 3; 5; 12; 14; 7; 9; 11] by (vm_compute; reflexivity).
      apply (bool_decide_unpack _). vm_compute. exact I. }
  assert (Hh : is_halfedge 2 fan) by (vm_compute; eexists; reflexivity).
  split; [exact Hc|]. split; [exact Hh|].
  exact (update_target_vertex_returns 2 7 fan Hc Hh).
Defined.

(** ** What the surgery never does *)

Section shrinking.
Implicit Types (g : PM) (h : halfedge_descriptor) (v : vertex_descriptor).
Implicit Types (to_stitch : list halfedges_pair).

Lemma shrinks_refl g : shrinks g g.
Proof. done. Qed.

Lemma shrinks_trans g1 g2 g3 : shrinks g1 g2 → shrinks g2 g3 → shrinks g1 g3.
Proof.
  intros (Hf & Hh & Hv) (Hf' & Hh' & Hv'). split; [congruence|].
  split; etrans; done.
Qed.

Lemma shrinks_set_target h v g : shrinks g (set_target h v g).
Proof.
  split; [done|]. split; [|done]. unfold set_target, upd_halfedges; simpl.
  by rewrite dom_alter_L.
Qed.

Lemma shrinks_set_face h f g : shrinks g (set_face h f g).
Proof.
  split; [done|]. split; [|done]. unfold set_face, upd_halfedges; simpl.
  by rewrite dom_alter_L.
Qed.

Lemma shrinks_set_next h1 h2 g : shrinks g (set_next h1 h2 g).
Proof.
  split; [done|]. split; [|done]. unfold set_next, upd_halfedges; simpl.
  by rewrite !dom_alter_L.
Qed.

Lemma shrinks_set_halfedge v h g : shrinks g (set_halfedge v h g).
Proof.
  split; [done|]. split; [done|]. unfold set_halfedge; simpl.
  by rewrite dom_alter_L.
Qed.

Lemma shrinks_set_halfedge_face f h g : shrinks g (set_halfedge_face f h g).
Proof.
  destruct f as [f|]; [|done]. split; [|done].
  unfold set_halfedge_face; simpl. by rewrite dom_alter_L.
Qed.

Lemma shrinks_remove_edge e g : shrinks g (remove_edge e g).
Proof.
  split; [done|]. split; [|done]. unfold remove_edge, upd_halfedges; simpl.
  rewrite !dom_delete_L. set_solver.
Qed.

Lemma shrinks_remove_vertex v g : shrinks g (remove_vertex v g).
Proof.
  split; [done|]. split; [done|]. unfold remove_vertex; simpl.
  rewrite !dom_delete_L. set_solver.
Qed.

Lemma shrinks_foldl {A} (f : PM → A → PM) (l : list A) g :
  (∀ g a, shrinks g (f g a)) → shrinks g (foldl f g l).
Proof.
  intros Hf. revert g. induction l as [|a l IH]; intros g; simpl; [done|].
  eapply shrinks_trans; [apply Hf|apply IH].
Qed.

Lemma shrinks_update_target_vertex h v g g' :
  update_target_vertex h v g = Some g' → shrinks g g'.
Proof.
  rewrite update_target_vertex_fan. intros (fan & _ & [= <-])%bind_Some.
  apply shrinks_foldl. intros g1 x. apply shrinks_set_target.
Qed.

Lemma shrinks_guarded (P : Prop) `{!Decision P} h v g
    (vtd : list vertex_descriptor) x g' vtd' :
  (if decide P then pmesh ← update_target_vertex h v g; Some (pmesh, vtd ++ [x])
   else Some (g, vtd)) = Some (g', vtd') →
  shrinks g g'.
Proof.
  destruct (decide P); [|by intros [= <- <-]].
  intros (g1 & Hu & [= <- <-])%bind_Some.
  by eapply shrinks_update_target_vertex.
Qed.

Lemma shrinks_update_vertex_pointers hk st st' :
  update_vertex_pointers hk st = Some st' → shrinks (sg_pmesh st) (sg_pmesh st').
Proof.
  destruct st as [g uf hs vtd]. unfold update_vertex_pointers.
  destruct (uf_get_handle (target hk.1 g) uf hs) as [[hdl1 uf1] hs1].
  intros H.
  apply bind_Some in H as ([g1 vtd1] & H1 & H).
  apply bind_Some in H as ([g2 vtd2] & H2 & H).
  destruct (uf_get_handle _ uf1 hs1) as [[hdl2 uf2] hs2].
  apply bind_Some in H as ([g3 vtd3] & H3 & H).
  apply bind_Some in H as ([g4 vtd4] & H4 & H).
  injection H as <-. simpl.
  apply shrinks_guarded in H1, H2, H3, H4.
  eapply shrinks_trans; [exact H1|]. eapply shrinks_trans; [exact H2|].
  eapply shrinks_trans; [apply shrinks_set_halfedge|].
  eapply shrinks_trans; [exact H3|]. eapply shrinks_trans; [exact H4|].
  apply shrinks_set_halfedge.
Qed.

Lemma shrinks_update_vertex_pointers_loop to_stitch st st' :
  update_vertex_pointers_loop to_stitch st = Some st' →
  shrinks (sg_pmesh st) (sg_pmesh st').
Proof.
  revert st. induction to_stitch as [|hk l IH]; intros st; simpl.
  - by intros [= <-].
  - intros (st1 & H1 & H2)%bind_Some.
    eapply shrinks_trans; [by eapply shrinks_update_vertex_pointers|]. by apply IH.
Qed.

Lemma shrinks_link_neighbors g hk : shrinks g (link_neighbors g hk).
Proof.
  unfold link_neighbors. eapply shrinks_trans; apply shrinks_set_next.
Qed.

Lemma shrinks_remove_second_halfedge g hk : shrinks g (remove_second_halfedge g hk).
Proof.
  unfold remove_second_halfedge. cbv zeta.
  eapply shrinks_trans; [|apply shrinks_remove_edge].
  eapply shrinks_trans; [|apply shrinks_set_next].
  eapply shrinks_trans; [|apply shrinks_set_next].
  eapply shrinks_trans; [|apply shrinks_set_halfedge_face].
  apply shrinks_set_face.
Qed.

Lemma shrinks_run_stitch_borders g to_stitch uf hs g' :
  run_stitch_borders g to_stitch uf hs = Some g' → shrinks g g'.
Proof.
  unfold run_stitch_borders. intros (st & Hst & [= <-])%bind_Some.
  apply shrinks_update_vertex_pointers_loop in Hst. simpl in Hst.
  eapply shrinks_trans; [exact Hst|].
  eapply shrinks_trans;
    [apply (shrinks_foldl link_neighbors to_stitch); apply shrinks_link_neighbors|].
  eapply shrinks_trans;
    [apply (shrinks_foldl remove_second_halfedge to_stitch);
     apply shrinks_remove_second_halfedge|].
  apply shrinks_foldl. intros g1 v. apply shrinks_remove_vertex.
Qed.

Lemma shrinks_stitch_borders_impl g to_stitch g' :
  stitch_borders_impl g to_stitch = Some g' → shrinks g g'.
Proof.
  rewrite stitch_borders_impl_filtered.
  intros (stitched & _ & Hrun)%bind_Some.
  destruct (merge_vertices g stitched) as [uf hs].
  by eapply shrinks_run_stitch_borders.
Qed.

Lemma shrinks_stitch_starting_points sps stitched g vpm n n' g' :
  stitch_starting_points sps stitched g vpm n = Some (n', g') → shrinks g g'.
Proof.
  revert stitched g n. induction sps as [|h sps IH]; intros stitched g n; simpl.
  - by intros [= _ <-].
  - case_decide; [by apply IH|].
    intros ([ps stitched'] & _ & Hrest)%bind_Some.
    destruct (negb _); [|by eapply IH].
    apply bind_Some in Hrest as (g1 & Himpl & Hrest).
    eapply shrinks_trans; [by eapply shrinks_stitch_borders_impl|by eapply IH].
Qed.

Lemma shrinks_stitch_boundary_cycle h g vpm n' g' :
  stitch_boundary_cycle h g vpm = Some (n', g') → shrinks g g'.
Proof.
  intros (sps & _ & Hrest)%bind_Some. by eapply shrinks_stitch_starting_points.
Qed.

Lemma shrinks_stitch_boundary_cycles_loop cycles g vpm n n' g' :
  stitch_boundary_cycles_loop cycles g vpm n = Some (n', g') → shrinks g g'.
Proof.
  revert g n. induction cycles as [|h cycles IH]; intros g n; simpl.
  - by intros [= _ <-].
  - intros ([k g1] & Hc & Hrest)%bind_Some.
    eapply shrinks_trans; [by eapply shrinks_stitch_boundary_cycle|by eapply IH].
Qed.

Lemma shrinks_stitch_boundary_cycles g vpm n' g' :
  stitch_boundary_cycles g vpm = Some (n', g') → shrinks g g'.
Proof.
  intros (cycles & _ & Hrest)%bind_Some.
  by eapply shrinks_stitch_boundary_cycles_loop.
Qed.

Lemma shrinks_stitch_borders_pairs g to_stitch r g' :
  stitch_borders_pairs g to_stitch = Some (r, g') → shrinks g g'.
Proof.
  intros (g1 & Himpl & [= _ <-])%bind_Some. by eapply shrinks_stitch_borders_impl.
Qed.
End shrinking.

(** X6.  No stitching call creates a halfedge or a vertex, and none creates
    or removes a face: the mesh a call leaves has the faces of the mesh it
    was given, and its halfedges and vertices are among those of that
    mesh. *)
Theorem stitching_never_creates (pmesh : PM) (vpm : vertex_descriptor → Point) :
  (∀ hedge_pairs_to_stitch r pmesh',
     stitch_borders_pairs pmesh hedge_pairs_to_stitch = Some (r, pmesh') →
     shrinks pmesh pmesh')
  ∧ (∀ per_cc connected_components r pmesh',
       stitch_borders pmesh vpm per_cc connected_components = Some (r, pmesh') →
       shrinks pmesh pmesh')
  ∧ (∀ h n pmesh', stitch_boundary_cycle h pmesh vpm = Some (n, pmesh') →
       shrinks pmesh pmesh')
  ∧ (∀ n pmesh', stitch_boundary_cycles pmesh vpm = Some (n, pmesh') →
       shrinks pmesh pmesh').
Proof.
  split; [|split; [|split]].
  - intros to_stitch r pmesh' Hcall. by eapply shrinks_stitch_borders_pairs.
  - intros per_cc cc r pmesh' ([n1 g1] & H1 & Hrest)%bind_Some.
    apply bind_Some in Hrest as ([r2 g2] & H2 & Hrest).
    apply bind_Some in Hrest as ([n3 g3] & H3 & [= _ <-]).
    eapply shrinks_trans; [by eapply shrinks_stitch_boundary_cycles|].
    eapply shrinks_trans; [by eapply shrinks_stitch_borders_pairs|].
    by eapply shrinks_stitch_boundary_cycles.
  - intros h n pmesh' Hcall. by eapply shrinks_stitch_boundary_cycle.
  - intros n pmesh' Hcall. by eapply shrinks_stitch_boundary_cycles.
Qed.

Lemma stitching_never_creates_witness :
  ∃ r pmesh', stitch_borders_pairs two_triangles [(2, 8)] = Some (r, pmesh')
              ∧ shrinks two_triangles pmesh'.
Proof.
  eexists _, _. split; [vm_compute; reflexivity|].
  destruct (stitching_never_creates two_triangles two_triangles_points) as [Hpairs _].
  apply (Hpairs [(2, 8)] tt). vm_compute. reflexivity.
Defined.

(** ** The boundary cycle stitcher *)

Section cycles.
Implicit Types (g : PM) (h hn x : halfedge_descriptor) (vpm : vertex_descriptor → Point).

Lemma stitch_starting_points_count sps stitched g vpm n n' g' :
  stitch_starting_points sps stitched g vpm n = Some (n', g') →
  n ≤ n' ∧ (n' = n → g' = g).
Proof.
  revert stitched g n. induction sps as [|h sps IH]; intros stitched g n; simpl.
  - intros [= <- <-]. done.
  - case_decide; [by apply IH|].
    intros ([ps stitched'] & _ & Hrest)%bind_Some.
    destruct ps as [|p ps]; simpl in Hrest; [by eapply IH|].
    apply bind_Some in Hrest as (g1 & _ & Hrest).
    apply IH in Hrest as [Hle _]. simpl in Hle. split; lia.
Qed.

Lemma stitch_boundary_cycles_loop_count cycles g vpm n n' g' :
  stitch_boundary_cycles_loop cycles g vpm n = Some (n', g') →
  n ≤ n' ∧ (n' = n → g' = g).
Proof.
  revert g n. induction cycles as [|h cycles IH]; intros g n; simpl.
  - intros [= <- <-]. done.
  - intros ([k g1] & Hc & Hrest)%bind_Some.
    apply bind_Some in Hc as (sps & _ & Hc).
    apply stitch_starting_points_count in Hc as [_ Hc].
    apply IH in Hrest as [Hle Hrest]. split; [lia|].
    intros ->. assert (k = 0) as -> by lia.
    rewrite Nat.add_0_r in Hrest. rewrite Hrest by done. by apply Hc.
Qed.

Lemma is_fold_point_bool hn g vpm :
  Point_eqb (vpm (source hn g)) (vpm (target (next hn g) g))
  && negb (Point_eqb (vpm (source hn g)) (vpm (target hn g))) = true
  ↔ is_fold_point hn g vpm.
Proof.
  unfold is_fold_point, Point_eqb.
  by rewrite andb_true_iff, negb_true_iff, bool_decide_eq_true, bool_decide_eq_false.
Qed.

Lemma stitching_starting_points_from fuel h hn g vpm sps :
  stitching_starting_points fuel h hn g vpm = Some sps →
  ∀ x, x ∈ sps ↔
       is_fold_point x g vpm
       ∧ ∃ k, x = Nat.iter k (λ y, next y g) hn
              ∧ ∀ j, j ≤ k → Nat.iter j (λ y, next y g) hn ≠ h.
Proof.
  revert hn sps. induction fuel as [|fuel IH]; intros hn sps; simpl; [done|].
  case_decide as Hhn.
  - intros [= <-] x. split; [by intros ?%elem_of_nil|].
    intros (_ & k & _ & Hk). destruct (Hk 0); [lia|done].
  - intros (rest & Hrest & [= <-])%bind_Some x.
    specialize (IH _ _ Hrest x).
    assert (Hshift : ∀ k, Nat.iter k (λ y, next y g) (next hn g)
                          = Nat.iter (S k) (λ y, next y g) hn)
      by (intros k; by rewrite Nat.iter_succ_r).
    transitivity ((x = hn ∧ is_fold_point hn g vpm) ∨ x ∈ rest).
    { destruct (_ && _) eqn:Hb.
      - apply is_fold_point_bool in Hb. rewrite elem_of_cons. naive_solver.
      - assert (¬ is_fold_point hn g vpm)
          by (rewrite <-is_fold_point_bool; congruence).
        naive_solver. }
    rewrite IH. split.
    + intros [[-> Hf]|(Hf & k & -> & Hk)].
      * split; [done|]. exists 0. split; [done|]. intros j ?.
        by assert (j = 0) as -> by lia.
      * split; [done|]. exists (S k). split; [by rewrite Hshift|].
        intros [|j] Hj; [done|]. rewrite <-Hshift. apply Hk. lia.
    + intros (Hf & [|k] & -> & Hk); [by left|]. right. split; [done|].
      exists k. split; [by rewrite Hshift|]. intros j Hj. rewrite Hshift.
      apply Hk. lia.
Qed.
End cycles.

(** X7.  When [stitch_boundary_cycle] or [stitch_boundary_cycles] returns
    the count 0, it leaves the mesh as it was given. *)
Theorem zero_count_leaves_mesh (pm : PM) (vpm : vertex_descriptor → Point) :
  (∀ h pm', stitch_boundary_cycle h pm vpm = Some (0, pm') → pm' = pm)
  ∧ (∀ pm', stitch_boundary_cycles pm vpm = Some (0, pm') → pm' = pm).
Proof.
  split.
  - intros h pm' (sps & _ & Hc)%bind_Some.
    by apply stitch_starting_points_count in Hc as [_ ->].
  - intros pm' (cycles & _ & Hc)%bind_Some.
    by apply stitch_boundary_cycles_loop_count in Hc as [_ ->].
Qed.

Lemma zero_count_leaves_mesh_witness :
  ∃ pm', stitch_boundary_cycle 2 fan fan_points = Some (0, pm') ∧ pm' = fan.
Proof.
  eexists. split; [vm_compute; reflexivity|].
  destruct (zero_count_leaves_mesh fan fan_points) as [Hcycle _].
  apply (Hcycle 2). vm_compute. reflexivity.
Defined.

(** X8.  The starting points of [stitch_boundary_cycle(h, pm)] are the
    halfedges that fulfil the fold condition among [next(h)],
    [next(next(h))], ... up to the last one before the walk is back on [h]:
    a degenerate halfedge is none, and neither is [h] itself. *)
Theorem stitching_starting_points_spec (h : halfedge_descriptor) (pm : PM)
    (vpm : vertex_descriptor → Point) (starting_points : list halfedge_descriptor) :
  stitching_starting_points (walk_bound pm) h (next h pm) pm vpm = Some starting_points →
  ∀ x, x ∈ starting_points ↔
       is_fold_point x pm vpm
       ∧ ∃ k, x = Nat.iter (S k) (λ y, next y pm) h
              ∧ ∀ j, j ≤ k → Nat.iter (S j) (λ y, next y pm) h ≠ h.
Proof.
  intros Hsps x. rewrite (stitching_starting_points_from _ _ _ _ _ _ Hsps).
  assert (Hshift : ∀ k, Nat.iter k (λ y, next y pm) (next h pm)
                        = Nat.iter (S k) (λ y, next y pm) h)
    by (intros k; by rewrite Nat.iter_succ_r).
  split; intros (Hf & k & -> & Hk); (split; [done|]); exists k.
  - split; [by rewrite Hshift|]. intros j Hj. rewrite <-Hshift. by apply Hk.
  - split; [by rewrite Hshift|]. intros j Hj. rewrite Hshift. by apply Hk.
Qed.

Lemma stitching_starting_points_spec_witness :
  stitching_starting_points (walk_bound fan) 14 (next 14 fan) fan fan_points = Some [2]
  ∧ is_fold_point 2 fan fan_points.
Proof.
  assert (H : stitching_starting_points (walk_bound fan) 14 (next 14 fan) fan fan_points
              = Some [2]) by (vm_compute; reflexivity).
  split; [exact H|].
  apply (stitching_starting_points_spec 14 fan fan_points [2] H 2). left.
Defined.

Section walk.
Implicit Types (g : PM) (h hn x : halfedge_descriptor) (vpm : vertex_descriptor → Point).
Implicit Types (acc : list halfedges_pair) (st : gset halfedge_descriptor).

Lemma collect_hedges_to_stitch_zip fuel h hn g vpm acc st acc' st' :
  collect_hedges_to_stitch fuel h hn g vpm acc st = Some (acc', st') →
  ∃ new,
    acc' = acc ++ new
    ∧ (∀ i p, new !! i = Some p →
         p = (Nat.iter i (λ y, prev y g) h, Nat.iter i (λ y, next y g) hn)
         ∧ (0 < i → vpm (source p.1 g) = vpm (target p.2 g)
                    ∧ vpm (source p.2 g) ≠ vpm (target p.2 g)))
    ∧ ∀ x, x ∈ st' ↔ x ∈ st ∨ ∃ p, p ∈ new ∧ (x = p.1 ∨ x = p.2).
Proof.
  revert h hn acc st. induction fuel as [|fuel IH]; intros h hn acc st; simpl; [done|].
  case_decide as Hface.
  { intros [= <- <-]. exists []. rewrite app_nil_r. split; [done|]. split.
    - intros i p. by rewrite lookup_nil.
    - intros x. split; [by left|]. intros [?|(p & []%elem_of_nil & _)]. done. }
  assert (Hone : ∃ new : list halfedges_pair,
            acc ++ [(h, hn)] = acc ++ new
            ∧ (∀ i p, new !! i = Some p →
                 p = (Nat.iter i (λ y, prev y g) h, Nat.iter i (λ y, next y g) hn)
                 ∧ (0 < i → vpm (source p.1 g) = vpm (target p.2 g)
                            ∧ vpm (source p.2 g) ≠ vpm (target p.2 g)))
            ∧ ∀ x, x ∈ ({[hn]} ∪ ({[h]} ∪ st) : gset halfedge_descriptor) ↔
                   x ∈ st ∨ ∃ p, p ∈ new ∧ (x = p.1 ∨ x = p.2)).
  { exists [(h, hn)]. split; [done|]. split.
    - intros [|i] p; [|done]. intros [= <-]. split; [done|lia].
    - intros x. rewrite !elem_of_union, !elem_of_singleton. split.
      + intros [->|[->|?]]; [right|right|by left];
          (exists (h, hn); split; [left|]; simpl; auto).
      + intros [?|(p & ->%list_elem_of_singleton & [->| ->])]; simpl; auto. }
  case_decide as Hclosed; [by intros [= <- <-]|].
  destruct (negb _ || _) eqn:Hstop; [by intros [= <- <-]|].
  apply orb_false_iff in Hstop as [Hmatch Hdeg].
  apply negb_false_iff, bool_decide_eq_true in Hmatch.
  apply bool_decide_eq_false in Hdeg.
  intros (new & -> & Hnew & Hst)%IH.
  exists ((h, hn) :: new). split; [by rewrite <-app_assoc|]. split.
  - intros [|i] p Hp.
    + injection Hp as <-. split; [done|lia].
    + change (new !! i = Some p) in Hp. destruct (Hnew _ _ Hp) as [-> Hi].
      rewrite !Nat.iter_succ_r. split; [done|]. intros _.
      destruct i as [|i]; [done|]. apply Hi. lia.
  - intros x. rewrite Hst, !elem_of_union, !elem_of_singleton. split.
    + intros [[->|[->|?]]|(p & Hp & Hx)].
      * right. exists (h, hn). split; [left|]; simpl; auto.
      * right. exists (h, hn). split; [left|]; simpl; auto.
      * by left.
      * right. exists p. split; [by right|done].
    + intros [?|(p & [->|Hp]%elem_of_cons & Hx)]; [tauto| |eauto].
      simpl in Hx. destruct Hx as [->| ->]; tauto.
Qed.
End walk.

(** X9.  The walk of [stitch_boundary_cycle] from [h] and [hn] zips the
    cycle: its i-th pair is made of the i-th predecessor of [h] and the
    i-th successor of [hn]; in every pair after the first, the point of the
    source of the first halfedge is the point of the target of the second,
    and the second halfedge is not degenerate; the halfedges marked as
    stitched are those marked before and those of the pairs. *)
Theorem walk_zips_the_cycle (fuel : nat) (h hn : halfedge_descriptor) (pm : PM)
    (vpm : vertex_descriptor → Point) (stitched_hedges : gset halfedge_descriptor)
    (hedges_to_stitch : list halfedges_pair) (stitched_hedges' : gset halfedge_descriptor) :
  collect_hedges_to_stitch fuel h hn pm vpm [] stitched_hedges
    = Some (hedges_to_stitch, stitched_hedges') →
  (∀ i p, hedges_to_stitch !! i = Some p →
     p = (Nat.iter i (λ y, prev y pm) h, Nat.iter i (λ y, next y pm) hn)
     ∧ (0 < i → vpm (source p.1 pm) = vpm (target p.2 pm)
                ∧ vpm (source p.2 pm) ≠ vpm (target p.2 pm)))
  ∧ ∀ x, x ∈ stitched_hedges' ↔
         x ∈ stitched_hedges ∨ ∃ p, p ∈ hedges_to_stitch ∧ (x = p.1 ∨ x = p.2).
Proof.
  intros (new & Hnew & Hspec)%collect_hedges_to_stitch_zip. simpl in Hnew. by subst new.
Qed.

Lemma walk_zips_the_cycle_witness :
  collect_hedges_to_stitch (walk_bound open_book) 2 8 open_book open_book_points [] ∅
    = Some ([(2, 8); (4, 10)], {[10; 4; 8; 2]})
  ∧ (4, 10) = (prev 2 open_book, next 8 open_book)
  ∧ open_book_points (source 4 open_book) = open_book_points (target 10 open_book)
  ∧ open_book_points (source 10 open_book) ≠ open_book_points (target 10 open_book).
Proof.
  assert (H : collect_hedges_to_stitch (walk_bound open_book) 2 8 open_book
                open_book_points [] ∅
              = Some ([(2, 8); (4, 10)], {[10; 4; 8; 2]})) by (vm_compute; reflexivity).
  split; [exact H|].
  destruct (proj1 (walk_zips_the_cycle _ _ _ _ _ _ _ _ H) 1 (4, 10) eq_refl) as [Hp Hm].
  split; [exact Hp|]. apply Hm. lia.
Defined.

(** ** The union of the vertices to merge *)

Section union_find.
Implicit Types (uf : Uf_vertices) (hs : Uf_handles) (v a b : vertex_descriptor).
Implicit Types (g : PM) (to_stitch : list halfedges_pair).

Lemma uf_get_handle_spec v uf hs :
  uf_wf uf hs →
  ∃ uf' hs', uf_get_handle v uf hs = (v, uf', hs')
    ∧ uf_wf uf' hs'
    ∧ dom uf' = {[v]} ∪ dom uf
    ∧ ∀ x, x ∈ dom uf → uf' !! x = uf !! x.
Proof.
  intros (Hid & Hdom & Hroot). unfold uf_get_handle.
  destruct (hs !! v) as [hd|] eqn:Hv.
  - rewrite (Hid _ _ Hv). exists uf, hs. split; [done|]. split; [done|].
    split; [|done].
    assert (v ∈ dom uf) by (rewrite <-Hdom; apply elem_of_dom; eauto).
    set_solver.
  - simpl. exists (<[v:=v]> uf), (<[v:=v]> hs). split; [done|].
    assert (Hnv : uf !! v = None).
    { apply not_elem_of_dom. rewrite <-Hdom. by apply not_elem_of_dom. }
    split; [|split].
    + split; [|split].
      * intros x hd [[-> ->]|[_ ?]]%lookup_insert_Some; eauto.
      * by rewrite !dom_insert_L, Hdom.
      * intros x r [[-> ->]|[Hne Hx]]%lookup_insert_Some.
        -- apply lookup_insert_eq.
        -- rewrite lookup_insert_ne; [by eapply Hroot|].
           intros <-. apply Hroot in Hx. congruence.
    + apply dom_insert_L.
    + intros x Hx. rewrite lookup_insert_ne; [done|].
      intros <-. apply elem_of_dom in Hx as [? ?]. congruence.
Qed.

Lemma find_registered uf hs x :
  uf_wf uf hs → x ∈ dom uf → uf !! x = Some (Union_find.find x uf)
                             ∧ uf !! Union_find.find x uf = Some (Union_find.find x uf).
Proof.
  intros (_ & _ & Hroot) [r Hr]%elem_of_dom. unfold Union_find.find.
  rewrite Hr. simpl. split; [done|]. by eapply Hroot.
Qed.

Lemma unify_sets_spec a b uf hs :
  uf_wf uf hs → a ∈ dom uf → b ∈ dom uf →
  uf_wf (Union_find.unify_sets a b uf) hs
  ∧ dom (Union_find.unify_sets a b uf) = dom uf
  ∧ uf_joined (Union_find.unify_sets a b uf) a b
  ∧ ∀ x y, uf_joined uf x y → uf_joined (Union_find.unify_sets a b uf) x y.
Proof.
  intros Hwf Ha Hb. pose proof Hwf as (Hid & Hdom & Hroot).
  destruct (find_registered _ _ _ Hwf Ha) as [Hfa Hra].
  destruct (find_registered _ _ _ Hwf Hb) as [Hfb Hrb].
  unfold Union_find.unify_sets.
  set (r1 := Union_find.find a uf) in *. set (r2 := Union_find.find b uf) in *.
  destruct (decide (r1 = r2)) as [Heq|Hne].
  { split; [done|]. split; [done|]. split; [|done]. by split. }
  set (f := λ r, if decide (r = r1) then r2 else r).
  assert (Hfind : ∀ x, x ∈ dom uf →
            Union_find.find x (f <$> uf) = f (Union_find.find x uf)).
  { intros x [r Hr]%elem_of_dom. unfold Union_find.find.
    by rewrite lookup_fmap, Hr. }
  split; [|split; [|split]].
  - split; [done|]. split; [by rewrite dom_fmap_L|].
    intros x r. rewrite !lookup_fmap. destruct (uf !! x) as [r0|] eqn:Hx; [|done].
    simpl. intros [= <-]. unfold f. case_decide.
    + rewrite Hrb. simpl. by rewrite decide_False by done.
    + rewrite (Hroot _ _ Hx). simpl. by rewrite decide_False.
  - by rewrite dom_fmap_L.
  - split; [by rewrite dom_fmap_L|]. split; [by rewrite dom_fmap_L|].
    rewrite !Hfind by done. fold r1 r2. unfold f.
    rewrite decide_True by done. by rewrite decide_False by done.
  - intros x y (Hx & Hy & Hxy). split; [by rewrite dom_fmap_L|].
    split; [by rewrite dom_fmap_L|]. rewrite !Hfind by done. by rewrite Hxy.
Qed.

Lemma uf_joined_get_handle v uf hs uf' hs' hd x y :
  uf_wf uf hs → uf_get_handle v uf hs = (hd, uf', hs') →
  uf_joined uf x y → uf_joined uf' x y.
Proof.
  intros Hwf Hget (Hx & Hy & Hxy).
  destruct (uf_get_handle_spec v uf hs Hwf) as (uf1 & hs1 & Hget' & _ & Hdom & Hsame).
  rewrite Hget in Hget'. injection Hget' as -> -> ->.
  split; [set_solver|]. split; [set_solver|].
  unfold Union_find.find in *. by rewrite !Hsame.
Qed.

Lemma uf_join_vertices_spec a b uf hs :
  uf_wf uf hs →
  uf_wf (uf_join_vertices a b uf hs).1 (uf_join_vertices a b uf hs).2
  ∧ dom (uf_join_vertices a b uf hs).1 = {[a; b]} ∪ dom uf
  ∧ uf_joined (uf_join_vertices a b uf hs).1 a b
  ∧ ∀ x y, uf_joined uf x y → uf_joined (uf_join_vertices a b uf hs).1 x y.
Proof.
  intros Hwf. unfold uf_join_vertices.
  destruct (uf_get_handle_spec a uf hs Hwf) as (uf1 & hs1 & Hg1 & Hwf1 & Hd1 & Hs1).
  rewrite Hg1.
  destruct (uf_get_handle_spec b uf1 hs1 Hwf1) as (uf2 & hs2 & Hg2 & Hwf2 & Hd2 & Hs2).
  rewrite Hg2. simpl.
  destruct (unify_sets_spec a b uf2 hs2 Hwf2) as (Hwf3 & Hd3 & Hj & Hkeep);
    [set_solver..|].
  split; [done|]. split; [rewrite Hd3, Hd2, Hd1; set_solver|]. split; [done|].
  intros x y Hxy. apply Hkeep.
  eapply uf_joined_get_handle; [exact Hwf1|exact Hg2|].
  eapply uf_joined_get_handle; [exact Hwf|exact Hg1|done].
Qed.

Lemma join_pair_spec g uf hs hk :
  uf_wf uf hs →
  uf_wf (join_pair g (uf, hs) hk).1 (join_pair g (uf, hs) hk).2
  ∧ dom (join_pair g (uf, hs) hk).1
    = {[target hk.1 g; source hk.2 g; source hk.1 g; target hk.2 g]} ∪ dom uf
  ∧ uf_joined (join_pair g (uf, hs) hk).1 (target hk.1 g) (source hk.2 g)
  ∧ uf_joined (join_pair g (uf, hs) hk).1 (source hk.1 g) (target hk.2 g)
  ∧ ∀ x y, uf_joined uf x y → uf_joined (join_pair g (uf, hs) hk).1 x y.
Proof.
  intros Hwf. unfold join_pair. simpl.
  destruct (uf_join_vertices_spec (target hk.1 g) (source hk.2 g) uf hs Hwf)
    as (Hwf1 & Hd1 & Hj1 & Hk1).
  destruct (uf_join_vertices (target hk.1 g) (source hk.2 g) uf hs) as [uf1 hs1].
  simpl in *.
  destruct (uf_join_vertices_spec (source hk.1 g) (target hk.2 g) uf1 hs1 Hwf1)
    as (Hwf2 & Hd2 & Hj2 & Hk2).
  split; [done|]. split; [rewrite Hd2, Hd1; set_solver|].
  split; [by apply Hk2|]. split; [done|]. intros x y Hxy. by apply Hk2, Hk1.
Qed.

Lemma pair_vertices_cons g hk to_stitch :
  pair_vertices g (hk :: to_stitch)
  = {[target hk.1 g; source hk.2 g; source hk.1 g; target hk.2 g]}
    ∪ pair_vertices g to_stitch.
Proof.
  unfold pair_vertices. rewrite bind_cons, list_to_set_app_L. f_equal.
  simpl. apply set_eq. intros x.
  rewrite !elem_of_union, !elem_of_singleton, elem_of_empty. tauto.
Qed.

Lemma foldl_join_pair_spec g to_stitch uf hs :
  uf_wf uf hs →
  uf_wf (foldl (join_pair g) (uf, hs) to_stitch).1
        (foldl (join_pair g) (uf, hs) to_stitch).2
  ∧ dom (foldl (join_pair g) (uf, hs) to_stitch).1 = pair_vertices g to_stitch ∪ dom uf
  ∧ (∀ hk, hk ∈ to_stitch →
       uf_joined (foldl (join_pair g) (uf, hs) to_stitch).1
         (target hk.1 g) (source hk.2 g)
       ∧ uf_joined (foldl (join_pair g) (uf, hs) to_stitch).1
           (source hk.1 g) (target hk.2 g))
  ∧ ∀ x y, uf_joined uf x y →
           uf_joined (foldl (join_pair g) (uf, hs) to_stitch).1 x y.
Proof.
  revert uf hs. induction to_stitch as [|hk l IH]; intros uf hs Hwf; simpl.
  - split; [done|]. split; [unfold pair_vertices; simpl; set_solver|].
    split; [|done]. intros hk []%elem_of_nil.
  - destruct (join_pair_spec g uf hs hk Hwf) as (Hwf1 & Hd1 & Hj1 & Hj2 & Hk1).
    destruct (join_pair g (uf, hs) hk) as [uf1 hs1]. simpl in *.
    destruct (IH uf1 hs1 Hwf1) as (Hwf2 & Hd2 & Hall & Hk2).
    split; [done|]. split; [|split].
    + rewrite Hd2, Hd1, pair_vertices_cons.
      rewrite (comm_L (∪) _ (pair_vertices g l)). by rewrite (assoc_L (∪)).
    + intros hk' [->|Hin]%elem_of_cons; [|by apply Hall].
      split; by apply Hk2.
    + intros x y Hxy. by apply Hk2, Hk1.
Qed.
End union_find.

(** X10.  After the union pass over the candidates, the handles are those
    of the end vertices of the candidates and of no other vertex, each
    vertex is its own handle, and for every candidate [(h1, h2)] the
    target of [h1] and the source of [h2] have the same representative, and
    so have the source of [h1] and the target of [h2]. *)
Theorem merge_vertices_joins_the_ends (pmesh : PM) (to_stitch : list halfedges_pair) :
  dom (merge_vertices pmesh to_stitch).2 = pair_vertices pmesh to_stitch
  ∧ (∀ v hd, (merge_vertices pmesh to_stitch).2 !! v = Some hd → hd = v)
  ∧ ∀ hk, hk ∈ to_stitch →
      Union_find.find (target hk.1 pmesh) (merge_vertices pmesh to_stitch).1
      = Union_find.find (source hk.2 pmesh) (merge_vertices pmesh to_stitch).1
      ∧ Union_find.find (source hk.1 pmesh) (merge_vertices pmesh to_stitch).1
        = Union_find.find (target hk.2 pmesh) (merge_vertices pmesh to_stitch).1.
Proof.
  unfold merge_vertices.
  assert (Hwf0 : uf_wf ∅ ∅).
  { split; [|split]; [|done|]; intros ??; by rewrite lookup_empty. }
  destruct (foldl_join_pair_spec pmesh to_stitch ∅ ∅ Hwf0)
    as ((Hid & Hdom & _) & Hd & Hall & _).
  split; [rewrite Hdom, Hd; set_solver|]. split; [done|].
  intros hk Hin. destruct (Hall _ Hin) as [(_ & _ & ?) (_ & _ & ?)]. done.
Qed.

(** ** The order of the halfedges in the collector's map *)

Section comparator.
Implicit Types (p q r : Point) (a b c : Point * Point).

Lemma Point_ltb_lt p q : Point_ltb p q = true ↔ Point_lt p q.
Proof.
  destruct p as [[px py] pz], q as [[qx qy] qz]. unfold Point_ltb, Point_lt. simpl.
  rewrite !orb_true_iff, !andb_true_iff, !orb_true_iff, !andb_true_iff,
    !Z.ltb_lt, !Z.eqb_eq. done.
Qed.

Lemma Point_lt_irrefl p : ¬ Point_lt p p.
Proof. unfold Point_lt. lia. Qed.

Lemma Point_lt_trans p q r : Point_lt p q → Point_lt q r → Point_lt p r.
Proof. unfold Point_lt. lia. Qed.

Lemma Point_lt_trichotomy p q : Point_lt p q ∨ p = q ∨ Point_lt q p.
Proof.
  destruct p as [[px py] pz], q as [[qx qy] qz]. unfold Point_lt. simpl.
  destruct (Z.lt_trichotomy px qx) as [?|[->|?]]; [lia| |lia].
  destruct (Z.lt_trichotomy py qy) as [?|[->|?]]; [lia| |lia].
  destruct (Z.lt_trichotomy pz qz) as [?|[->|?]]; [lia| |lia].
  right. by left.
Qed.

Lemma pair_ltb_lt a b :
  pair_ltb a b = true ↔ Point_lt a.1 b.1 ∨ (¬ Point_lt b.1 a.1 ∧ Point_lt a.2 b.2).
Proof.
  unfold pair_ltb.
  rewrite orb_true_iff, andb_true_iff, negb_true_iff, !Point_ltb_lt.
  rewrite <-not_true_iff_false, Point_ltb_lt. done.
Qed.

Lemma pair_ltb_irrefl a : pair_ltb a a = false.
Proof.
  apply not_true_iff_false. rewrite pair_ltb_lt.
  pose proof (Point_lt_irrefl a.1). pose proof (Point_lt_irrefl a.2). tauto.
Qed.

Lemma pair_ltb_trans a b c :
  pair_ltb a b = true → pair_ltb b c = true → pair_ltb a c = true.
Proof.
  rewrite !pair_ltb_lt.
  pose proof (Point_lt_trans a.1 b.1 c.1). pose proof (Point_lt_trans a.2 b.2 c.2).
  pose proof (Point_lt_trans c.1 a.1 b.1). pose proof (Point_lt_trans b.1 c.1 a.1).
  pose proof (Point_lt_irrefl a.1).
  destruct (Point_lt_trichotomy a.1 b.1) as [?|[Hab|?]];
    destruct (Point_lt_trichotomy b.1 c.1) as [?|[Hbc|?]];
    rewrite ?Hab, ?Hbc in *; tauto.
Qed.

Lemma sorted_points_eq (s1 t1 s2 t2 : Point) :
  (if Point_ltb s1 t1 then (s1, t1) else (t1, s1))
  = (if Point_ltb s2 t2 then (s2, t2) else (t2, s2))
  ↔ (s1 = s2 ∧ t1 = t2) ∨ (s1 = t2 ∧ t1 = s2).
Proof.
  destruct (Point_ltb s1 t1) eqn:H1, (Point_ltb s2 t2) eqn:H2; split;
    try (intros [= -> ->]; tauto).
  - intros [[-> ->]|[-> ->]]; [done|].
    apply Point_ltb_lt in H1, H2. destruct (Point_lt_irrefl t2).
    by eapply Point_lt_trans.
  - intros [[-> ->]|[-> ->]]; [congruence|done].
  - intros [[-> ->]|[-> ->]]; [congruence|done].
  - intros [[-> ->]|[-> ->]]; [done|].
    assert (s2 = t2) as -> by (by apply Point_ltb_total). done.
Qed.
End comparator.

(** X11.  [Less_for_halfedge] is a strict weak order, as [std::map] needs
    it: no halfedge is less than itself, the order is transitive, and two
    halfedges are the same key of the map (neither less than the other)
    exactly when the points of their ends are the same two points, in the
    same or in the opposite direction. *)
Theorem Less_for_halfedge_strict_weak_order (pmesh : PM)
    (vpmap : vertex_descriptor → Point) :
  (∀ h, Less_for_halfedge pmesh vpmap h h = false)
  ∧ (∀ h1 h2 h3, Less_for_halfedge pmesh vpmap h1 h2 = true →
                 Less_for_halfedge pmesh vpmap h2 h3 = true →
                 Less_for_halfedge pmesh vpmap h1 h3 = true)
  ∧ (∀ h1 h2, key_equiv (Less_for_halfedge pmesh vpmap) h1 h2 = true ↔
              (vpmap (source h1 pmesh) = vpmap (source h2 pmesh)
               ∧ vpmap (target h1 pmesh) = vpmap (target h2 pmesh))
              ∨ (vpmap (source h1 pmesh) = vpmap (target h2 pmesh)
                 ∧ vpmap (target h1 pmesh) = vpmap (source h2 pmesh))).
Proof.
  split; [|split].
  - intros h. apply pair_ltb_irrefl.
  - intros h1 h2 h3. apply pair_ltb_trans.
  - intros h1 h2. rewrite Less_for_halfedge_equiv. apply sorted_points_eq.
Qed.

(** ** The stitching engine returns *)

Section totality.
Implicit Types (g : PM) (h x : halfedge_descriptor) (v : vertex_descriptor).
Implicit Types (hk : halfedges_pair) (st : Surgery).

Lemma same_links_refl g : same_links g g.
Proof. by split. Qed.

Lemma same_links_trans g1 g2 g3 : same_links g1 g2 → same_links g2 g3 → same_links g1 g3.
Proof.
  intros [Hd1 Hl1] [Hd2 Hl2]. split; [congruence|].
  intros x. destruct (Hl2 x) as [-> ->]. apply Hl1.
Qed.

Lemma same_links_set_target h v g : same_links g (set_target h v g).
Proof.
  split; [|apply set_target_links].
  unfold set_target, upd_halfedges; simpl. apply dom_alter_L.
Qed.

Lemma same_links_set_halfedge v h g : same_links g (set_halfedge v h g).
Proof. by split. Qed.

Lemma same_links_live g g' h : same_links g g' → is_halfedge h g → is_halfedge h g'.
Proof.
  intros [Hd _] Hh. unfold is_halfedge in *.
  apply elem_of_dom. rewrite Hd. by apply elem_of_dom.
Qed.

Lemma same_links_sym g g' : same_links g g' → same_links g' g.
Proof. intros [Hd Hl]. split; [done|]. intros x. by destruct (Hl x) as [-> ->]. Qed.

Lemma same_links_fan_step g g' x : same_links g g' → fan_step x g' = fan_step x g.
Proof.
  intros [_ Hl]. unfold fan_step.
  destruct (Hl x) as [-> _]. by destruct (Hl (next x g)) as [_ ->].
Qed.

Lemma same_links_fan_perm g g' : same_links g g' → fan_perm g → fan_perm g'.
Proof.
  intros Hs [Hlive Hinj]. pose proof (same_links_sym _ _ Hs) as Hs'. split.
  - intros x Hx. rewrite (same_links_fan_step g g') by done.
    eapply same_links_live; [done|]. apply Hlive. by eapply same_links_live.
  - intros x y Hx Hy. rewrite !(same_links_fan_step g g') by done.
    apply Hinj; by eapply same_links_live.
Qed.

Lemma same_links_foldl_set_target fan v g :
  same_links g (foldl (λ g x, set_target x v g) g fan).
Proof.
  revert g. induction fan as [|a fan IH]; intros g; simpl; [apply same_links_refl|].
  eapply same_links_trans; [apply same_links_set_target|apply IH].
Qed.

Lemma update_target_vertex_total h v g :
  fan_perm g → is_halfedge h g →
  ∃ g', update_target_vertex h v g = Some g' ∧ same_links g g'.
Proof.
  intros Hc Hh. rewrite update_target_vertex_fan.
  destruct (fan_walk_returns g h Hc Hh) as [fan ->]. simpl.
  eexists. split; [done|]. apply same_links_foldl_set_target.
Qed.

(** One guarded redirection of the first loop. *)
Lemma guarded_total (P : Prop) `{!Decision P} h v g (vs : list vertex_descriptor) d :
  fan_perm g → is_halfedge h g →
  ∃ g' vs', (if decide P then
               pmesh ← update_target_vertex h v g; Some (pmesh, vs ++ [d])
             else Some (g, vs)) = Some (g', vs')
            ∧ same_links g g'.
Proof.
  intros Hc Hh. case_decide.
  - destruct (update_target_vertex_total h v g Hc Hh) as (g' & -> & Hs). simpl.
    by eexists _, _.
  - eexists _, _. split; [done|]. apply same_links_refl.
Qed.

Lemma live_pair_same_links g g' hk : same_links g g' → live_pair g hk → live_pair g' hk.
Proof.
  intros Hs (H1 & H2 & H3 & H4). pose proof Hs as [_ Hl].
  destruct (Hl hk.1) as [_ Ho1]. destruct (Hl hk.2) as [_ Ho2].
  unfold live_pair. rewrite Ho1, Ho2.
  repeat split; by eapply same_links_live.
Qed.

Lemma update_vertex_pointers_total hk st :
  fan_perm (sg_pmesh st) → live_pair (sg_pmesh st) hk →
  ∃ st', update_vertex_pointers hk st = Some st'
         ∧ same_links (sg_pmesh st) (sg_pmesh st').
Proof.
  destruct st as [g uf hs vs]. simpl. intros Hc (H1 & H2 & H3 & H4).
  unfold update_vertex_pointers.
  destruct (uf_get_handle (target hk.1 g) uf hs) as [[hdl uf1] hs1].
  destruct (guarded_total (Union_find.find hdl uf1 ≠ target hk.1 g) hk.1
              (Union_find.find hdl uf1) g vs (target hk.1 g) Hc H1)
    as (g1 & vs1 & -> & Hs1).
  simpl.
  assert (Hc1 : fan_perm g1) by by eapply same_links_fan_perm.
  destruct (guarded_total
              (Union_find.find hdl uf1 ≠ source hk.2 g ∧ target hk.1 g ≠ source hk.2 g)
              (opposite hk.2 g1) (Union_find.find hdl uf1) g1 vs1 (source hk.2 g) Hc1)
    as (g2 & vs2 & -> & Hs2).
  { pose proof Hs1 as [_ Hl]. destruct (Hl hk.2) as [_ ->].
    by eapply same_links_live. }
  simpl.
  set (g3 := set_halfedge (Union_find.find hdl uf1) hk.1 g2).
  assert (Hs3 : same_links g g3).
  { eapply same_links_trans; [exact Hs1|].
    eapply same_links_trans; [exact Hs2|]. apply same_links_set_halfedge. }
  assert (Hc3 : fan_perm g3) by by eapply same_links_fan_perm.
  destruct (uf_get_handle (target hk.2 g3) uf1 hs1) as [[hdl' uf2] hs2].
  destruct (guarded_total (Union_find.find hdl' uf2 ≠ target hk.2 g3) hk.2
              (Union_find.find hdl' uf2) g3 vs2 (target hk.2 g3) Hc3)
    as (g4 & vs4 & -> & Hs4); [by eapply same_links_live|].
  simpl.
  assert (Hc4 : fan_perm g4) by by eapply same_links_fan_perm.
  destruct (guarded_total
              (Union_find.find hdl' uf2 ≠ source hk.1 g3 ∧ source hk.1 g3 ≠ target hk.2 g3)
              (opposite hk.1 g4) (Union_find.find hdl' uf2) g4 vs4 (source hk.1 g3) Hc4)
    as (g5 & vs5 & -> & Hs5).
  { assert (Hs04 : same_links g g4) by by eapply same_links_trans.
    pose proof Hs04 as [_ Hl]. destruct (Hl hk.1) as [_ ->].
    by eapply same_links_live. }
  simpl. eexists. split; [done|]. simpl.
  eapply same_links_trans; [exact Hs3|].
  eapply same_links_trans; [exact Hs4|].
  eapply same_links_trans; [exact Hs5|]. apply same_links_set_halfedge.
Qed.

Lemma update_vertex_pointers_loop_total to_stitch st :
  fan_perm (sg_pmesh st) → Forall (live_pair (sg_pmesh st)) to_stitch →
  is_Some (update_vertex_pointers_loop to_stitch st).
Proof.
  revert st. induction to_stitch as [|hk l IH]; intros st Hc Hall; simpl; [by eexists|].
  apply Forall_cons in Hall as [Hk Hall].
  destruct (update_vertex_pointers_total hk st Hc Hk) as (st' & -> & Hs). simpl.
  apply IH; [by eapply same_links_fan_perm|].
  eapply Forall_impl; [exact Hall|]. intros hk'. by apply live_pair_same_links.
Qed.

Lemma run_stitch_borders_total g to_stitch uf hs :
  fan_perm g → Forall (live_pair g) to_stitch →
  is_Some (run_stitch_borders g to_stitch uf hs).
Proof.
  intros Hc Hall. unfold run_stitch_borders.
  destruct (update_vertex_pointers_loop_total to_stitch (mkSurgery g uf hs []))
    as [st ->]; [done..|]. simpl. by eexists.
Qed.

Lemma collect_halfedges_after_stitching_total g uf hs handles acc :
  fan_perm g →
  (∀ vd hdl, (vd, hdl) ∈ handles → is_halfedge (halfedge vd g) g) →
  is_Some (collect_halfedges_after_stitching g uf hs handles acc).
Proof.
  intros Hc. revert acc.
  induction handles as [|[vd hdl] l IH]; intros acc Hall; simpl; [by eexists|].
  unfold halfedges_around_target.
  destruct (fan_walk_returns g (halfedge vd g) Hc) as [hds ->].
  { eapply Hall. left. }
  simpl. apply IH. intros vd' hdl' Hin. eapply Hall. by right.
Qed.

Lemma valid_opposites_live g h :
  valid_opposites g → is_halfedge h g → is_halfedge (opposite h g) g.
Proof.
  intros [_ Hv] Hh. apply is_halfedge_opposites in Hh as [h' Hh'].
  rewrite opposite_opposites, Hh'. simpl.
  apply is_halfedge_opposites. destruct (Hv _ _ Hh') as [_ ->]. by eexists.
Qed.
End totality.

(** X12.  [stitch_borders_impl] returns.  On a mesh whose halfedges come in
    pairs of opposites and in which the step around a target permutes the
    halfedges, for candidates that pass the four assertions of the first
    loop (both halfedges are border halfedges, their opposites are not) and
    whose end vertices have a halfedge of the mesh as their reference
    halfedge, no assertion fails and all the walks of the call come back to
    their start: the walk around every vertex with a handle, and every loop
    of [update_target_vertex] during the surgery, also after earlier
    redirections of the same call. *)
Theorem stitch_borders_impl_returns (pmesh : PM) (to_stitch : list halfedges_pair) :
  valid_opposites pmesh → fans_closed pmesh →
  Forall (λ hk, is_border hk.1 pmesh = true ∧ is_border hk.2 pmesh = true
                ∧ is_border (opposite hk.1 pmesh) pmesh = false
                ∧ is_border (opposite hk.2 pmesh) pmesh = false) to_stitch →
  (∀ v, v ∈ pair_vertices pmesh to_stitch → is_halfedge (halfedge v pmesh) pmesh) →
  is_Some (stitch_borders_impl pmesh to_stitch).
Proof.
  intros Hv Hc%fans_closed_perm Hassert Hverts.
  assert (Hpairs : Forall (live_pair pmesh) to_stitch).
  { eapply Forall_impl; [exact Hassert|]. intros hk Hk.
    by apply candidate_assertions_live, candidate_assertions_spec. }
  unfold stitch_borders_impl. rewrite merge_candidates_spec.
  assert (Hall : forallb (candidate_assertions pmesh) to_stitch = true).
  { apply forallb_forall. intros hk Hin%list_elem_of_In.
    apply candidate_assertions_spec. by apply (proj1 (Forall_forall _ _) Hassert). }
  rewrite Hall. simpl.
  assert (Hwf0 : uf_wf ∅ ∅).
  { split; [|split]; [|done|]; intros ??; by rewrite lookup_empty. }
  destruct (foldl_join_pair_spec pmesh to_stitch ∅ ∅ Hwf0)
    as ((_ & Hdom & _) & Hd & _).
  fold (merge_vertices pmesh to_stitch) in Hdom, Hd.
  destruct (merge_vertices pmesh to_stitch) as [uf hs]. simpl in Hdom, Hd.
  destruct (collect_halfedges_after_stitching_total pmesh uf hs (map_to_list hs) ∅ Hc)
    as [has ->].
  { intros vd hdl Hin%elem_of_map_to_list. apply Hverts.
    assert (vd ∈ dom hs) as Hvd by (apply elem_of_dom; by eexists).
    rewrite Hdom, Hd in Hvd. set_solver. }
  simpl. destruct (negb _).
  - destruct (merge_vertices pmesh (filter _ to_stitch)) as [uf' hs'].
    apply run_stitch_borders_total; [done|].
    apply Forall_forall. intros hk [_ Hin]%list_elem_of_filter.
    by apply (proj1 (Forall_forall _ _) Hpairs).
  - by apply run_stitch_borders_total.
Qed.

Lemma stitch_borders_impl_returns_witness :
  is_Some (stitch_borders_impl two_triangles [(2, 8)]).
Proof.
  apply stitch_borders_impl_returns.
  - apply opp_closedb_sound. vm_compute. reflexivity.
  - unfold fans_closed.
    replace (halfedges two_triangles) with [1; 2; 3; 4; 5; 6; 7; 8; 9; 10; 11; 12]
      by (vm_compute; reflexivity).
    split.
    + repeat constructor; vm_compute; eexists; reflexivity.
    + apply (bool_decide_unpack _). vm_compute. exact I.
  - repeat constructor; vm_compute; reflexivity.
  - intros v Hin.
    assert (Hs : pair_vertices two_triangles [(2, 8)] = {[1; 4; 2; 5]})
      by (vm_compute; reflexivity).
    rewrite Hs in Hin.
    repeat (apply elem_of_union in Hin as [Hin|Hin]);
      apply elem_of_singleton in Hin as ->; vm_compute; eexists; reflexivity.
Defined.

(** ** The faces along the seams *)

Section seams.
Implicit Types (g : PM) (h x a b o : halfedge_descriptor) (v : vertex_descriptor).
Implicit Types (hk : halfedges_pair) (to_stitch : list halfedges_pair).

Lemma face_faces_of x g : face x g = default None (faces_of g !! x).
Proof. unfold face, faces_of. rewrite lookup_fmap. by destruct (_ !! x). Qed.

Lemma is_halfedge_faces_of x g : is_halfedge x g ↔ is_Some (faces_of g !! x).
Proof. unfold is_halfedge, faces_of. rewrite lookup_fmap. apply symmetry, fmap_is_Some. Qed.

Lemma faces_alter (f : Halfedge → Halfedge) h (hs : gmap halfedge_descriptor Halfedge) :
  (∀ r, hd_face (f r) = hd_face r) →
  hd_face <$> alter f h hs = hd_face <$> hs.
Proof.
  intros Hf. apply map_eq. intros i. rewrite !lookup_fmap, lookup_alter.
  case_decide; [subst i|done]. destruct (hs !! h); simpl; by rewrite ?Hf.
Qed.

Lemma faces_set_target h v g : faces_of (set_target h v g) = faces_of g.
Proof. by apply faces_alter. Qed.

Lemma faces_set_next h1 h2 g : faces_of (set_next h1 h2 g) = faces_of g.
Proof. unfold faces_of, set_next, upd_halfedges; simpl. by rewrite !faces_alter. Qed.

Lemma faces_set_face h f g : faces_of (set_face h f g) = alter (λ _, f) h (faces_of g).
Proof.
  unfold faces_of, set_face, upd_halfedges; simpl.
  apply map_eq. intros i. rewrite lookup_fmap, !lookup_alter, lookup_fmap.
  case_decide; [subst i|by rewrite lookup_fmap]. by destruct (pm_halfedges g !! h).
Qed.

Lemma faces_set_halfedge_face f h g : faces_of (set_halfedge_face f h g) = faces_of g.
Proof. by destruct f. Qed.

Lemma faces_update_target_vertex h v g g' :
  update_target_vertex h v g = Some g' → faces_of g' = faces_of g.
Proof.
  rewrite update_target_vertex_fan. intros (fan & _ & [= <-])%bind_Some.
  generalize g. induction fan as [|y fan IH]; intros g0; simpl; [done|].
  by rewrite IH, faces_set_target.
Qed.

Lemma faces_guarded (P : Prop) `{!Decision P} h v g
    (vtd : list vertex_descriptor) d g' vtd' :
  (if decide P then pmesh ← update_target_vertex h v g; Some (pmesh, vtd ++ [d])
   else Some (g, vtd)) = Some (g', vtd') →
  faces_of g' = faces_of g.
Proof.
  destruct (decide P); [|by intros [= <- <-]].
  intros (g1 & Hu & [= <- <-])%bind_Some.
  by eapply faces_update_target_vertex.
Qed.

Lemma faces_update_vertex_pointers hk st st' :
  update_vertex_pointers hk st = Some st' →
  faces_of (sg_pmesh st') = faces_of (sg_pmesh st).
Proof.
  destruct st as [g uf hs vtd]. unfold update_vertex_pointers.
  destruct (uf_get_handle (target hk.1 g) uf hs) as [[hdl1 uf1] hs1].
  intros H.
  apply bind_Some in H as ([g1 vtd1] & H1 & H).
  apply bind_Some in H as ([g2 vtd2] & H2 & H).
  destruct (uf_get_handle _ uf1 hs1) as [[hdl2 uf2] hs2].
  apply bind_Some in H as ([g3 vtd3] & H3 & H).
  apply bind_Some in H as ([g4 vtd4] & H4 & H).
  injection H as <-. simpl.
  apply faces_guarded in H1, H2, H3, H4.
  change (faces_of g4 = faces_of g). rewrite H4, H3.
  change (faces_of g2 = faces_of g). by rewrite H2, H1.
Qed.

Lemma faces_update_vertex_pointers_loop to_stitch st st' :
  update_vertex_pointers_loop to_stitch st = Some st' →
  faces_of (sg_pmesh st') = faces_of (sg_pmesh st).
Proof.
  revert st. induction to_stitch as [|hk l IH]; intros st; simpl.
  - by intros [= <-].
  - intros (st1 & H1 & H2)%bind_Some.
    rewrite (IH _ H2). by apply (faces_update_vertex_pointers hk).
Qed.

Lemma faces_foldl_link_neighbors to_stitch g :
  faces_of (foldl link_neighbors g to_stitch) = faces_of g.
Proof.
  revert g. induction to_stitch as [|hk l IH]; intros g; simpl; [done|].
  rewrite IH. unfold link_neighbors. by rewrite !faces_set_next.
Qed.

Lemma faces_foldl_remove_vertex (vs : list vertex_descriptor) g :
  faces_of (foldl (λ g vd, remove_vertex vd g) g vs) = faces_of g.
Proof. revert g. induction vs as [|v vs IH]; intros g; simpl; [done|]. by rewrite IH. Qed.

Lemma faces_remove_edge_of g g4 h o (fs : gmap halfedge_descriptor (option face_descriptor)) :
  same_skeleton g g4 → faces_of g4 = fs → opposites g !! h = Some o →
  faces_of (remove_edge (edge h g4) g4) = delete o (delete h fs).
Proof.
  intros [So _] <- Ho. rewrite edge_edge_opp, So.
  unfold faces_of, remove_edge, upd_halfedges; simpl. rewrite !fmap_delete.
  unfold edge_opp. rewrite Ho. simpl.
  destruct (Nat.min_spec h o) as [[? ->]|[? ->]],
           (Nat.max_spec h o) as [[? ->]|[? ->]]; try lia; try done;
    apply delete_delete.
Qed.

(** The third loop, one pair, on the faces of the halfedges. *)
Lemma faces_remove_second_halfedge g a b o :
  opposites g !! b = Some o →
  faces_of (remove_second_halfedge g (a, b))
  = delete o (delete b (alter (λ _, face o g) a (faces_of g))).
Proof.
  intros Ho. unfold remove_second_halfedge. cbv zeta. simpl fst. simpl snd.
  apply (faces_remove_edge_of g); [| |done].
  - eapply same_skeleton_trans; [|apply same_skeleton_set_next].
    eapply same_skeleton_trans; [|apply same_skeleton_set_next].
    eapply same_skeleton_trans; [|apply same_skeleton_set_halfedge_face].
    apply same_skeleton_set_face.
  - rewrite !faces_set_next, faces_set_halfedge_face, faces_set_face.
    by rewrite (opposite_opposites b g), Ho.
Qed.

Lemma seam_halfedges_cons g hk to_stitch :
  seam_halfedges g (hk :: to_stitch)
  = hk.1 :: hk.2 :: opposite hk.2 g :: seam_halfedges g to_stitch.
Proof. done. Qed.

Lemma elem_of_seam_halfedges g to_stitch x :
  x ∈ seam_halfedges g to_stitch ↔
  ∃ hk, hk ∈ to_stitch ∧ (x = hk.1 ∨ x = hk.2 ∨ x = opposite hk.2 g).
Proof.
  unfold seam_halfedges. rewrite list_elem_of_bind. split.
  - intros (hk & Hx & Hin). exists hk. split; [done|].
    rewrite !elem_of_cons, elem_of_nil in Hx. tauto.
  - intros (hk & Hin & Hx). exists hk. split; [|done].
    rewrite !elem_of_cons, elem_of_nil. tauto.
Qed.

Lemma seam_halfedges_ext g g' to_stitch :
  (∀ hk, hk ∈ to_stitch → opposite hk.2 g' = opposite hk.2 g) →
  seam_halfedges g' to_stitch = seam_halfedges g to_stitch.
Proof.
  induction to_stitch as [|hk l IH]; intros Hext; [done|].
  rewrite !seam_halfedges_cons, (Hext hk) by left.
  rewrite IH; [done|]. intros hk' Hin. apply Hext. by right.
Qed.

(** The third loop on the faces and the opposites of the halfedges. *)
Lemma foldl_remove_second_halfedge_seams to_stitch g :
  valid_opposites g →
  NoDup (seam_halfedges g to_stitch) →
  Forall (λ x, is_halfedge x g) (seam_halfedges g to_stitch) →
  (∀ x, x ∉ seam_halfedges g to_stitch →
        faces_of (foldl remove_second_halfedge g to_stitch) !! x = faces_of g !! x
        ∧ opposites (foldl remove_second_halfedge g to_stitch) !! x = opposites g !! x)
  ∧ ∀ hk, hk ∈ to_stitch →
      faces_of (foldl remove_second_halfedge g to_stitch) !! hk.1
        = Some (face (opposite hk.2 g) g)
      ∧ opposites (foldl remove_second_halfedge g to_stitch) !! hk.1
        = opposites g !! hk.1
      ∧ opposites (foldl remove_second_halfedge g to_stitch) !! hk.2 = None
      ∧ opposites (foldl remove_second_halfedge g to_stitch) !! opposite hk.2 g = None.
Proof.
  revert g. induction to_stitch as [|[a b] l IH]; intros g Hv Hnd Hlive.
  { split; [done|]. intros hk []%elem_of_nil. }
  rewrite seam_halfedges_cons in Hnd, Hlive. simpl in Hnd, Hlive.
  set (o := opposite b g) in *.
  apply NoDup_cons in Hnd as [Ha Hnd]. apply NoDup_cons in Hnd as [Hb Hnd].
  apply NoDup_cons in Hnd as [Ho Hnd].
  apply Forall_cons in Hlive as [La Hlive]. apply Forall_cons in Hlive as [Lb Hlive].
  apply Forall_cons in Hlive as [Lo Hlive].
  assert (Hob : opposites g !! b = Some o).
  { apply is_halfedge_opposites in Lb as [o' Ho']. unfold o.
    by rewrite opposite_opposites, Ho'. }
  set (g1 := remove_second_halfedge g (a, b)).
  assert (HO1 : ∀ x, opposites g1 !! x
                     = if decide (x = b ∨ x = o) then None else opposites g !! x).
  { intros x. unfold g1.
    destruct (opposites_remove_second_halfedge g (a, b)) as [-> _]. simpl.
    rewrite remove_edge_opp_lookup by done. rewrite Hob.
    destruct (decide (x = b ∨ x = o)) as [Hx|Hx].
    - rewrite decide_True; [done|]. destruct Hx as [->| ->]; auto.
    - rewrite decide_False; [done|]. intros [->|[= ->]]; tauto. }
  assert (HF1 : ∀ x, faces_of g1 !! x
                     = if decide (x = b ∨ x = o) then None
                       else if decide (x = a) then (λ _, face o g) <$> faces_of g !! a
                       else faces_of g !! x).
  { intros x. unfold g1. rewrite (faces_remove_second_halfedge g a b o Hob).
    destruct (decide (x = b ∨ x = o)) as [Hx|Hx].
    - apply lookup_delete_None. destruct Hx as [->| ->]; [right|by left].
      apply lookup_delete_eq.
    - rewrite !lookup_delete_ne by (intros <-; tauto).
      rewrite lookup_alter. destruct (decide (x = a)) as [->|Hxa].
      + by rewrite decide_True by done.
      + by rewrite decide_False by done. }
  assert (Hkeep : ∀ x, x ∈ seam_halfedges g l →
            opposites g1 !! x = opposites g !! x ∧ faces_of g1 !! x = faces_of g !! x).
  { intros x Hx. rewrite HO1, HF1.
    assert (Hne : ¬ (x = b ∨ x = o)).
    { intros [->| ->]; [|done]. apply Hb. by right. }
    rewrite !(decide_False (P := x = b ∨ x = o)) by done.
    rewrite decide_False; [done|]. intros ->. apply Ha. by do 2 right. }
  assert (Hext : ∀ hk, hk ∈ l → opposite hk.2 g1 = opposite hk.2 g).
  { intros hk Hin. rewrite !opposite_opposites.
    destruct (Hkeep hk.2) as [-> _]; [|done].
    apply elem_of_seam_halfedges. exists hk. auto. }
  assert (Hseam : seam_halfedges g1 l = seam_halfedges g l)
    by by apply seam_halfedges_ext.
  destruct (IH g1) as [Hframe Hpairs].
  { unfold g1. unfold valid_opposites.
    destruct (opposites_remove_second_halfedge g (a, b)) as [-> _].
    by apply opp_closed_remove_edge_opp. }
  { by rewrite Hseam. }
  { rewrite Hseam. apply Forall_forall. intros x Hx.
    apply is_halfedge_opposites. destruct (Hkeep x Hx) as [-> _].
    apply is_halfedge_opposites. by apply (proj1 (Forall_forall _ _) Hlive). }
  rewrite Hseam in Hframe. simpl foldl. fold g1. split.
  - intros x Hx. rewrite seam_halfedges_cons in Hx. simpl in Hx. fold o in Hx.
    rewrite !not_elem_of_cons in Hx. destruct Hx as (Hxa & Hxb & Hxo & Hx).
    destruct (Hframe x Hx) as [-> ->]. rewrite HO1, HF1.
    rewrite !(decide_False (P := x = b ∨ x = o)) by tauto.
    by rewrite decide_False by done.
  - intros hk [->|Hin]%elem_of_cons.
    + simpl. fold o.
      destruct (Hframe a) as [-> ->]; [by intros ?; apply Ha; do 2 right|].
      destruct (Hframe b) as [_ ->]; [by intros ?; apply Hb; right|].
      destruct (Hframe o) as [_ ->]; [done|].
      rewrite !HO1, HF1.
      assert (Hab : ¬ (a = b ∨ a = o)).
      { intros [->| ->]; apply Ha; [left|right; left]. }
      rewrite (decide_False (P := a = b ∨ a = o)) by done.
      rewrite decide_True by done.
      rewrite (decide_False (P := a = b ∨ a = o)) by done.
      rewrite !decide_True by auto.
      apply is_halfedge_faces_of in La as [f ->]. done.
    + destruct (Hpairs hk Hin) as (HF & HO & HO2 & HO3).
      rewrite (Hext hk Hin) in HF, HO3.
      assert (Hs1 : hk.1 ∈ seam_halfedges g l)
        by (apply elem_of_seam_halfedges; exists hk; auto).
      assert (Hs3 : opposite hk.2 g ∈ seam_halfedges g l)
        by (apply elem_of_seam_halfedges; exists hk; auto).
      rewrite HF, HO, HO2, HO3.
      destruct (Hkeep _ Hs1) as [-> _].
      rewrite (face_faces_of _ g1), (face_faces_of _ g).
      destruct (Hkeep _ Hs3) as [_ ->]. done.
Qed.

Lemma run_stitch_borders_views g to_stitch uf hs g' :
  run_stitch_borders g to_stitch uf hs = Some g' →
  ∃ g2, same_skeleton g g2 ∧ faces_of g2 = faces_of g
        ∧ opposites g' = opposites (foldl remove_second_halfedge g2 to_stitch)
        ∧ faces_of g' = faces_of (foldl remove_second_halfedge g2 to_stitch).
Proof.
  unfold run_stitch_borders. intros (st & Hst & [= <-])%bind_Some.
  exists (foldl link_neighbors (sg_pmesh st) to_stitch). split; [|split; [|split]].
  - eapply same_skeleton_trans; [|apply same_skeleton_foldl_link_neighbors].
    by apply same_skeleton_update_vertex_pointers_loop in Hst.
  - rewrite faces_foldl_link_neighbors.
    by apply faces_update_vertex_pointers_loop in Hst.
  - by destruct (foldl_remove_vertex (sg_vertices_to_delete st)
                   (foldl remove_second_halfedge
                      (foldl link_neighbors (sg_pmesh st) to_stitch) to_stitch))
      as [-> _].
  - apply faces_foldl_remove_vertex.
Qed.
End seams.

(** X14.  What [run_stitch_borders] does along the seams.  On a mesh whose
    halfedges come in pairs of opposites, for pairs whose halfedges and
    the opposites of whose second halfedges are distinct halfedges of the
    mesh: the first halfedge [h1] of every pair [(h1, h2)] stays in the
    mesh, keeps its opposite and gets the face that [opposite(h2)] had,
    [h2] and [opposite(h2)] leave the mesh, and every halfedge that is in
    no pair and opposite to no second halfedge keeps its face and its
    opposite. *)
Theorem stitched_halfedge_takes_the_face (pmesh : PM) (to_stitch : list halfedges_pair)
    (uf_vertices : Uf_vertices) (uf_handles : Uf_handles) (pmesh' : PM) :
  valid_opposites pmesh →
  NoDup (seam_halfedges pmesh to_stitch) →
  Forall (λ x, is_halfedge x pmesh) (seam_halfedges pmesh to_stitch) →
  run_stitch_borders pmesh to_stitch uf_vertices uf_handles = Some pmesh' →
  (∀ hk, hk ∈ to_stitch →
     is_halfedge hk.1 pmesh'
     ∧ face hk.1 pmesh' = face (opposite hk.2 pmesh) pmesh
     ∧ opposite hk.1 pmesh' = opposite hk.1 pmesh
     ∧ ¬ is_halfedge hk.2 pmesh'
     ∧ ¬ is_halfedge (opposite hk.2 pmesh) pmesh')
  ∧ ∀ x, x ∉ seam_halfedges pmesh to_stitch →
      (is_halfedge x pmesh' ↔ is_halfedge x pmesh)
      ∧ face x pmesh' = face x pmesh
      ∧ opposite x pmesh' = opposite x pmesh.
Proof.
  intros Hv Hnd Hlive Hrun.
  destruct (run_stitch_borders_views _ _ _ _ _ Hrun) as (g2 & [So Sv] & HF & HO' & HF').
  assert (Hext : ∀ x, opposite x g2 = opposite x pmesh).
  { intros x. by rewrite !opposite_opposites, So. }
  assert (Hfaces : ∀ x, face x g2 = face x pmesh).
  { intros x. by rewrite !face_faces_of, HF. }
  assert (Hseam : seam_halfedges g2 to_stitch = seam_halfedges pmesh to_stitch).
  { apply seam_halfedges_ext. intros hk _. apply Hext. }
  destruct (foldl_remove_second_halfedge_seams to_stitch g2) as [Hframe Hpairs].
  - unfold valid_opposites. by rewrite So.
  - by rewrite Hseam.
  - rewrite Hseam. eapply Forall_impl; [exact Hlive|]. intros x.
    rewrite !is_halfedge_opposites. by rewrite So.
  - rewrite Hseam in Hframe. rewrite <-HO', <-HF' in Hframe, Hpairs. split.
    + intros hk Hin. destruct (Hpairs hk Hin) as (H1 & H2 & H3 & H4).
      rewrite Hext, Hfaces in H1. rewrite Hext in H4. rewrite So in H2.
      split; [apply is_halfedge_faces_of; by rewrite H1|].
      split; [by rewrite face_faces_of, H1|].
      split; [by rewrite !opposite_opposites, H2|].
      split; rewrite is_halfedge_opposites; [rewrite H3|rewrite H4];
        by intros [? [=]].
    + intros x Hx. destruct (Hframe x Hx) as [H1 H2]. rewrite HF in H1. rewrite So in H2.
      split; [by rewrite !is_halfedge_opposites, H2|].
      split; [by rewrite !face_faces_of, H1|by rewrite !opposite_opposites, H2].
Qed.

Lemma stitched_halfedge_takes_the_face_witness :
  ∃ pmesh', run_stitch_borders two_triangles [(2, 8)] ∅ ∅ = Some pmesh'
    ∧ (∀ hk, hk ∈ [(2, 8)] →
         is_halfedge hk.1 pmesh'
         ∧ face hk.1 pmesh' = face (opposite hk.2 two_triangles) two_triangles
         ∧ opposite hk.1 pmesh' = opposite hk.1 two_triangles
         ∧ ¬ is_halfedge hk.2 pmesh'
         ∧ ¬ is_halfedge (opposite hk.2 two_triangles) pmesh')
    ∧ ∀ x, x ∉ seam_halfedges two_triangles [(2, 8)] →
        (is_halfedge x pmesh' ↔ is_halfedge x two_triangles)
        ∧ face x pmesh' = face x two_triangles
        ∧ opposite x pmesh' = opposite x two_triangles.
Proof.
  assert (Hv : valid_opposites two_triangles)
    by (apply opp_closedb_sound; vm_compute; reflexivity).
  assert (Hnd : NoDup (seam_halfedges two_triangles [(2, 8)])).
  { apply (bool_decide_unpack _). vm_compute. exact I. }
  assert (Hlive : Forall (λ x, is_halfedge x two_triangles)
                    (seam_halfedges two_triangles [(2, 8)])).
  { repeat constructor; vm_compute; eexists; reflexivity. }
  eexists. split; [vm_compute; reflexivity|].
  apply (stitched_halfedge_takes_the_face two_triangles [(2, 8)] ∅ ∅ _ Hv Hnd Hlive).
  vm_compute. reflexivity.
Defined.

(** ** The count and the halfedges removed *)

Section count_bound.
Implicit Types (g : PM) (o : gmap halfedge_descriptor halfedge_descriptor).

Lemma size_delete_le o (k : halfedge_descriptor) : size o ≤ S (size (delete k o)).
Proof.
  destruct (o !! k) as [x|] eqn:Hk.
  - rewrite <-(insert_delete_id o k x) at 1 by done.
    rewrite map_size_insert_None by apply lookup_delete_eq. lia.
  - rewrite delete_id by done. lia.
Qed.

Lemma size_remove_edge_opp_le o h : size o ≤ size (remove_edge_opp o h) + 2.
Proof.
  unfold remove_edge_opp.
  pose proof (size_delete_le o (edge_opp o h).1).
  pose proof (size_delete_le (delete (edge_opp o h).1 o) (edge_opp o h).2). lia.
Qed.

Lemma size_foldl_remove_edge_opp_le (hs : list halfedge_descriptor) o :
  size o ≤ size (foldl remove_edge_opp o hs) + 2 * length hs.
Proof.
  revert o. induction hs as [|h hs IH]; intros o; simpl; [lia|].
  pose proof (IH (remove_edge_opp o h)). pose proof (size_remove_edge_opp_le o h). lia.
Qed.

Lemma stitch_borders_impl_count g (to_stitch : list halfedges_pair) g' :
  stitch_borders_impl g to_stitch = Some g' →
  num_halfedges g ≤ num_halfedges g' + 2 * length to_stitch.
Proof.
  intros (stitched & st & Hs & _ & Ho & _)%stitch_borders_impl_effect.
  rewrite !num_halfedges_opposites, Ho.
  pose proof (size_foldl_remove_edge_opp_le stitched.*2 (opposites g)) as Hle.
  rewrite length_fmap in Hle.
  apply surviving_pairs_sublist, sublist_length in Hs.
  etrans; [exact Hle|]. apply Nat.add_le_mono_l, Nat.mul_le_mono_l. exact Hs.
Qed.

Lemma stitch_starting_points_bound sps (stitched : gset halfedge_descriptor) g vpm
    n n' g' :
  stitch_starting_points sps stitched g vpm n = Some (n', g') →
  num_halfedges g + 2 * n ≤ num_halfedges g' + 2 * n'.
Proof.
  revert stitched g n. induction sps as [|h sps IH]; intros stitched g n; simpl.
  - intros [= <- <-]. lia.
  - case_decide; [apply IH|].
    intros ([hs stitched1] & Hwalk & Hrest)%bind_Some. simpl in Hrest.
    destruct (negb (bool_decide (hs = []))).
    + apply bind_Some in Hrest as (g1 & Himpl & Hrest).
      apply IH in Hrest. apply stitch_borders_impl_count in Himpl. lia.
    + by apply IH in Hrest.
Qed.

Lemma stitch_boundary_cycle_bound h g vpm n' g' :
  stitch_boundary_cycle h g vpm = Some (n', g') →
  num_halfedges g ≤ num_halfedges g' + 2 * n'.
Proof.
  unfold stitch_boundary_cycle. intros (sps & _ & Hrun)%bind_Some.
  apply stitch_starting_points_bound in Hrun. lia.
Qed.

Lemma stitch_boundary_cycles_loop_bound cycles g vpm n n' g' :
  stitch_boundary_cycles_loop cycles g vpm n = Some (n', g') →
  num_halfedges g + 2 * n ≤ num_halfedges g' + 2 * n'.
Proof.
  revert g n. induction cycles as [|h cycles IH]; intros g n; simpl.
  - intros [= <- <-]. lia.
  - intros ([m g1] & Hc & Hrest)%bind_Some. simpl in Hrest.
    apply IH in Hrest. apply stitch_boundary_cycle_bound in Hc. lia.
Qed.
End count_bound.

(** X15.  The count that [stitch_boundary_cycle] and
    [stitch_boundary_cycles] return bounds what they remove: at most two
    halfedges per counted pair.  The count is the number of pairs handed to
    [stitch_borders_impl], whether the filter lets them through or not. *)
Theorem count_bounds_removed_halfedges (pm : PM) (vpm : vertex_descriptor → Point) :
  (∀ h n pm', stitch_boundary_cycle h pm vpm = Some (n, pm') →
     num_halfedges pm ≤ num_halfedges pm' + 2 * n)
  ∧ (∀ n pm', stitch_boundary_cycles pm vpm = Some (n, pm') →
       num_halfedges pm ≤ num_halfedges pm' + 2 * n).
Proof.
  split.
  - intros h n pm'. apply stitch_boundary_cycle_bound.
  - intros n pm'. unfold stitch_boundary_cycles.
    intros (cycles & _ & Hrun)%bind_Some.
    apply stitch_boundary_cycles_loop_bound in Hrun. lia.
Qed.

Lemma count_bounds_removed_halfedges_witness :
  ∃ pm', stitch_boundary_cycle 14 fan fan_points = Some (1, pm')
         ∧ num_halfedges fan ≤ num_halfedges pm' + 2 * 1.
Proof.
  eexists. split; [vm_compute; reflexivity|].
  destruct (count_bounds_removed_halfedges fan fan_points) as [Hcycle _].
  apply (Hcycle 14 1). vm_compute. reflexivity.
Defined.

(** * The manifold invariant *)

Section vertex_pairs.
Implicit Types (g : PM) (h x : halfedge_descriptor) (a b : vertex_descriptor).

Lemma vertex_pair_manifold_check g :
  Forall (λ h, length (halfedges_between g (source h g) (target h g)) ≤ 2)
         (halfedges g) →
  vertex_pair_manifold g.
Proof.
  intros Hall h Hh%elem_of_halfedges.
  by apply (proj1 (Forall_forall _ _) Hall).
Qed.

Lemma target_fans_check g :
  forallb (λ x, match halfedges_around_target_from (walk_bound g) x x g with
                | Some fan =>
                    forallb (λ y, bool_decide (y ∈ fan ↔ target y g = target x g))
                            (halfedges g)
                    && forallb (λ y, bool_decide (is_halfedge y g)) fan
                | None => true
                end) (halfedges g) = true →
  target_fans g.
Proof.
  intros Hall x fan Hx Hfan y.
  rewrite forallb_forall in Hall.
  specialize (Hall x). rewrite Hfan in Hall.
  destruct (proj1 (andb_true_iff _ _)
              (Hall (proj1 (list_elem_of_In _ _) (proj2 (elem_of_halfedges x g) Hx))))
    as [Hin Hlive].
  rewrite forallb_forall in Hin. rewrite forallb_forall in Hlive. split.
  - intros Hy. pose proof Hy as Hy'%list_elem_of_In%Hlive%bool_decide_eq_true.
    split; [done|].
    apply elem_of_halfedges, list_elem_of_In, Hin, bool_decide_eq_true in Hy'.
    by apply Hy'.
  - intros [Hy Ht].
    apply elem_of_halfedges, list_elem_of_In, Hin, bool_decide_eq_true in Hy.
    by apply Hy.
Qed.

Lemma vertex_refs_check g :
  Forall (λ x, is_halfedge (halfedge (target x g) g) g
               ∧ target (halfedge (target x g) g) g = target x g) (halfedges g) →
  vertex_refs g.
Proof.
  intros Hall x Hx%elem_of_halfedges.
  by apply (proj1 (Forall_forall _ _) Hall).
Qed.
End vertex_pairs.

(** ** The keys of the multiplicity map *)

Section keys.
Implicit Types (g : PM) (hd x e : halfedge_descriptor) (vd v : vertex_descriptor).
Implicit Types (uf : Uf_vertices) (hs : Uf_handles).
Implicit Types (m acc : Halfedges_after_stitching).
Implicit Types (k : vertex_descriptor * vertex_descriptor).













End keys.

(** ** The union-find of fewer pairs *)

Section refinement.
Context (R : vertex_descriptor → vertex_descriptor → Prop).
Context (R_refl : ∀ a, R a a) (R_sym : ∀ a b, R a b → R b a).
Context (R_trans : ∀ a b c, R a b → R b c → R a c).
Implicit Types (uf : Uf_vertices) (hs : Uf_handles) (v a b : vertex_descriptor).
Implicit Types (g : PM).




End refinement.

(** ** The halfedges on a pair of merged vertices *)




Section classes.
Context (g : PM) (to_stitch : list halfedges_pair).
Context (uf1 : Uf_vertices) (hs1 : Uf_handles) (m : Halfedges_after_stitching).
Context (Hv : valid_opposites g) (Hfans : target_fans g) (Hrefs : vertex_refs g).
Context (Hsimple : vertex_pair_manifold g).
Context (Hmerge : merge_vertices g to_stitch = (uf1, hs1)).
Context (Hm : collect_halfedges_after_stitching g uf1 hs1 (map_to_list hs1) ∅ = Some m).
Implicit Types (x y z e : halfedge_descriptor) (v w a b : vertex_descriptor).

Local Abbreviation unsafe := (find_unstitchable_vertices g m).
Local Abbreviation stitched := (filter (λ hk, ¬ touches_unsafe g unsafe hk) to_stitch).
Local Abbreviation rep1 := (λ v, Union_find.find v uf1).
Local Abbreviation rep2 := (λ v, Union_find.find v (merge_vertices g stitched).1).
Local Abbreviation same_ends x y :=
  ((rep2 (source x g) = rep2 (source y g) ∧ rep2 (target x g) = rep2 (target y g))
   ∨ (rep2 (source x g) = rep2 (target y g) ∧ rep2 (target x g) = rep2 (source y g))).










End classes.

(** ** The targets after the engine *)

Section targets.
Implicit Types (g pm : PM) (x y a b h : halfedge_descriptor) (v w : vertex_descriptor).
Implicit Types (to_stitch : list halfedges_pair).















End targets.

Section surgery.
Context (g : PM) (stitched : list halfedges_pair).
Context (uf : Uf_vertices) (hs : Uf_handles).
Context (Hv : valid_opposites g) (Hfans : target_fans g).
Context (Hmerge : merge_vertices g stitched = (uf, hs)).
Implicit Types (pm : PM) (x y a b : halfedge_descriptor) (v w : vertex_descriptor).
Implicit Types (F : vertex_descriptor → vertex_descriptor) (st : Surgery).

Local Abbreviation rep := (λ v, Union_find.find v uf).
Local Abbreviation follows pm F := (∀ x, is_halfedge x g → target x pm = F (target x g)).
Local Abbreviation partly F := (∀ w, F w = w ∨ F w = rep w).














End surgery.

(** ** The vertex pairs after a call of the engine *)

Section vertex_pair_bound.
Implicit Types (g : PM) (x y h : halfedge_descriptor) (to_stitch : list halfedges_pair).




End vertex_pair_bound.



(** The filter at work.  On the fan the border halfedges 4 and 12 pass the
    assertions, but to stitch them would fold the triangle of the vertices
    2, 3 and 4 flat, and the edges from the vertex 2 to the vertices 3 and
    4, which have two faces each, would join the same two vertices.  The
    filter marks the vertices 2, 3 and 4 and drops the pair, and the call
    leaves the mesh as it is.  The engine alone on this pair leaves the
    four halfedges 5, 6, 9 and 10 between the vertices 2 and 4, none of
    them on a border edge. *)
Lemma filter_drops_a_flattening_pair :
  valid_opposites fan
  ∧ vertex_pair_manifold fan ∧ target_fans fan ∧ vertex_refs fan
  ∧ candidate_assertions fan (4, 12) = true
  ∧ unsafe_vertices fan [(4, 12)] = Some {[2; 3; 4]}
  ∧ stitch_borders_pairs fan [(4, 12)] = Some (tt, fan)
  ∧ ∃ pmesh',
      run_stitch_borders fan [(4, 12)]
        (merge_vertices fan [(4, 12)]).1 (merge_vertices fan [(4, 12)]).2 = Some pmesh'
      ∧ halfedges_between pmesh' 2 4 = [5; 6; 9; 10]
      ∧ Forall (λ x, is_border_edge x pmesh' = false) [5; 6; 9; 10].
Proof.
  assert (Hlist : halfedges fan = [1; 2; 3; 4; 5; 6; 7; 8; 9; 10; 11; 12; 13; 14])
    by (vm_compute; reflexivity).
  split; [apply opp_closedb_sound; vm_compute; reflexivity|].
  split.
  { apply vertex_pair_manifold_check. rewrite Hlist.
    repeat constructor; vm_compute; lia. }
  split; [apply target_fans_check; vm_compute; reflexivity|].
  split.
  { apply vertex_refs_check. rewrite Hlist.
    repeat constructor; vm_compute; eexists; reflexivity. }
  split; [vm_compute; reflexivity|]. split; [vm_compute; reflexivity|].
  split; [vm_compute; reflexivity|].
  eexists. split; [vm_compute; reflexivity|].
  split; [vm_compute; reflexivity|].
  repeat constructor.
Qed.

